(** * xcompose: the key-binding dictionary builder and its serializer

    A shallow embedding of [buildDict], [keyFor], [insert], [format]
    and [quote] of [cmd/xcompose/xcompose.go], and the properties of the
    nested dictionary they build and print.

    - Go strings are byte sequences: they are modelled by [string],
      whose characters are the 256 values of [ascii].  Runes and the
      integers of the library are in [Z].
    - A [map[string]interface{}] whose values are strings or maps of
      the same kind, which is all that [insert] stores, is a finite map
      from strings to nodes.  [insert] updates the map in place; as a
      function it returns the updated map.  The module [Ref] has the
      same function on a heap of maps and references to them, where a
      reference can be nil and a map can be made, and the two are
      related.
    - [format] writes to an [io.Writer]: it is a function from the state
      of the sink to the state after and the error returned, for any
      sink given by its [Write].  The order in which a [range] loop
      visits a map is a parameter.
    - [quote] calls [strconv.Quote], [strings.HasPrefix] and
      [strings.ToUpper]; these are modelled after the Go library, the
      tables of Unicode properties above Latin-1 being parameters.
    - [keyFor] reads the table [keysymdef], which is generated and is a
      parameter here, and calls [strconv.ParseInt], modelled after the
      library.  [buildDict] is its loop over the lines that the scanner
      reads, with [strings.FieldsFunc] and [strings.Fields] modelled
      after the library and [strconv.Unquote] a parameter; a call of
      [log.Fatalf] and a panic are outcomes of the loop. *)

From Stdlib Require Import ZArith Ascii String.
From stdpp Require Import gmap strings list fin_maps sorting.

Set Warnings "-register-all,-clear-no-such-hyp".

(** ** Go strings and the library functions [quote] calls *)

Section go.
Local Open Scope Z_scope.

(** The value of a byte, and the conversion [byte(x)] of an integer. *)
Definition byte_val (c : ascii) : Z := Z.of_N (N_of_ascii c).
Definition to_byte (x : Z) : ascii := ascii_of_N (Z.to_N (x mod 256)).

Definition LF : ascii := "010"%char.
Definition TAB : ascii := "009"%char.
Definition DQUOTE : ascii := "034"%char.
Definition BACKSLASH : ascii := "092"%char.

Definition str (c : ascii) : string := String c EmptyString.

(** The tables of the Unicode packages that the library functions
    consult: [strconv.IsPrint] above Latin-1 and [unicode.ToUpper] above
    ASCII.  Nothing is assumed about them. *)
Class UnicodeTables := {
  isPrintTable : Z → bool;
  upperCaseTable : Z → Z
}.

(** *** unicode/utf8 *)

Definition RuneError : Z := 0xFFFD.
Definition RuneSelf : Z := 0x80.
Definition MaxRune : Z := 0x10FFFF.
Definition surrogateMin : Z := 0xD800.
Definition surrogateMax : Z := 0xDFFF.

(** [first[s0]]: information about the first byte of an encoding; the
    low three bits are the length, the high four select the range of
    the second byte. *)
Definition utf8_first (s0 : Z) : Z :=
  if s0 <? 0x80 then 0xF0
  else if s0 <? 0xC2 then 0xF1
  else if s0 <? 0xE0 then 0x02
  else if s0 =? 0xE0 then 0x13
  else if s0 <? 0xED then 0x03
  else if s0 =? 0xED then 0x23
  else if s0 <? 0xF0 then 0x03
  else if s0 =? 0xF0 then 0x34
  else if s0 <? 0xF4 then 0x04
  else if s0 =? 0xF4 then 0x44
  else 0xF1.

Definition utf8_acceptRanges (i : Z) : Z * Z :=
  if i =? 1 then (0xA0, 0xBF)
  else if i =? 2 then (0x80, 0x9F)
  else if i =? 3 then (0x90, 0xBF)
  else if i =? 4 then (0x80, 0x8F)
  else (0x80, 0xBF).

(** [s[i]] where it exists. *)
Definition at_index (s : string) (i : nat) : option Z := byte_val <$> String.get i s.

Definition is_cont (b : Z) : bool := (0x80 <=? b) && (b <=? 0xBF).

Definition utf8_DecodeRuneInString (s : string) : Z * nat :=
  match at_index s 0 with
  | None => (RuneError, 0%nat)
  | Some s0 =>
      let x := utf8_first s0 in
      if 0xF0 <=? x then
        (if Z.odd x then RuneError else s0, 1%nat)
      else
        let sz := Z.to_nat (Z.land x 7) in
        let accept := utf8_acceptRanges (Z.shiftr x 4) in
        if (String.length s <? sz)%nat then (RuneError, 1%nat) else
        match at_index s 1 with
        | None => (RuneError, 1%nat)
        | Some s1 =>
            if (s1 <? accept.1) || (accept.2 <? s1) then (RuneError, 1%nat)
            else if (sz <=? 2)%nat then
              (Z.lor (Z.shiftl (Z.land s0 0x1F) 6) (Z.land s1 0x3F), 2%nat)
            else
            match at_index s 2 with
            | None => (RuneError, 1%nat)
            | Some s2 =>
                if negb (is_cont s2) then (RuneError, 1%nat)
                else if (sz <=? 3)%nat then
                  (Z.lor (Z.lor (Z.shiftl (Z.land s0 0x0F) 12)
                                (Z.shiftl (Z.land s1 0x3F) 6))
                         (Z.land s2 0x3F), 3%nat)
                else
                match at_index s 3 with
                | None => (RuneError, 1%nat)
                | Some s3 =>
                    if negb (is_cont s3) then (RuneError, 1%nat)
                    else
                      (Z.lor (Z.lor (Z.lor (Z.shiftl (Z.land s0 0x07) 18)
                                           (Z.shiftl (Z.land s1 0x3F) 12))
                                    (Z.shiftl (Z.land s2 0x3F) 6))
                             (Z.land s3 0x3F), 4%nat)
                end
            end
        end
  end.

Definition utf8_ValidRune (r : Z) : bool :=
  ((0 <=? r) && (r <? surrogateMin)) || ((surrogateMax <? r) && (r <=? MaxRune)).

(** [utf8.AppendRune]: the bytes of the encoding of [r]. *)
Definition utf8_AppendRune (r : Z) : string :=
  let i := r mod 2 ^ 32 in
  let cont (x : Z) := to_byte (Z.lor 0x80 (Z.land x 0x3F)) in
  if i <=? 0x7F then str (to_byte r)
  else if i <=? 0x7FF then
    String (to_byte (Z.lor 0xC0 (Z.shiftr r 6))) (str (cont r))
  else if (i <? surrogateMin) || ((surrogateMax <? i) && (i <=? 0xFFFF)) then
    String (to_byte (Z.lor 0xE0 (Z.shiftr r 12)))
      (String (cont (Z.shiftr r 6)) (str (cont r)))
  else if (0xFFFF <? i) && (i <=? MaxRune) then
    String (to_byte (Z.lor 0xF0 (Z.shiftr r 18)))
      (String (cont (Z.shiftr r 12)) (String (cont (Z.shiftr r 6)) (str (cont r))))
  else String (to_byte 0xEF) (String (to_byte 0xBF) (str (to_byte 0xBD))).

(** The runes of a string in the order in which the loop of
    [appendQuotedWith] and a [range] loop decode them, each with its
    width and the bytes from its first byte on: a byte that starts no
    encoding gives [RuneError] and is one byte wide.  [skip] counts the
    bytes of the current encoding that are still to be passed over. *)
Fixpoint runes_from (skip : nat) (s : string) : list (Z * nat * string) :=
  match s with
  | EmptyString => []
  | String c s' =>
      match skip with
      | S n => runes_from n s'
      | O =>
          let '(r, width) :=
            if byte_val c <? RuneSelf then (byte_val c, 1%nat) else utf8_DecodeRuneInString s in
          (r, width, s) :: runes_from (width - 1) s'
      end
  end.

Definition runes (s : string) : list (Z * nat * string) := runes_from 0 s.

Fixpoint concat_str (l : list string) : string :=
  match l with
  | [] => EmptyString
  | x :: l => x +:+ concat_str l
  end.

(** *** strconv *)

Definition lowerhex (i : Z) : ascii :=
  default "0"%char (String.get (Z.to_nat i) "0123456789abcdef").

Section unicode.
Context `{!UnicodeTables}.

Definition strconv_IsPrint (r : Z) : bool :=
  if r <=? 0xFF then
    if (0x20 <=? r) && (r <=? 0x7E) then true
    else if (0xA1 <=? r) && (r <=? 0xFF) then negb (r =? 0xAD)
    else false
  else isPrintTable r.

(** [appendEscapedRune] as [strconv_Quote] uses it: [ASCIIonly] and
    [graphicOnly] are false. *)
Definition strconv_appendEscapedRune (r : Z) (quote : ascii) : string :=
  if (r =? byte_val quote) || (r =? byte_val BACKSLASH) then
    String BACKSLASH (str (to_byte r))
  else if strconv_IsPrint r then utf8_AppendRune r
  else if r =? 7 then "\a"
  else if r =? 8 then "\b"
  else if r =? 12 then "\f"
  else if r =? 10 then "\n"
  else if r =? 13 then "\r"
  else if r =? 9 then "\t"
  else if r =? 11 then "\v"
  else if (r <? 0x20) || (r =? 0x7F) then
    "\x" +:+ String (lowerhex (Z.shiftr (byte_val (to_byte r)) 4))
               (str (lowerhex (Z.land (byte_val (to_byte r)) 0xF)))
  else
    let r := if utf8_ValidRune r then r else 0xFFFD in
    if r <? 0x10000 then
      "\u" +:+ concat_str ((λ s, str (lowerhex (Z.land (Z.shiftr r s) 0xF))) <$> [12; 8; 4; 0])
    else
      "\U" +:+ concat_str ((λ s, str (lowerhex (Z.land (Z.shiftr r s) 0xF))) <$>
                             [28; 24; 20; 16; 12; 8; 4; 0]).

(** One turn of the loop of [appendQuotedWith]. *)
Definition strconv_quoteRune (quote : ascii) (x : Z * nat * string) : string :=
  let '(r, width, s) := x in
  if (width =? 1)%nat && (r =? RuneError) then
    let s0 := default 0 (at_index s 0) in
    "\x" +:+ String (lowerhex (Z.shiftr s0 4)) (str (lowerhex (Z.land s0 0xF)))
  else strconv_appendEscapedRune r quote.

Definition strconv_Quote (s : string) : string :=
  String DQUOTE (concat_str (strconv_quoteRune DQUOTE <$> runes s) +:+ str DQUOTE).

(** *** strings *)

Fixpoint strings_HasPrefix (s prefix : string) : bool :=
  match prefix, s with
  | EmptyString, _ => true
  | String p prefix, String c s => if decide (c = p) then strings_HasPrefix s prefix else false
  | String _ _, EmptyString => false
  end.

Fixpoint strings_Repeat (s : string) (count : nat) : string :=
  match count with
  | O => EmptyString
  | S n => s +:+ strings_Repeat s n
  end.

Fixpoint map_bytes (f : ascii → ascii) (s : string) : string :=
  match s with
  | EmptyString => EmptyString
  | String c s => String (f c) (map_bytes f s)
  end.

Fixpoint all_bytes (p : ascii → bool) (s : string) : bool :=
  match s with
  | EmptyString => true
  | String c s => p c && all_bytes p s
  end.

Definition unicode_ToUpper (r : Z) : Z :=
  if r <=? 0x7F then
    if (0x61 <=? r) && (r <=? 0x7A) then r - 0x20 else r
  else upperCaseTable r.

(** [strings.Map]: every rune of [s] is replaced by its image, a
    negative image dropping the rune. *)
Definition strings_Map (mapping : Z → Z) (s : string) : string :=
  concat_str ((λ x : Z * nat * string,
                 let r := mapping x.1.1 in
                 if 0 <=? r then utf8_AppendRune r else EmptyString) <$> runes s).

Definition upper_byte (c : ascii) : ascii :=
  if (0x61 <=? byte_val c) && (byte_val c <=? 0x7A) then to_byte (byte_val c - 0x20) else c.

Definition strings_ToUpper (s : string) : string :=
  let isASCII := all_bytes (λ c, byte_val c <? RuneSelf) s in
  let hasLower :=
    negb (all_bytes (λ c, negb ((0x61 <=? byte_val c) && (byte_val c <=? 0x7A))) s) in
  if isASCII then
    if hasLower then map_bytes upper_byte s else s
  else strings_Map unicode_ToUpper s.

(** *** quote *)

Definition quote (s : string) : string :=
  let s := strconv_Quote s in
  if strings_HasPrefix s (String DQUOTE "\u") then strings_ToUpper s else s.

End unicode.

(** *** The escapes of a string literal *)

(** What the specification asks of the quoting, one byte of ASCII at a
    time: a backslash before a double quote and before a backslash, the
    letter escapes of the control characters that have one, [\x] and two
    hexadecimal digits for the other control characters, and every other
    character as it is. *)
Definition c_escape (c : ascii) : string :=
  let b := byte_val c in
  if b =? 0x22 then String BACKSLASH (str DQUOTE)
  else if b =? 0x5C then String BACKSLASH (str BACKSLASH)
  else if b =? 0x07 then "\a"
  else if b =? 0x08 then "\b"
  else if b =? 0x0C then "\f"
  else if b =? 0x0A then "\n"
  else if b =? 0x0D then "\r"
  else if b =? 0x09 then "\t"
  else if b =? 0x0B then "\v"
  else if (b <? 0x20) || (b =? 0x7F) then
    "\x" +:+ String (lowerhex (b / 16)) (str (lowerhex (b mod 16)))
  else str c.

Definition is_ascii (c : ascii) : bool := byte_val c <? 0x80.

End go.

(** ** What the specification asks of quote *)

Section quote_spec.
Local Open Scope Z_scope.
Context `{!UnicodeTables}.

(** The hexadecimal digit of [r] of weight [16 ^ k]. *)
Definition hex_digit (r : Z) (k : Z) : string := str (lowerhex ((r / 16 ^ k) mod 16)).

(** The escape of one rune of the text, [x] being the rune with its
    width and the bytes from its first byte on.  A byte that starts no
    encoding is written [\x] and its two digits; a rune of ASCII is
    escaped as [c_escape] says; another rune is written as it is when
    it is printable, and otherwise [\u] and its four digits, or [\U]
    and its eight digits when four are too few. *)
Definition rune_escape (x : Z * nat * string) : string :=
  let '(r, width, tail) := x in
  if (width =? 1)%nat && (r =? RuneError) then
    let b := default 0 (byte_val <$> String.get 0 tail) in
    "\x" +:+ hex_digit b 1 +:+ hex_digit b 0
  else if r <? 0x80 then c_escape (to_byte r)
  else if strconv_IsPrint r then utf8_AppendRune r
  else if r <? 0x10000 then
    "\u" +:+ hex_digit r 3 +:+ hex_digit r 2 +:+ hex_digit r 1 +:+ hex_digit r 0
  else
    "\U" +:+ hex_digit r 7 +:+ hex_digit r 6 +:+ hex_digit r 5 +:+ hex_digit r 4 +:+
             hex_digit r 3 +:+ hex_digit r 2 +:+ hex_digit r 1 +:+ hex_digit r 0.

(** The texts whose escape opens with [\u]: the first rune is well
    encoded, is not in ASCII, is not printable and is below U+10000. *)
Definition opens_with_short_escape (s : string) : bool :=
  match runes s with
  | [] => false
  | (r, width, _) :: _ =>
      negb ((width =? 1)%nat && (r =? RuneError)) &&
      (0x80 <=? r) && negb (strconv_IsPrint r) && (r <? 0x10000)
  end.

(** The upper case of a byte of ASCII, by its value: the letters [a]
    to [z] are 0x61 to 0x7A, and [A] to [Z] are 0x20 below. *)
Definition ascii_upper_value (v : Z) : Z :=
  if (0x61 <=? v) && (v <=? 0x7A) then v - 0x20 else v.

(** The upper case of a rune: of a rune of ASCII by its value, of
    another rune by the table of Unicode. *)
Definition rune_upper (r : Z) : Z :=
  if r <? 0x80 then ascii_upper_value r else upperCaseTable r.

(** The values of the bytes of a text, and the runes of a text. *)
Definition byte_values (s : string) : list Z := byte_val <$> list_ascii_of_string s.

Definition rune_values (s : string) : list Z := (λ x : Z * nat * string, x.1.1) <$> runes s.

(** A byte that is no control character: not below the space, and not
    the byte 0x7F. *)
Definition no_control (c : ascii) : bool :=
  (0x20 <=? byte_val c) && negb (byte_val c =? 0x7F).

(** The hexadecimal digits with the letters in upper case. *)
Definition upperhex (i : Z) : ascii :=
  default "0"%char (String.get (Z.to_nat i) "0123456789ABCDEF").

(** The upper case of a byte, by its value. *)
Definition ascii_upper (c : ascii) : ascii := to_byte (ascii_upper_value (byte_val c)).

(** The letters of ASCII: [A] to [Z] and [a] to [z]. *)
Definition is_letter (c : ascii) : bool :=
  (0x41 <=? byte_val c) && (byte_val c <=? 0x5A) ||
  (0x61 <=? byte_val c) && (byte_val c <=? 0x7A).

End quote_spec.

(** ** The dictionary *)

(** A value stored in the dictionary: the [string] and the
    [map[string]interface{}] arms of the type switch of [format].
    [insert] stores no value of another type, and the maps it stores
    are not nil. *)
Inductive node :=
| Leaf (s : string)
| Interior (m : gmap string node).

Fixpoint height (n : node) : nat :=
  match n with
  | Leaf _ => 0
  | Interior m => S (map_fold (λ _ c acc, height c `max` acc) 0 m)
  end.

(** The node a path leads to, the root being the node of the empty
    path. *)
Fixpoint resolve_node (n : node) (path : list string) : option node :=
  match path with
  | [] => Some n
  | k :: rest =>
      match n with
      | Leaf _ => None
      | Interior m => m !! k ≫= λ c, resolve_node c rest
      end
  end.

Definition resolve (dict : gmap string node) (path : list string) : option node :=
  resolve_node (Interior dict) path.

(** ** insert *)

(** [insert(dst, val, path...)] on a dictionary that exists.  The map is
    updated in place in the source; here the updated map is returned.  A
    child map is reached through [dst[path[0]]] and shared with it, so
    that what the recursive call does to the child is seen in [dst].
    The test [dst == nil] is on the reference, and is in [Ref.insert]. *)
Fixpoint insert (dst : gmap string node) (val : string) (path : list string)
  : gmap string node :=
  match path with
  | [] => dst
  | k :: rest =>
      match rest with
      | [] => <[k := Leaf val]> dst
      | _ :: _ =>
          let '(child, dst) :=
            match dst !! k with
            | Some child => (child, dst)
            | None => (Interior ∅, <[k := Interior ∅]> dst)
            end in
          match child with
          | Interior m => <[k := Interior (insert m val rest)]> dst
          | Leaf _ => dst
          end
      end
  end.

(** Building a dictionary from a sequence of (path, value) pairs, as the
    loop of [buildDict] and the test do. *)
Definition insert_all (dst : gmap string node) (seq : list (list string * string))
  : gmap string node :=
  foldl (λ d pv, insert d pv.2 pv.1) dst seq.

(** ** insert on map references *)

(** A Go map variable holds a reference, possibly [nil], and [insert]
    receives a copy of that reference.  The dictionaries above are the
    maps themselves; this module has the references: a heap of maps, the
    values of a map being strings or references to maps.  It is where
    [dst == nil], [make] and the run-time panic of an assignment to an
    entry of a nil map can be told apart. *)
Module Ref.

Abbreviation loc := positive.

Inductive value :=
| VString (s : string)
| VMap (r : option loc).

Abbreviation heap := (gmap loc (gmap string value)).

(** [make(map[string]interface{})]: a new empty map at an address that
    is not in use. *)
Definition make (h : heap) : loc * heap :=
  let l := fresh (dom h) in (l, <[l := ∅]> h).

(** [v, ok := m[k]]; a nil map reads as an empty one. *)
Definition index (h : heap) (r : option loc) (k : string) : option value :=
  l ← r; m ← h !! l; m !! k.

(** [m[k] = v]; [None] is the panic that an assignment to an entry of
    a nil map raises. *)
Definition assign (h : heap) (r : option loc) (k : string) (v : value) : option heap :=
  l ← r; m ← h !! l; Some (<[l := <[k := v]> m]> h).

(** [insert(dst, val, path...)]: the heap when the call returns, [None]
    if it panics. *)
Fixpoint insert (h : heap) (dst : option loc) (val : string) (path : list string)
  : option heap :=
  match path with
  | [] => Some h
  | k :: rest =>
      let '(dst, h) :=
        match dst with
        | None => let '(l, h) := make h in (Some l, h)
        | Some _ => (dst, h)
        end in
      match rest with
      | [] => assign h dst k (VString val)
      | _ :: _ =>
          '(child, h) ←
            match index h dst k with
            | Some child => Some (child, h)
            | None =>
                let '(c, h) := make h in
                h ← assign h dst k (VMap (Some c)); Some (VMap (Some c), h)
            end;
          match child with
          | VMap dst => insert h dst val rest
          | VString _ => Some h
          end
      end
  end.

(** The value a path leads to from a value of the heap. *)
Fixpoint resolve (h : heap) (v : value) (path : list string) : option value :=
  match path with
  | [] => Some v
  | k :: rest =>
      match v with
      | VString _ => None
      | VMap r => index h r k ≫= λ c, resolve h c rest
      end
  end.

(** The heap [h] holds the node [n] as the value [v].  A leaf is held
    as its string.  A dictionary is held as a reference to a map of the
    heap that has the same keys, the value at each key holding the node
    at that key.  The maps form a tree: [fp] has the addresses of the
    maps the node is made of, all in use; the map of a dictionary is no
    part of the nodes below it, and the nodes at two keys have no map
    in common. *)
Inductive repr (h : heap) : value → node → gset loc → Prop :=
| repr_leaf s : repr h (VString s) (Leaf s) ∅
| repr_interior l m dict fp (fpk : string → gset loc) :
    h !! l = Some m →
    (∀ k, dict !! k = None → m !! k = None) →
    (∀ k n, dict !! k = Some n → ∃ v, m !! k = Some v ∧ repr h v n (fpk k)) →
    (∀ k1 k2, k1 ≠ k2 → is_Some (dict !! k1) → is_Some (dict !! k2) →
       fpk k1 ## fpk k2) →
    (∀ k, is_Some (dict !! k) → (l ∉ fpk k) ∧ (fpk k ⊆ fp)) →
    l ∈ fp →
    fp ⊆ dom h →
    repr h (VMap (Some l)) (Interior dict) fp.

(** The insertions of a sequence of pairs, one call after the other as
    in the loop of [buildDict]; [None] if one of them panics. *)
Fixpoint insert_all (h : heap) (dst : option loc)
    (seq : list (list string * string)) : option heap :=
  match seq with
  | [] => Some h
  | pv :: seq => h ← insert h dst pv.2 pv.1; insert_all h dst seq
  end.

End Ref.

(** ** format *)

(** The order in which [for k := range dict] visits the keys is not
    specified by the language and may change from one run to the next.
    A [range_order] is one such choice: some arrangement of the keys of
    every dictionary, each key once. *)
Record range_order := {
  range_keys : gmap string node → list string;
  range_keys_perm : ∀ dict, range_keys dict ≡ₚ (map_to_list dict).*1
}.

(** [sort.Strings]: the keys in increasing order of [<] on strings,
    which compares byte by byte. *)
Definition sort_Strings (keys : list string) : list string :=
  merge_sort String.le keys.

(** The format string of the leaf with its argument in place: an
    opening parenthesis, the tag between double quotes, a comma and a
    space, the argument, a closing parenthesis, a semicolon, a line
    feed. *)
Definition insertText (arg : string) : string :=
  "(" +:+ str DQUOTE +:+ "insertText:" +:+ str DQUOTE +:+ ", " +:+ arg +:+ ");" +:+ str LF.

Section format.
Context `{!UnicodeTables}.

(** The sink: [Write w p] is the sink after [w.Write(p)] and the error
    the call returned, [None] for [nil]. *)
Context {W E : Type}.
Variable Write : W → string → W * option E.
Variable order : range_order.

(** A piece of [format]: from the sink before to the sink after and
    the error to return, if there is one. *)
Definition action : Type := W → W * option E.

Definition done_ok : action := λ w, (w, None).

(** [a] and then, unless [a] gave an error that is returned at once,
    [b]: the [if err != nil { return err }] after each call. *)
Definition and_then (a b : action) : action :=
  λ w, match a w with
       | (w', None) => b w'
       | (w', Some err) => (w', Some err)
       end.

(** [fmt.Fprint], [Fprintf] and [Fprintln] with the text they have
    formatted: one call of [Write]. *)
Definition Fprint (text : string) : action := λ w, Write w text.

Fixpoint for_range (body : string → action) (keys : list string) : action :=
  match keys with
  | [] => done_ok
  | k :: keys => and_then (body k) (for_range body keys)
  end.

(** The body of [format], the recursive call on the value at [k]
    being [recur k].  [depth] counts the levels of nesting from 0, the
    depth that [main] passes. *)
Definition format_body (recur : string → nat → action)
    (dict : gmap string node) (depth : nat) : action :=
  and_then (Fprint ("{" +:+ str LF)) (
  let keys := sort_Strings (range_keys order dict) in
  and_then (for_range (λ k,
    and_then (Fprint (strings_Repeat (str TAB) (depth + 1) +:+ quote k +:+ " = ")) (
    match dict !! k with
    | Some (Leaf val) =>
        Fprint (insertText (quote val))
    | Some (Interior _) => recur k (depth + 1)
    | None => done_ok
    end)) keys) (
  and_then (Fprint (strings_Repeat (str TAB) depth +:+ "}")) (
  and_then (if decide (depth ≠ 0) then Fprint ";" else done_ok) (
  Fprint (str LF))))).

(** [format] on the dictionary of a node.  The recursive calls are
    taken on the values of the map, which makes the recursion
    structural; the one for [k] runs when the loop reaches [k]. *)
Fixpoint format_node (n : node) : nat → action :=
  match n with
  | Leaf _ => λ _, done_ok
  | Interior dict =>
      let calls := format_node <$> dict in
      format_body (λ k, default (λ _, done_ok) (calls !! k)) dict
  end.

Definition format (dict : gmap string node) (depth : nat) : action :=
  format_node (Interior dict) depth.

(** Running a sequence of writes up to the first that fails. *)
Fixpoint write_all (texts : list string) : action :=
  match texts with
  | [] => done_ok
  | text :: texts => and_then (Fprint text) (write_all texts)
  end.

End format.

(** [strings.Builder], the sink of the test: the text written so far;
    its [Write] appends and returns no error. *)
Definition Builder_Write (buf : string) (p : string) : string * option Empty_set :=
  (buf +:+ p, None).

(** A sink that records the calls of [Write] it receives. *)
Definition Log_Write (log : list string) (p : string) : list string * option Empty_set :=
  (log ++ [p], None).

(** The order of the keys in which stdpp lists a map: one [range_order]. *)
Definition map_order : range_order :=
  {| range_keys := λ dict, (map_to_list dict).*1;
     range_keys_perm := λ dict, reflexivity _ |}.

(** The calls of [Write] that [format] makes when none fails, in the
    order it makes them, and the text that a [strings.Builder] has
    received when [format] returns. *)
Definition format_writes `{!UnicodeTables} (order : range_order)
    (dict : gmap string node) (depth : nat) : list string :=
  (format Log_Write order dict depth []).1.

Definition format_output `{!UnicodeTables} (order : range_order)
    (dict : gmap string node) (depth : nat) : string :=
  (format Builder_Write order dict depth EmptyString).1.

(** The writes of one call of [format] that no write stops: the opening
    line, for every key in turn the indented key and what the value at
    the key gives rise to, and the closing line in two or three
    pieces. *)
Definition level_writes `{!UnicodeTables} (keys : list string)
    (value_writes : string → list string) (depth : nat) : list string :=
  ("{" +:+ str LF) ::
  (keys ≫= λ k,
     (strings_Repeat (str TAB) (depth + 1) +:+ quote k +:+ " = ") :: value_writes k) ++
  [strings_Repeat (str TAB) depth +:+ "}"] ++
  (if decide (depth ≠ 0) then [";"] else []) ++
  [str LF].

(** An action that can be run on every sink, and the calls of [Write] it
    is made of: on every sink it runs as these calls in this order, up
    to the first that fails. *)
Definition has_script
    (a : ∀ W E : Type, (W → string → W * option E) → W → W * option E)
    (texts : list string) : Prop :=
  ∀ (W E : Type) (Write : W → string → W * option E) (w : W),
    a W E Write w = write_all Write texts w.

(** Every write of a sequence succeeds, from the sink [w] on. *)
Fixpoint writes_succeed {W E : Type} (Write : W → string → W * option E)
    (texts : list string) (w : W) : Prop :=
  match texts with
  | [] => True
  | text :: texts =>
      match Write w text with
      | (w', None) => writes_succeed Write texts w'
      | (_, Some _) => False
      end
  end.

(** The keys of a dictionary in increasing order. *)
Definition sorted_keys (dict : gmap string node) : list string :=
  sort_Strings (map_to_list dict).*1.

(** ** Dictionaries with a value under every key *)

(** A node under which no dictionary is empty: at the end of every
    path that can be followed there is a value. *)
Inductive populated : node → Prop :=
| populated_leaf s : populated (Leaf s)
| populated_interior m :
    m ≠ ∅ → (∀ k c, m !! k = Some c → populated c) → populated (Interior m).

(** ** The text of a dictionary of one path *)


(** ** keyFor *)

Section key_names.
Local Open Scope Z_scope.

(** *** strings *)

Definition strings_HasSuffix (s suffix : string) : bool :=
  (String.length suffix <=? String.length s)%nat &&
  String.eqb
    (String.substring (String.length s - String.length suffix) (String.length suffix) s)
    suffix.

Definition strings_TrimPrefix (s prefix : string) : string :=
  if strings_HasPrefix s prefix
  then String.substring (String.length prefix) (String.length s - String.length prefix) s
  else s.

Definition strings_TrimSuffix (s suffix : string) : string :=
  if strings_HasSuffix s suffix
  then String.substring 0 (String.length s - String.length suffix) s
  else s.

(** *** strconv.ParseInt *)

(** The two causes of a [*strconv.NumError], and the errors that
    [keyFor] returns: the [*NumError] of [strconv.ParseInt], with the
    name of the function and the text it was given, and the error that
    [fmt.Errorf] makes of a message. *)
Inductive strconv_error := ErrSyntax | ErrRange.

Inductive error :=
| NumError (Func Num : string) (Err : strconv_error)
| Errorf (msg : string).

(** [lower(c)]: [c | ('x' - 'X')]. *)
Definition strconv_lower (c : Z) : Z := Z.lor c 0x20.

(** The value of the digit [c], in a base up to 36. *)
Definition digit (c : Z) : option Z :=
  if (0x30 <=? c) && (c <=? 0x39) then Some (c - 0x30)
  else if (0x61 <=? strconv_lower c) && (strconv_lower c <=? 0x7A)
       then Some (strconv_lower c - 0x61 + 10)
  else None.

(** The loop of [strconv.ParseUint] over the bytes of [s], [n] being
    the [uint64] read so far; the base is between 2 and 36, so that an
    underscore is no digit. *)
Fixpoint ParseUint_loop (base maxVal cutoff : Z) (s : string) (n : Z)
  : Z * option strconv_error :=
  match s with
  | EmptyString => (n, None)
  | String c s =>
      match digit (byte_val c) with
      | None => (0, Some ErrSyntax)
      | Some d =>
          if base <=? d then (0, Some ErrSyntax)
          else if cutoff <=? n then (maxVal, Some ErrRange)
          else
            let n := (n * base) mod 2 ^ 64 in
            let n1 := (n + d) mod 2 ^ 64 in
            if (n1 <? n) || (maxVal <? n1) then (maxVal, Some ErrRange)
            else ParseUint_loop base maxVal cutoff s n1
      end
  end.

(** [strconv.ParseUint(s, base, bitSize)] for a base between 2 and 36
    and a size between 1 and 64. *)
Definition strconv_ParseUint (s : string) (base bitSize : Z) : Z * option strconv_error :=
  match s with
  | EmptyString => (0, Some ErrSyntax)
  | String _ _ =>
      let cutoff := (2 ^ 64 - 1) / base + 1 in
      let maxVal := 2 ^ bitSize - 1 in
      ParseUint_loop base maxVal cutoff s 0
  end.

(** [strconv.ParseInt(s, base, bitSize)], for the same bases and
    sizes. *)
Definition strconv_ParseInt (s : string) (base bitSize : Z) : Z * option error :=
  match s with
  | EmptyString => (0, Some (NumError "ParseInt" s ErrSyntax))
  | String c rest =>
      let neg := bool_decide (c = "-"%char) in
      let digits := if bool_decide (c = "+"%char) || neg then rest else s in
      let '(un, err) := strconv_ParseUint digits base bitSize in
      match err with
      | Some ErrSyntax => (0, Some (NumError "ParseInt" s ErrSyntax))
      | _ =>
          let cutoff := 2 ^ (bitSize - 1) in
          if negb neg && (cutoff <=? un) then (cutoff - 1, Some (NumError "ParseInt" s ErrRange))
          else if neg && (cutoff <? un) then (- cutoff, Some (NumError "ParseInt" s ErrRange))
          else (if neg then - un else un, None)
      end
  end.

(** The conversions [rune(x)] of an [int64] and [string(r)] of a
    rune: the low 32 bits as a signed number, and the encoding of the
    rune, which is the one of U+FFFD when [r] is no code point. *)
Definition rune_of_int64 (x : Z) : Z := (x + 2 ^ 31) mod 2 ^ 32 - 2 ^ 31.

Definition string_of_rune (r : Z) : string := utf8_AppendRune r.

(** *** Names of code points *)

(** A hexadecimal digit in either case, and the number that a text of
    such digits writes, [n] being the number of the digits before. *)
Definition is_hex (c : ascii) : bool :=
  default false ((λ d, d <? 16) <$> digit (byte_val c)).

Fixpoint hex_value (s : string) (n : Z) : Z :=
  match s with
  | EmptyString => n
  | String c s => hex_value s (16 * n + default 0 (digit (byte_val c)))
  end.

(** *** keyFor *)

(** The table [keysymdef] of key names, a [map[string]rune] that is
    generated from the X11 header of the key symbols. *)
Variable keysymdef : gmap string Z.

Definition keyFor (name : string) (user : gmap string Z) : string + error :=
  if strings_HasPrefix name "<U" then
    match strconv_ParseInt (strings_TrimSuffix (strings_TrimPrefix name "<U") ">") 16 32 with
    | (_, Some err) => inr err
    | (utf, None) => inl (string_of_rune (rune_of_int64 utf))
    end
  else
    match keysymdef !! name with
    | Some val => inl (string_of_rune val)
    | None =>
        match user !! name with
        | Some val => inl (string_of_rune val)
        | None => inr (Errorf ("no value for " +:+ name))
        end
    end.

End key_names.

(** ** buildDict *)

(** How a call ends: it returns, or the process exits in [log.Fatalf]
    with a message, or it panics. *)
Inductive outcome (A : Type) :=
| Returns (a : A)
| Fatal (msg : string)
| Panics (msg : string).
Arguments Returns {A} a.
Arguments Fatal {A} msg.
Arguments Panics {A} msg.

Section lines.
Local Open Scope Z_scope.

(** *** strings.FieldsFunc and strings.Fields *)

(** The loop of [strings.FieldsFunc] over the runes of the text:
    [field] is the field that is open, if one is, made of the bytes of
    the runes since it began. *)
Fixpoint FieldsFunc_loop (f : Z → bool) (rs : list (Z * nat * string))
    (field : option string) : list string :=
  match rs with
  | [] => match field with Some a => [a] | None => [] end
  | (r, width, s) :: rs =>
      if f r then
        match field with
        | Some a => a :: FieldsFunc_loop f rs None
        | None => FieldsFunc_loop f rs None
        end
      else
        FieldsFunc_loop f rs
          (Some (default EmptyString field +:+ String.substring 0 width s))
  end.

Definition strings_FieldsFunc (f : Z → bool) (s : string) : list string :=
  FieldsFunc_loop f (runes s) None.

(** The field that is open, once the bytes [pending] have been added
    to it. *)
Definition extend (field : option string) (pending : string) : option string :=
  match pending with
  | EmptyString => field
  | String _ _ => Some (default EmptyString field +:+ pending)
  end.

(** [unicode.White_Space] above Latin-1, a table of the library. *)
Variable White_Space : Z → bool.

Definition unicode_IsSpace (r : Z) : bool :=
  if r mod 2 ^ 32 <=? 0xFF then
    (r =? 0x09) || (r =? 0x0A) || (r =? 0x0B) || (r =? 0x0C) || (r =? 0x0D) ||
    (r =? 0x20) || (r =? 0x85) || (r =? 0xA0)
  else White_Space r.

(** [strings.Fields] splits a text that is all ASCII byte by byte,
    around the six characters of [asciiSpace]. *)
Definition asciiSpace (c : ascii) : bool :=
  bool_decide (c ∈ [TAB; LF; "011"%char; "012"%char; "013"%char; " "%char]).

(** The fields of a text that [space] splits byte by byte. *)
Fixpoint Fields_loop (space : ascii → bool) (s : string) (field : option string)
  : list string :=
  match s with
  | EmptyString => match field with Some a => [a] | None => [] end
  | String c s =>
      if space c then
        match field with
        | Some a => a :: Fields_loop space s None
        | None => Fields_loop space s None
        end
      else Fields_loop space s (Some (default EmptyString field +:+ str c))
  end.

Definition strings_Fields (s : string) : list string :=
  if all_bytes (λ c, byte_val c <? RuneSelf) s then Fields_loop asciiSpace s None
  else strings_FieldsFunc unicode_IsSpace s.

(** *** The loop of buildDict *)

(** [strconv.Unquote], of which [buildDict] uses the text it returns
    or that it fails; its error is always [ErrSyntax]. *)
Variable strconv_Unquote : string → option string.

Variable keysymdef : gmap string Z.

(** The first loop over [path]: every name that [keyFor] knows is
    replaced by its key, the others stay. *)
Definition resolve_keys (user : gmap string Z) (path : list string) : list string :=
  (λ p, match keyFor keysymdef p user with
        | inl k => k
        | inr _ => p
        end) <$> path.

(** The test of the second loop: a name between angle brackets. *)
Definition is_key_name (p : string) : bool :=
  strings_HasPrefix p "<" && strings_HasSuffix p ">".

(** The two function literals that split a line: at its colons, and
    at the spaces and tabs of its second part. *)
Definition colon (r : Z) : bool := r =? 0x3A.
Definition space_or_tab (r : Z) : bool := (r =? 0x20) || (r =? 0x09).

(** The body of the loop over the lines up to the call of [insert], on
    the line [text] that the scanner has read: the path and the value
    of the call, or nothing when the loop goes on to the next line. *)
Definition line_entry (user : gmap string Z) (text : string)
  : outcome (option (list string * string)) :=
  if negb (strings_HasPrefix text "<") then Returns None
  else
    match strings_FieldsFunc colon text with
    | part0 :: part1 :: _ =>
        let path := resolve_keys user (strings_Fields part0) in
        match strings_FieldsFunc space_or_tab part1 with
        | [] => Panics "index out of range [0] with length 0"
        | quoted :: _ =>
            match strconv_Unquote quoted with
            | None =>
                Fatal ("failed to unquote value " +:+ text +:+ ": invalid syntax")
            | Some val =>
                if existsb is_key_name path then Returns None
                else Returns (Some (path, val))
            end
        end
    | _ => Fatal ("unexpected number of parts: " +:+ text)
    end.

(** One turn of the loop, [mapping] being the map built so far. *)
Definition buildDict_line (user : gmap string Z) (mapping : gmap string node)
    (text : string) : outcome (gmap string node) :=
  match line_entry user text with
  | Returns None => Returns mapping
  | Returns (Some (path, val)) => Returns (insert mapping val path)
  | Fatal msg => Fatal msg
  | Panics msg => Panics msg
  end.

(** The loop over the lines that the scanner reads, in their order. *)
Fixpoint buildDict_loop (user : gmap string Z) (mapping : gmap string node)
    (lines : list string) : outcome (gmap string node) :=
  match lines with
  | [] => Returns mapping
  | text :: lines =>
      match buildDict_line user mapping text with
      | Returns mapping => buildDict_loop user mapping lines
      | Fatal msg => Fatal msg
      | Panics msg => Panics msg
      end
  end.

(** [buildDict(user, src)], [lines] being the lines of [src] as
    [bufio.Scanner] splits them. *)
Definition buildDict (user : gmap string Z) (lines : list string)
  : outcome (gmap string node) :=
  buildDict_loop user ∅ lines.

(** The paths and values of the lines that have one, in the order of
    the lines. *)
Definition entries (user : gmap string Z) (lines : list string)
  : list (list string * string) :=
  omap (λ text, match line_entry user text with
                | Returns entry => entry
                | _ => None
                end) lines.

End lines.

(** ** Values for the examples *)

(** Tables that hold no rune printable and no rune changed by
    [unicode.ToUpper].  The table of [strconv.IsPrint] is looked at
    above Latin-1 only, the table of [unicode.ToUpper] above ASCII:
    with these tables the letters of Latin-1 keep their case. *)
Definition no_tables : UnicodeTables :=
  {| isPrintTable := λ _, false; upperCaseTable := λ r, r |}.

(** Tables that hold no rune printable above Latin-1, and in which the
    upper case of the letters U+00E0 to U+00FE of Latin-1, the division
    sign U+00F7 apart, is 0x20 below, as in Unicode. *)
Definition example_tables : UnicodeTables :=
  {| isPrintTable := λ _, false;
     upperCaseTable := λ r,
       (if (0xE0 <=? r) && (r <=? 0xFE) && negb (r =? 0xF7) then r - 0x20 else r)%Z |}.

(** A sink that counts the calls of [Write] and fails from the third
    call on. *)
Definition Failing_Write (calls : nat) (p : string) : nat * option string :=
  (S calls, if decide (calls < 2) then None else Some "short write").

(** A table of key names, a table of the user and the lines of a
    source for the examples.  The table of key names holds a name that
    opens with [<U]; the user binds the compose key to [@]. *)
Definition example_keysymdef : gmap string Z :=
  {[ "<a>" := 0x61%Z; "<e>" := 0x65%Z; "<Up>" := 0xFF52%Z ]}.

Definition example_user : gmap string Z := {[ "<Multi_key>" := 0x40%Z ]}.

(** The unquoting of the examples: the text between two double quotes.
    It is what [strconv.Unquote] returns for the texts of the examples,
    in which there is no backslash. *)
Definition example_Unquote (s : string) : option string :=
  if strings_HasPrefix s (str DQUOTE) && strings_HasSuffix s (str DQUOTE) &&
     (2 <=? String.length s)%nat
  then Some (String.substring 1 (String.length s - 2) s)
  else None.

Definition example_lines : list string :=
  [ "# the letters";
    "<Multi_key> <a> <e> : " +:+ str DQUOTE +:+ "x" +:+ str DQUOTE +:+ " ae";
    EmptyString;
    "<Multi_key> <zz> : " +:+ str DQUOTE +:+ "y" +:+ str DQUOTE ].

(** * Properties *)

(** ** The dictionary type *)

Lemma height_lookup (m : gmap string node) k c :
  m !! k = Some c → height c < height (Interior m).
Proof.
  simpl. intros Hk. apply Nat.lt_succ_r. revert Hk.
  induction m as [|k' c' m Hk' Hfold IHm] using map_first_key_ind.
  - by rewrite lookup_empty.
  - rewrite map_fold_insert_first_key by done.
    destruct (decide (k = k')) as [->|Hne].
    + rewrite lookup_insert_eq. intros [= ->]. lia.
    + rewrite lookup_insert_ne by done. intros Hk. specialize (IHm Hk). lia.
Qed.

(** Induction on nodes, with the hypothesis for every value of a map. *)
Lemma node_ind' (P : node → Prop) :
  (∀ s, P (Leaf s)) →
  (∀ m, map_Forall (λ _, P) m → P (Interior m)) →
  ∀ n, P n.
Proof.
  intros Hl Hi.
  assert (∀ h n, height n < h → P n) as H.
  { induction h as [|h IH]; intros n Hn; [lia|].
    destruct n as [s|m]; [apply Hl|]. apply Hi.
    intros k c Hk. apply IH. apply height_lookup in Hk. lia. }
  intros n. apply (H (S (height n))). lia.
Qed.

(** ** insert *)

Lemma insert_nil dst val : insert dst val [] = dst.
Proof. reflexivity. Qed.

Lemma insert_singleton dst val k : insert dst val [k] = <[k := Leaf val]> dst.
Proof. reflexivity. Qed.

Lemma insert_cons_absent dst val k k' rest :
  dst !! k = None →
  insert dst val (k :: k' :: rest) = <[k := Interior (insert ∅ val (k' :: rest))]> dst.
Proof. intros H. simpl. rewrite H. by rewrite insert_insert_eq. Qed.

Lemma insert_cons_interior dst val k k' rest m :
  dst !! k = Some (Interior m) →
  insert dst val (k :: k' :: rest) = <[k := Interior (insert m val (k' :: rest))]> dst.
Proof. intros H. simpl. by rewrite H. Qed.

Lemma insert_cons_leaf dst val k k' rest s :
  dst !! k = Some (Leaf s) →
  insert dst val (k :: k' :: rest) = dst.
Proof. intros H. simpl. by rewrite H. Qed.

(** A path of two segments or more, by cases on what [dst] holds at
    the first segment. *)
Lemma insert_cons_cases dst val k k' rest :
  insert dst val (k :: k' :: rest) =
    match dst !! k with
    | None => <[k := Interior (insert ∅ val (k' :: rest))]> dst
    | Some (Interior m) => <[k := Interior (insert m val (k' :: rest))]> dst
    | Some (Leaf _) => dst
    end.
Proof.
  destruct (dst !! k) as [[s|m]|] eqn:Hk.
  - by eapply insert_cons_leaf.
  - by apply insert_cons_interior.
  - by apply insert_cons_absent.
Qed.

Lemma resolve_cons dict k rest :
  resolve dict (k :: rest) = dict !! k ≫= λ c, resolve_node c rest.
Proof. reflexivity. Qed.

Lemma resolve_node_leaf s path n :
  resolve_node (Leaf s) path = Some n → path = [] ∧ n = Leaf s.
Proof. destruct path; simpl; [by intros [= <-]|done]. Qed.

(** C9: with an empty path [insert] returns at once: the dictionary is
    the one it was given.  On map references the call returns, whatever
    the reference, nil included, and the heap is the one it was
    given. *)
Theorem insert_empty_path_noop (dst : gmap string node) (val : string) :
  insert dst val [] = dst ∧
  (∀ path, resolve (insert dst val []) path = resolve dst path) ∧
  (∀ (h : Ref.heap) (r : option Ref.loc), Ref.insert h r val [] = Some h).
Proof. split; [apply insert_nil|]. split; [intros path; by rewrite insert_nil|done]. Qed.

(** C3: a path of one segment stores the value as a leaf at that
    segment whatever was there, the other keys keep what they had, and a
    second insertion at the same path replaces the first. *)
Theorem insert_length_one_overwrites (dst : gmap string node) (k : string) :
  (∀ val, insert dst val [k] !! k = Some (Leaf val)) ∧
  (∀ val k', k' ≠ k → insert dst val [k] !! k' = dst !! k') ∧
  (∀ v1 v2, resolve (insert (insert dst v1 [k]) v2 [k]) [k] = Some (Leaf v2)) ∧
  (∀ v1 v2, insert (insert dst v1 [k]) v2 [k] = insert dst v2 [k]).
Proof.
  repeat split.
  - intros val. rewrite insert_singleton. apply lookup_insert_eq.
  - intros val k' Hne. rewrite insert_singleton. by apply lookup_insert_ne.
  - intros v1 v2. rewrite resolve_cons, !insert_singleton, lookup_insert_eq. done.
  - intros v1 v2. rewrite !insert_singleton. apply insert_insert_eq.
Qed.

(** C2: when a proper prefix [p1] of the path leads to a leaf, the
    insertion leaves the dictionary as it is. *)
Theorem insert_below_leaf_noop (dst : gmap string node) (val : string)
    (p1 p2 : list string) (s : string) :
  p2 ≠ [] →
  resolve dst p1 = Some (Leaf s) →
  insert dst val (p1 ++ p2) = dst ∧ resolve (insert dst val (p1 ++ p2)) p1 = Some (Leaf s).
Proof.
  intros Hp2 Hres.
  assert (insert dst val (p1 ++ p2) = dst) as Heq; [|by rewrite Heq].
  revert dst Hres. induction p1 as [|k p1 IH]; intros dst Hres; [done|].
  rewrite resolve_cons in Hres.
  destruct (dst !! k) as [c|] eqn:Hk; [|done]. simpl in Hres.
  destruct c as [s'|m].
  - apply resolve_node_leaf in Hres as [-> _]. simpl app.
    destruct p2 as [|k' rest]; [done|]. by eapply insert_cons_leaf.
  - destruct p1 as [|k1 p1]; [done|].
    change ((k :: k1 :: p1) ++ p2) with (k :: k1 :: (p1 ++ p2)).
    erewrite insert_cons_interior by done.
    change (k1 :: (p1 ++ p2)) with ((k1 :: p1) ++ p2).
    rewrite (IH m) by done. by apply insert_id.
Qed.

(** C8: inserting the same pair a second time changes nothing. *)
Theorem insert_idempotent (dst : gmap string node) (val : string) (path : list string) :
  insert (insert dst val path) val path = insert dst val path.
Proof.
  revert dst. induction path as [|k rest IH]; intros dst; [done|].
  destruct rest as [|k' rest].
  { rewrite !insert_singleton. apply insert_insert_eq. }
  rewrite (insert_cons_cases dst).
  destruct (dst !! k) as [[s|m]|] eqn:Hk.
  - by erewrite insert_cons_leaf.
  - erewrite insert_cons_interior by apply lookup_insert_eq.
    by rewrite IH, insert_insert_eq.
  - erewrite insert_cons_interior by apply lookup_insert_eq.
    by rewrite IH, insert_insert_eq.
Qed.

(** Where the first insertion has put its value, the second puts its
    own: the last write wins. *)
Lemma insert_last_write_wins (dst : gmap string node) (v1 v2 : string) (path : list string) :
  resolve (insert dst v1 path) path = Some (Leaf v1) →
  resolve (insert (insert dst v1 path) v2 path) path = Some (Leaf v2).
Proof.
  revert dst. induction path as [|k rest IH]; intros dst; [done|].
  destruct rest as [|k' rest].
  { intros _. by rewrite resolve_cons, !insert_singleton, lookup_insert_eq. }
  rewrite (insert_cons_cases dst).
  destruct (dst !! k) as [[s|m]|] eqn:Hk.
  - rewrite resolve_cons, Hk. done.
  - rewrite resolve_cons, lookup_insert_eq. cbn [mbind option_bind]. intros Hres.
    erewrite insert_cons_interior by apply lookup_insert_eq.
    rewrite resolve_cons, lookup_insert_eq. cbn [mbind option_bind].
    by apply (IH m).
  - rewrite resolve_cons, lookup_insert_eq. cbn [mbind option_bind]. intros Hres.
    erewrite insert_cons_interior by apply lookup_insert_eq.
    rewrite resolve_cons, lookup_insert_eq. cbn [mbind option_bind].
    by apply (IH ∅).
Qed.

(** In the empty dictionary every insertion at a path that is not empty
    puts its value at the path. *)
Lemma insert_empty_resolve (val : string) (k : string) (rest : list string) :
  resolve (insert ∅ val (k :: rest)) (k :: rest) = Some (Leaf val).
Proof.
  revert k. induction rest as [|k' rest IH]; intros k.
  - by rewrite resolve_cons, insert_singleton, lookup_insert_eq.
  - rewrite insert_cons_absent by apply lookup_empty.
    rewrite resolve_cons, lookup_insert_eq. apply IH.
Qed.

(** *** The order of the insertions *)

(** What an insertion does to the dictionary is decided by the first
    segment of the path: no other key is read or written. *)
Lemma insert_lookup_ne dst val k rest k' :
  k' ≠ k → insert dst val (k :: rest) !! k' = dst !! k'.
Proof.
  intros Hne. destruct rest as [|k1 rest].
  - rewrite insert_singleton. by apply lookup_insert_ne.
  - rewrite insert_cons_cases. destruct (dst !! k) as [[s|m]|]; [done|..];
      by apply lookup_insert_ne.
Qed.

(** The value that an insertion leaves at the first segment depends on
    what was there and on nothing else. *)
Lemma insert_lookup_eq dst dst' val k rest :
  dst !! k = dst' !! k →
  insert dst val (k :: rest) !! k = insert dst' val (k :: rest) !! k.
Proof.
  intros Heq. destruct rest as [|k1 rest].
  - by rewrite !insert_singleton, !lookup_insert_eq.
  - rewrite !insert_cons_cases, <- Heq. destruct (dst !! k) as [[s|m]|] eqn:Hk.
    + by rewrite Hk.
    + by rewrite !lookup_insert_eq.
    + by rewrite !lookup_insert_eq.
Qed.

(** Insertions at two different paths can be made in either order. *)
Lemma insert_comm v1 v2 p1 : ∀ p2 dst,
  p1 ≠ p2 →
  insert (insert dst v1 p1) v2 p2 = insert (insert dst v2 p2) v1 p1.
Proof.
  induction p1 as [|k1 r1 IH]; intros p2 dst Hne; [done|].
  destruct p2 as [|k2 r2]; [done|].
  destruct (decide (k1 = k2)) as [<-|Hk].
  - (* the same first segment *)
    assert (r1 ≠ r2) as Hr by congruence.
    destruct r1 as [|k1' r1], r2 as [|k2' r2]; [done|..].
    + rewrite (insert_singleton dst). erewrite insert_cons_leaf by apply lookup_insert_eq.
      rewrite insert_cons_cases, insert_singleton.
      destruct (dst !! k1) as [[s|m]|]; [done|..]; by rewrite insert_insert_eq.
    + rewrite (insert_singleton dst).
      erewrite (insert_cons_leaf (<[k1:=Leaf v2]> dst)) by apply lookup_insert_eq.
      rewrite insert_cons_cases, insert_singleton.
      destruct (dst !! k1) as [[s|m]|]; [done|..]; by rewrite insert_insert_eq.
    + rewrite (insert_cons_cases dst v1), (insert_cons_cases dst v2).
      destruct (dst !! k1) as [[s|m]|] eqn:Hk1.
      * by erewrite !insert_cons_leaf.
      * erewrite !insert_cons_interior by apply lookup_insert_eq.
        by rewrite !insert_insert_eq, IH.
      * erewrite !insert_cons_interior by apply lookup_insert_eq.
        by rewrite !insert_insert_eq, IH.
  - (* two first segments *)
    apply map_eq. intros k.
    destruct (decide (k = k1)) as [->|Hk1]; [|destruct (decide (k = k2)) as [->|Hk2]].
    + rewrite insert_lookup_ne by done.
      apply insert_lookup_eq. by rewrite insert_lookup_ne.
    + rewrite (insert_lookup_ne _ v1) by done.
      apply insert_lookup_eq. by rewrite insert_lookup_ne by done.
    + by rewrite !insert_lookup_ne.
Qed.

(** When no path comes twice, the dictionary that a sequence of
    insertions builds is the same in whatever order they are made. *)
Lemma insert_all_Permutation (seq1 seq2 : list (list string * string)) :
  seq1 ≡ₚ seq2 → NoDup seq1.*1 → ∀ dst, insert_all dst seq1 = insert_all dst seq2.
Proof.
  induction 1 as [|[p v] l1 l2 Hp IH|[p1 v1] [p2 v2] l|l1 l2 l3 H12 IH12 H23 IH23];
    intros Hnd dst.
  - done.
  - apply NoDup_cons in Hnd as [_ Hnd]. cbn. by apply IH.
  - cbn. cbn in Hnd. apply NoDup_cons in Hnd as [Hne _].
    rewrite (insert_comm v1 v2 p1 p2); [done|]. intros ->. apply Hne. left.
  - rewrite IH12 by done. apply IH23. by rewrite <- H12.
Qed.

(** ** insert on map references *)

Lemma Ref_make_fresh (h : Ref.heap) : h !! (Ref.make h).1 = None.
Proof. simpl. apply not_elem_of_dom, is_fresh. Qed.

Lemma Ref_index_Some (h : Ref.heap) l m k :
  h !! l = Some m → Ref.index h (Some l) k = m !! k.
Proof. intros H. unfold Ref.index. simpl. by rewrite H. Qed.

Lemma Ref_assign_Some (h : Ref.heap) l m k v :
  h !! l = Some m → Ref.assign h (Some l) k v = Some (<[l := <[k := v]> m]> h).
Proof. intros H. unfold Ref.assign. simpl. by rewrite H. Qed.

Lemma Ref_insert_one h l val k :
  Ref.insert h (Some l) val [k] = Ref.assign h (Some l) k (Ref.VString val).
Proof. reflexivity. Qed.

Lemma Ref_insert_more h l val k k' rest :
  Ref.insert h (Some l) val (k :: k' :: rest) =
    '(child, h) ←
      match Ref.index h (Some l) k with
      | Some child => Some (child, h)
      | None =>
          let '(c, h) := Ref.make h in
          h ← Ref.assign h (Some l) k (Ref.VMap (Some c)); Some (Ref.VMap (Some c), h)
      end;
    match child with
    | Ref.VMap dst => Ref.insert h dst val (k' :: rest)
    | Ref.VString _ => Some h
    end.
Proof. reflexivity. Qed.

(** With a nil [dst] and a path that is not empty, the call goes on
    with the map it has just made. *)
Lemma Ref_insert_nil h val k rest :
  Ref.insert h None val (k :: rest) =
    Ref.insert (Ref.make h).2 (Some (Ref.make h).1) val (k :: rest).
Proof. reflexivity. Qed.

(** Inserting into an empty map changes no other map of the heap. *)
Lemma Ref_insert_into_empty val path : ∀ (h : Ref.heap) (c : Ref.loc),
  h !! c = Some ∅ →
  ∃ h', Ref.insert h (Some c) val path = Some h' ∧
        ∀ l, l ≠ c → is_Some (h !! l) → h' !! l = h !! l.
Proof.
  induction path as [|k rest IH]; intros h c Hc; [by exists h|].
  destruct rest as [|k' rest].
  { rewrite Ref_insert_one, (Ref_assign_Some _ _ _ _ _ Hc). eexists; split; [done|].
    intros l Hl _. by rewrite lookup_insert_ne. }
  pose proof (Ref_make_fresh h) as Hfresh.
  rewrite Ref_insert_more, (Ref_index_Some _ _ _ _ Hc), lookup_empty.
  unfold Ref.make in *. cbn [fst] in Hfresh. set (c' := fresh (dom h)) in *.
  assert (c' ≠ c) as Hne by (intros ->; congruence).
  cbn [mbind option_bind].
  rewrite (Ref_assign_Some _ c ∅) by (by rewrite lookup_insert_ne).
  cbn [mbind option_bind].
  edestruct (IH (<[c:=<[k:=Ref.VMap (Some c')]> ∅]> (<[c':=∅]> h)) c') as (h' & Hins & Hframe).
  { rewrite lookup_insert_ne by done. apply lookup_insert_eq. }
  exists h'. split; [done|].
  intros l Hl Hsome.
  assert (l ≠ c') as Hl' by (intros ->; rewrite Hfresh in Hsome; by destruct Hsome).
  rewrite Hframe by (by rewrite ?lookup_insert_ne).
  by rewrite !lookup_insert_ne.
Qed.

(** The claims on paths of one segment and on collisions, on map
    references: the call returns, and the heap is updated at the one
    map, or left as it is. *)
Lemma Ref_insert_length_one (h : Ref.heap) l m val k :
  h !! l = Some m →
  Ref.insert h (Some l) val [k] = Some (<[l := <[k := Ref.VString val]> m]> h).
Proof. intros Hl. by rewrite Ref_insert_one, (Ref_assign_Some _ _ _ _ _ Hl). Qed.

Lemma Ref_insert_below_leaf_noop (h : Ref.heap) val p2 s : ∀ p1 dst,
  p2 ≠ [] →
  Ref.resolve h (Ref.VMap dst) p1 = Some (Ref.VString s) →
  Ref.insert h dst val (p1 ++ p2) = Some h.
Proof.
  induction p1 as [|k p1 IH]; intros dst Hp2 Hres; [done|].
  cbn [Ref.resolve] in Hres.
  destruct (Ref.index h dst k) as [c|] eqn:Hk; [|done]. cbn [mbind option_bind] in Hres.
  destruct dst as [l|]; [|done].
  assert (∃ k' rest, p1 ++ p2 = k' :: rest) as (k' & rest & Hp).
  { destruct p1; [destruct p2; [done|]|]; by eexists _, _. }
  cbn [app]. rewrite Hp, Ref_insert_more, Hk. cbn [mbind option_bind]. rewrite <- Hp.
  destruct c as [s'|r].
  - done.
  - by apply IH.
Qed.

(** C10: with a nil [dst] the call returns, it does not panic, and every
    map of the heap is afterwards what it was before: what is written
    goes to maps made during the call, which the caller, left with its
    nil reference, cannot reach. *)
Theorem insert_nil_dst_no_effect (h : Ref.heap) (val : string) (path : list string) :
  ∃ h', Ref.insert h None val path = Some h' ∧
        h ⊆ h' ∧ ∀ l, is_Some (h !! l) → h' !! l = h !! l.
Proof.
  destruct path as [|k rest].
  { exists h. by split. }
  pose proof (Ref_make_fresh h) as Hfresh.
  destruct (Ref_insert_into_empty val (k :: rest) (Ref.make h).2 (Ref.make h).1)
    as (h' & Hins & Hframe).
  { apply lookup_insert_eq. }
  assert (∀ l, is_Some (h !! l) → h' !! l = h !! l) as Hsame.
  { intros l Hl.
    assert (l ≠ (Ref.make h).1) as Hne by (intros ->; rewrite Hfresh in Hl; by destruct Hl).
    rewrite Hframe; cbn [Ref.make snd fst] in *; rewrite ?lookup_insert_ne; done. }
  exists h'. split; [by rewrite Ref_insert_nil|]. split; [|done].
  apply map_subseteq_spec. intros l m Hl. rewrite Hsame; [done|by eexists].
Qed.

(** *** Dictionaries in the heap *)

Lemma repr_leaf_inv h v s fp : Ref.repr h v (Leaf s) fp → v = Ref.VString s ∧ fp = ∅.
Proof. by inversion 1. Qed.

Lemma repr_interior_inv h v dict fp :
  Ref.repr h v (Interior dict) fp →
  ∃ l m fpk,
    v = Ref.VMap (Some l) ∧
    h !! l = Some m ∧
    (∀ k, dict !! k = None → m !! k = None) ∧
    (∀ k n, dict !! k = Some n → ∃ v, m !! k = Some v ∧ Ref.repr h v n (fpk k)) ∧
    (∀ k1 k2, k1 ≠ k2 → is_Some (dict !! k1) → is_Some (dict !! k2) →
       fpk k1 ## fpk k2) ∧
    (∀ k, is_Some (dict !! k) → (l ∉ fpk k) ∧ (fpk k ⊆ fp)) ∧
    l ∈ fp ∧ fp ⊆ dom h.
Proof.
  inversion 1 as [|l m dict' fp' fpk]; subst. exists l, m, fpk.
  split; [done|]. split; [done|]. split; [done|]. split; [done|]. split; [done|].
  split; [done|]. by split.
Qed.

Lemma repr_allocated h v n fp : Ref.repr h v n fp → fp ⊆ dom h.
Proof. destruct 1; [set_solver|done]. Qed.

Lemma repr_frame h h' n : ∀ v fp,
  Ref.repr h v n fp → (∀ x, x ∈ fp → h' !! x = h !! x) → Ref.repr h' v n fp.
Proof.
  induction n as [s|dict IH] using node_ind'; intros v fp Hr Hsame.
  - apply repr_leaf_inv in Hr as [-> ->]. constructor.
  - apply repr_interior_inv in Hr
      as (l & m & fpk & -> & Hl & Hnone & Hsome & Hdisj & Hsub & Hin & Halloc).
    apply (Ref.repr_interior h' l m dict fp fpk); try done.
    + by rewrite Hsame.
    + intros k n Hk. destruct (Hsome k n Hk) as (v & Hv & Hrv). exists v. split; [done|].
      apply (IH k n Hk); [done|]. intros x Hx. apply Hsame.
      assert (fpk k ⊆ fp) by (apply Hsub; by eexists). set_solver.
    + intros x Hx. apply elem_of_dom. rewrite Hsame by done. apply elem_of_dom. auto.
Qed.

Lemma repr_empty (h : Ref.heap) l :
  h !! l = Some ∅ → Ref.repr h (Ref.VMap (Some l)) (Interior ∅) {[l]}.
Proof.
  intros Hl. apply (Ref.repr_interior h l ∅ ∅ {[l]} (λ _, ∅)).
  - done.
  - done.
  - intros k n Hk. by rewrite lookup_empty in Hk.
  - intros k1 k2 _ [? Hk]. by rewrite lookup_empty in Hk.
  - intros k [? Hk]. by rewrite lookup_empty in Hk.
  - set_solver.
  - apply singleton_subseteq_l, elem_of_dom. by eexists.
Qed.

Lemma repr_child_allocated h v n fp x : Ref.repr h v n fp → x ∈ fp → is_Some (h !! x).
Proof. intros Hr Hx. by apply elem_of_dom, (repr_allocated _ _ _ _ Hr). Qed.

(** Replacing the value at [k] of a represented dictionary. *)
Lemma repr_update (h h' : Ref.heap) l m dict fp fpk k v n fpn fp' :
  h !! l = Some m →
  (∀ k, dict !! k = None → m !! k = None) →
  (∀ k n, dict !! k = Some n → ∃ v, m !! k = Some v ∧ Ref.repr h v n (fpk k)) →
  (∀ k1 k2, k1 ≠ k2 → is_Some (dict !! k1) → is_Some (dict !! k2) → fpk k1 ## fpk k2) →
  (∀ k, is_Some (dict !! k) → (l ∉ fpk k) ∧ (fpk k ⊆ fp)) →
  l ∈ fp → fp ⊆ dom h →
  (* the new heap *)
  h' !! l = Some (<[k := v]> m) →
  (∀ k0 x, k0 ≠ k → is_Some (dict !! k0) → x ∈ fpk k0 → h' !! x = h !! x) →
  Ref.repr h' v n fpn →
  l ∉ fpn →
  (∀ k0, k0 ≠ k → is_Some (dict !! k0) → fpk k0 ## fpn) →
  fp ∪ fpn ⊆ fp' → fp' ⊆ dom h' →
  Ref.repr h' (Ref.VMap (Some l)) (Interior (<[k := n]> dict)) fp'.
Proof.
  intros Hl Hnone Hsome Hdisj Hsub Hin Halloc Hl' Hsame Hn Hln Hdn Hfp Hfp'.
  apply (Ref.repr_interior h' l (<[k := v]> m) _ fp'
           (λ k0, if decide (k0 = k) then fpn else fpk k0)).
  - done.
  - intros k0. destruct (decide (k0 = k)) as [->|Hne].
    + by rewrite lookup_insert_eq.
    + rewrite !lookup_insert_ne by done. apply Hnone.
  - intros k0 n0. destruct (decide (k0 = k)) as [->|Hne].
    + rewrite !lookup_insert_eq. intros [= <-]. by exists v.
    + rewrite !lookup_insert_ne by done. intros Hk0.
      destruct (Hsome k0 n0 Hk0) as (v0 & Hv0 & Hr0). exists v0. split; [done|].
      apply (repr_frame h); [done|]. intros x Hx. apply (Hsame k0); [done|by eexists|done].
  - intros k1 k2 Hne H1 H2.
    destruct (decide (k1 = k)) as [->|Hne1], (decide (k2 = k)) as [->|Hne2].
    + done.
    + rewrite lookup_insert_ne in H2 by done. symmetry. by apply Hdn.
    + rewrite lookup_insert_ne in H1 by done. by apply Hdn.
    + rewrite lookup_insert_ne in H1 by done. rewrite lookup_insert_ne in H2 by done.
      by apply Hdisj.
  - intros k0 H0. destruct (decide (k0 = k)) as [->|Hne].
    + split; [done|set_solver].
    + rewrite lookup_insert_ne in H0 by done. destruct (Hsub k0 H0). split; [done|set_solver].
  - set_solver.
  - done.
Qed.

(** [insert] on dictionaries is what [insert] on map references does
    to a heap that holds the dictionary: the call returns, the heap
    then holds the dictionary that [insert] computes, at the same
    address, the maps of the heap that are no part of the dictionary
    are what they were, and no map is lost. *)
Theorem Ref_insert_refines val path : ∀ (h : Ref.heap) l dict fp,
  Ref.repr h (Ref.VMap (Some l)) (Interior dict) fp →
  ∃ h' fp',
    Ref.insert h (Some l) val path = Some h' ∧
    Ref.repr h' (Ref.VMap (Some l)) (Interior (insert dict val path)) fp' ∧
    (∀ x, x ∉ fp → is_Some (h !! x) → h' !! x = h !! x) ∧
    (∀ x, x ∈ fp' → x ∈ fp ∨ h !! x = None) ∧
    (∀ x, is_Some (h !! x) → is_Some (h' !! x)).
Proof.
  induction path as [|k rest IH]; intros h l dict fp Hr.
  { exists h, fp. split; [done|]. split; [done|]. split; [done|]. split; [by left|done]. }
  pose proof Hr as Hr0.
  apply repr_interior_inv in Hr0
    as (l' & m & fpk & [= <-] & Hl & Hnone & Hsome & Hdisj & Hsub & Hin & Halloc).
  destruct rest as [|k' rest].
  - (* one segment *)
    rewrite (Ref_insert_length_one _ _ _ _ _ Hl), insert_singleton.
    eexists _, fp. split; [done|]. split; [|split; [|split]].
    + eapply (repr_update h _ l m dict fp fpk k _ _ ∅); try done.
      * apply lookup_insert_eq.
      * intros k0 x Hne H0 Hx. rewrite lookup_insert_ne; [done|].
        intros <-. by destruct (Hsub k0 H0).
      * constructor.
      * set_solver.
      * rewrite dom_insert. set_solver.
    + intros x Hx _. rewrite lookup_insert_ne; [done|]. by intros <-.
    + auto.
    + intros x Hx. destruct (decide (l = x)) as [<-|Hne];
        [by rewrite lookup_insert_eq|by rewrite lookup_insert_ne].
  - (* two segments or more *)
    rewrite Ref_insert_more, (Ref_index_Some _ _ _ _ Hl), insert_cons_cases.
    destruct (dict !! k) as [[s|sub]|] eqn:Hk.
    + (* a leaf in the way *)
      destruct (Hsome k _ Hk) as (v & Hv & Hrv). apply repr_leaf_inv in Hrv as [-> _].
      rewrite Hv. cbn [mbind option_bind].
      exists h, fp. split; [done|]. split; [done|]. split; [done|]. split; [by left|done].
    + (* a dictionary: the call goes on in it *)
      destruct (Hsome k _ Hk) as (v & Hv & Hrv).
      pose proof Hrv as (lc & _ & _ & -> & _)%repr_interior_inv.
      rewrite Hv. cbn [mbind option_bind].
      destruct (IH h lc sub (fpk k) Hrv) as (h' & fpc' & Hins & Hrc & Hframe & Hnew & Hmono).
      destruct (Hsub k) as [Hlk Hkfp]; [by eexists|].
      exists h', (fp ∪ fpc'). split; [done|]. split; [|split; [|split]].
      * eapply (repr_update h h' l m dict fp fpk k (Ref.VMap (Some lc)) _ fpc'); try done.
        -- rewrite insert_id by done. rewrite Hframe; [done|done|by eexists].
        -- intros k0 x Hne [n0 H0] Hx. apply Hframe.
           ++ specialize (Hdisj k0 k Hne). set_solver.
           ++ destruct (Hsome k0 n0 H0) as (v0 & _ & Hr0). by eapply repr_child_allocated.
        -- intros Hx. destruct (Hnew l Hx) as [?|Hn]; [done|]. by rewrite Hl in Hn.
        -- intros k0 Hne [n0 H0] x Hx1 Hx2. destruct (Hnew x Hx2) as [Hx|Hx].
           ++ specialize (Hdisj k0 k Hne). set_solver.
           ++ destruct (Hsome k0 n0 H0) as (v0 & _ & Hr0).
              destruct (repr_child_allocated _ _ _ _ _ Hr0 Hx1) as [? Hs]. congruence.
        -- intros x [Hx|Hx]%elem_of_union; [|by apply (repr_allocated _ _ _ _ Hrc)].
           apply elem_of_dom, Hmono, elem_of_dom. auto.
      * intros x Hx Hs. apply Hframe; [set_solver|done].
      * intros x [Hx|Hx]%elem_of_union; [by left|].
        destruct (Hnew x Hx); [left|right]; set_solver.
      * done.
    + (* nothing there: a new dictionary is made and the call goes on in it *)
      rewrite (Hnone k Hk).
      pose proof (Ref_make_fresh h) as Hfresh. unfold Ref.make in *. cbn [fst] in Hfresh.
      set (c := fresh (dom h)) in *.
      assert (c ≠ l) as Hcl by (intros ->; congruence).
      rewrite (Ref_assign_Some _ l m) by (by rewrite lookup_insert_ne).
      cbn [mbind option_bind].
      set (h2 := <[l:=<[k:=Ref.VMap (Some c)]> m]> (<[c:=∅]> h)).
      assert (h2 !! c = Some ∅) as Hc2.
      { unfold h2. rewrite lookup_insert_ne by done. apply lookup_insert_eq. }
      assert (∀ x, x ≠ c → x ≠ l → h2 !! x = h !! x) as Hh2.
      { intros x ??. unfold h2. by rewrite !lookup_insert_ne. }
      assert (∀ x, is_Some (h !! x) → x ≠ c) as Hold.
      { intros x [? Hx] ->. congruence. }
      destruct (IH h2 c ∅ {[c]} (repr_empty _ _ Hc2))
        as (h' & fpc' & Hins & Hrc & Hframe & Hnew & Hmono).
      assert (h' !! l = Some (<[k:=Ref.VMap (Some c)]> m)) as Hl'.
      { rewrite Hframe; [apply lookup_insert_eq|set_solver|].
        unfold h2. rewrite lookup_insert_eq. by eexists. }
      assert (∀ x, x ≠ l → is_Some (h !! x) → h' !! x = h !! x) as Hsame.
      { intros x Hxl Hx. rewrite Hframe.
        - apply Hh2; [by apply Hold|done].
        - apply Hold in Hx. set_solver.
        - rewrite Hh2; [done|by apply Hold|done]. }
      assert (∀ x, x ∈ fpc' → h !! x = None) as Hfpc.
      { intros x Hx. destruct (Hnew x Hx) as [->%elem_of_singleton|Hn]; [done|].
        destruct (decide (x = l)) as [->|?].
        - unfold h2 in Hn. by rewrite lookup_insert_eq in Hn.
        - destruct (decide (x = c)) as [->|?]; [done|]. by rewrite <- Hh2. }
      exists h', (fp ∪ fpc'). split; [done|]. split; [|split; [|split]].
      * eapply (repr_update h h' l m dict fp fpk k (Ref.VMap (Some c)) _ fpc'); try done.
        -- intros k0 x Hne [n0 H0] Hx. apply Hsame.
           ++ intros ->. by destruct (Hsub k0); [eexists|].
           ++ destruct (Hsome k0 n0 H0) as (v0 & _ & Hr0). by eapply repr_child_allocated.
        -- intros Hx. apply Hfpc in Hx. congruence.
        -- intros k0 Hne [n0 H0] x Hx1 Hx2. apply Hfpc in Hx2.
           destruct (Hsome k0 n0 H0) as (v0 & _ & Hr0).
           destruct (repr_child_allocated _ _ _ _ _ Hr0 Hx1) as [? Hs]. congruence.
        -- intros x [Hx|Hx]%elem_of_union; [|by apply (repr_allocated _ _ _ _ Hrc)].
           apply elem_of_dom. destruct (decide (x = l)) as [->|Hxl]; [by eexists|].
           rewrite Hsame; [|done|]; apply elem_of_dom; auto.
      * intros x Hx Hs. apply Hsame; [|done]. by intros ->.
      * intros x [Hx|Hx]%elem_of_union; [by left|right; by apply Hfpc].
      * intros x Hx. destruct (decide (x = l)) as [->|Hxl]; [by eexists|].
        by rewrite Hsame.
Qed.

(** From a heap that holds a dictionary, the insertions of a sequence
    of pairs all return, and the heap then holds the dictionary that
    the insertions build. *)
Lemma Ref_insert_all_refines seq : ∀ (h : Ref.heap) l dict fp,
  Ref.repr h (Ref.VMap (Some l)) (Interior dict) fp →
  ∃ h' fp',
    Ref.insert_all h (Some l) seq = Some h' ∧
    Ref.repr h' (Ref.VMap (Some l)) (Interior (insert_all dict seq)) fp'.
Proof.
  induction seq as [|[path val] seq IH]; intros h l dict fp Hr; [by exists h, fp|].
  destruct (Ref_insert_refines val path h l dict fp Hr) as (h1 & fp1 & Hins & Hr1 & _).
  destruct (IH h1 l _ fp1 Hr1) as (h' & fp' & Hall & Hr').
  exists h', fp'. split; [|done]. cbn [Ref.insert_all fst snd]. by rewrite Hins.
Qed.

(** [buildDict] makes a map and inserts into it pair after pair: no
    call panics, and the map is in the end the dictionary that
    [insert_all] builds from the empty one. *)
Corollary buildDict_refines (seq : list (list string * string)) :
  ∃ h' fp',
    Ref.insert_all (Ref.make ∅).2 (Some (Ref.make ∅).1) seq = Some h' ∧
    Ref.repr h' (Ref.VMap (Some (Ref.make ∅).1)) (Interior (insert_all ∅ seq)) fp'.
Proof.
  apply (Ref_insert_all_refines seq _ _ ∅ {[(Ref.make ∅).1]}).
  apply repr_empty. apply lookup_insert_eq.
Qed.

(** ** Strings *)

Lemma append_cons c (a b : string) : String c a +:+ b = String c (a +:+ b).
Proof. reflexivity. Qed.

Lemma append_nil_l (a : string) : EmptyString +:+ a = a.
Proof. reflexivity. Qed.

Lemma append_assoc (a b c : string) : (a +:+ b) +:+ c = a +:+ (b +:+ c).
Proof. induction a as [|x a IH]; [done|]. by rewrite !append_cons, IH. Qed.

Lemma append_nil_r (a : string) : a +:+ EmptyString = a.
Proof. induction a as [|x a IH]; [done|]. by rewrite append_cons, IH. Qed.

(** ** sort.Strings *)

Lemma sort_Strings_Sorted keys : Sorted String.le (sort_Strings keys).
Proof. apply Sorted_merge_sort, _. Qed.

Lemma sort_Strings_Permutation keys : sort_Strings keys ≡ₚ keys.
Proof. apply merge_sort_Permutation. Qed.

(** There is one increasing arrangement of given keys: whatever the
    algorithm of [sort.Strings], this is its result. *)
Lemma sort_Strings_unique keys sorted :
  Sorted String.le sorted → sorted ≡ₚ keys → sorted = sort_Strings keys.
Proof.
  intros Hs Hp. apply (Sorted_unique String.le); [done|apply sort_Strings_Sorted|].
  by rewrite Hp, sort_Strings_Permutation.
Qed.

Lemma sort_Strings_proper keys1 keys2 :
  keys1 ≡ₚ keys2 → sort_Strings keys1 = sort_Strings keys2.
Proof.
  intros Hp. apply sort_Strings_unique; [apply sort_Strings_Sorted|].
  by rewrite sort_Strings_Permutation.
Qed.

Lemma sorted_range_keys (o1 o2 : range_order) dict :
  sort_Strings (range_keys o1 dict) = sort_Strings (range_keys o2 dict).
Proof. apply sort_Strings_proper. by rewrite !range_keys_perm. Qed.

Lemma elem_of_sorted_range_keys (o : range_order) (dict : gmap string node) k :
  k ∈ sort_Strings (range_keys o dict) ↔ is_Some (dict !! k).
Proof.
  rewrite sort_Strings_Permutation, range_keys_perm, list_elem_of_fmap. split.
  - intros [[k' v] [-> Hin]]. apply elem_of_map_to_list in Hin. by eexists.
  - intros [v Hv]. exists (k, v). split; [done|]. by apply elem_of_map_to_list.
Qed.

Lemma NoDup_sorted_range_keys (o : range_order) (dict : gmap string node) :
  NoDup (sort_Strings (range_keys o dict)).
Proof.
  rewrite sort_Strings_Permutation, range_keys_perm. apply NoDup_fst_map_to_list.
Qed.

Lemma Sorted_le_NoDup_strict (l : list string) :
  Sorted String.le l → NoDup l → StronglySorted (strict String.le) l.
Proof.
  intros Hs%Sorted_StronglySorted; [|apply _].
  induction Hs as [|x l Hl IH Hx]; intros Hnd; [constructor|].
  apply NoDup_cons in Hnd as [Hx' Hnd]. constructor; [by apply IH|].
  rewrite Forall_forall in Hx |- *. intros y Hy. split; [by apply Hx|].
  intros Hyx. assert (x = y) as -> by (apply (anti_symm String.le); auto). done.
Qed.

(** ** format *)

Section format_facts.
Context `{!UnicodeTables}.
Context {W E : Type}.
Implicit Types (a b : W → W * option E) (w : W).

Lemma and_then_ext a a' b b' w :
  a w = a' w → (∀ w', b w' = b' w') → and_then a b w = and_then a' b' w.
Proof. intros Ha Hb. unfold and_then. rewrite Ha. destruct (a' w) as [w' [e|]]; auto. Qed.

Lemma and_then_done_r a w : and_then a done_ok w = a w.
Proof. unfold and_then, done_ok. by destruct (a w) as [w' [e|]]. Qed.

Lemma and_then_assoc a b c w :
  and_then (and_then a b) c w = and_then a (and_then b c) w.
Proof. unfold and_then. by destruct (a w) as [w' [e|]]. Qed.

Lemma for_range_ext (body body' : string → W → W * option E) keys :
  (∀ k, k ∈ keys → ∀ w, body k w = body' k w) →
  ∀ w, for_range body keys w = for_range body' keys w.
Proof.
  induction keys as [|k keys IH]; intros Hb w; [done|]. simpl.
  apply and_then_ext; [apply Hb; left|]. intros w'. apply IH.
  intros k' Hk'. apply Hb. by right.
Qed.

Variable Write : W → string → W * option E.

Lemma write_all_app texts1 texts2 w :
  write_all Write (texts1 ++ texts2) w =
    and_then (write_all Write texts1) (write_all Write texts2) w.
Proof.
  revert w. induction texts1 as [|t texts1 IH]; intros w; simpl.
  - done.
  - rewrite and_then_assoc. by apply and_then_ext.
Qed.

(** [format] as the source has it: the value at [k] decides between
    the text of a leaf and the recursive call. *)
Lemma format_unfold (order : range_order) dict depth w :
  format Write order dict depth w =
    format_body Write order
      (λ k, match dict !! k with
            | Some (Interior val) => format Write order val
            | _ => λ _, done_ok
            end) dict depth w.
Proof.
  unfold format. cbn [format_node]. unfold format_body.
  apply and_then_ext; [done|]. intros w1.
  apply and_then_ext; [|done].
  apply for_range_ext. intros k _ w2.
  apply and_then_ext; [done|]. intros w3.
  destruct (dict !! k) as [[val|val]|] eqn:Hk; try done.
  by rewrite lookup_fmap, Hk.
Qed.

(** When a write fails, the writes before it have succeeded, the
    failing one is the last one made, and its error is the result. *)
Lemma write_all_error texts w w' err :
  write_all Write texts w = (w', Some err) →
  ∃ before text after w1,
    texts = before ++ text :: after ∧
    write_all Write before w = (w1, None) ∧
    Write w1 text = (w', Some err).
Proof.
  revert w. induction texts as [|t texts IH]; intros w; simpl; [done|].
  unfold and_then, Fprint. destruct (Write w t) as [w1 [e|]] eqn:Hw.
  - intros [= -> ->]. by exists [], t, texts, w.
  - intros (before & text & after & w2 & -> & Hb & Hf)%IH.
    exists (t :: before), text, after, w2. split; [done|]. split; [|done].
    simpl. unfold and_then, Fprint. by rewrite Hw.
Qed.

Lemma write_all_succeed texts w :
  writes_succeed Write texts w ↔ (write_all Write texts w).2 = None.
Proof.
  revert w. induction texts as [|t texts IH]; intros w; simpl; [done|].
  unfold and_then, Fprint. destruct (Write w t) as [w1 [e|]] eqn:Hw; [done|].
  apply IH.
Qed.

End format_facts.

Lemma write_all_Log texts log :
  write_all Log_Write texts log = (log ++ texts, None).
Proof.
  revert log. induction texts as [|t texts IH]; intros log; simpl.
  - by rewrite app_nil_r.
  - unfold and_then, Fprint, Log_Write. by rewrite IH, <- app_assoc.
Qed.

Lemma write_all_Builder texts buf :
  write_all Builder_Write texts buf = (buf +:+ concat_str texts, None).
Proof.
  revert buf. induction texts as [|t texts IH]; intros buf; simpl.
  - by rewrite append_nil_r.
  - unfold and_then, Fprint, Builder_Write. by rewrite IH, append_assoc.
Qed.

(** *** The writes of an action *)

Lemma has_script_unique a texts1 texts2 :
  has_script a texts1 → has_script a texts2 → texts1 = texts2.
Proof.
  intros H1 H2. specialize (H1 _ _ Log_Write []). specialize (H2 _ _ Log_Write []).
  rewrite H1, !write_all_Log in H2. by injection H2.
Qed.

Lemma has_script_done : has_script (λ W E Write, done_ok) [].
Proof. by intros W E Write w. Qed.

Lemma has_script_Fprint text : has_script (λ W E Write, Fprint Write text) [text].
Proof. intros W E Write w. simpl. by rewrite and_then_done_r. Qed.

Lemma has_script_and_then a b texts1 texts2 :
  has_script a texts1 → has_script b texts2 →
  has_script (λ W E Write, and_then (a W E Write) (b W E Write)) (texts1 ++ texts2).
Proof.
  intros Ha Hb W E Write w. rewrite write_all_app.
  apply and_then_ext; [apply Ha|]. intros w'. apply Hb.
Qed.

Lemma has_script_for_range
    (body : ∀ W E : Type, (W → string → W * option E) → string → W → W * option E)
    (texts : string → list string) keys :
  (∀ k, k ∈ keys → has_script (λ W E Write, body W E Write k) (texts k)) →
  has_script (λ W E Write, for_range (body W E Write) keys) (keys ≫= texts).
Proof.
  induction keys as [|k keys IH]; intros Hb; [apply has_script_done|].
  cbn [for_range mbind list_bind].
  apply (has_script_and_then (λ W E Write, body W E Write k)
           (λ W E Write, for_range (body W E Write) keys)).
  - apply Hb. left.
  - apply IH. intros k' Hk'. apply Hb. by right.
Qed.

Lemma has_script_ext a a' texts :
  (∀ W E Write w, a W E Write w = a' W E Write w) → has_script a' texts → has_script a texts.
Proof. intros Heq Ha W E Write w. by rewrite Heq. Qed.

(** *** The writes of format *)

Lemma level_writes_ext `{!UnicodeTables} keys (f g : string → list string) depth :
  (∀ k, f k = g k) → level_writes keys f depth = level_writes keys g depth.
Proof.
  intros Hfg. unfold level_writes. do 2 f_equal.
  induction keys as [|k keys IH]; [done|]. cbn [mbind list_bind]. by rewrite Hfg, IH.
Qed.

Section format_script.
Context `{!UnicodeTables}.
Variable order : range_order.

Lemma has_script_canonical a texts :
  has_script a texts → has_script a (a _ _ Log_Write []).1.
Proof.
  intros Ha. assert ((a _ _ Log_Write []).1 = texts) as ->; [|done].
  by rewrite (Ha _ _ Log_Write []), write_all_Log.
Qed.

Lemma has_script_format_body
    (recur : ∀ W E : Type,
               (W → string → W * option E) → string → nat → W → W * option E)
    (recur_writes : string → list string) dict depth :
  (∀ k val, dict !! k = Some (Interior val) →
     has_script (λ W E Write, recur W E Write k (depth + 1)) (recur_writes k)) →
  has_script (λ W E Write, format_body Write order (recur W E Write) dict depth)
    (level_writes (sort_Strings (range_keys order dict))
       (λ k, match dict !! k with
             | Some (Leaf val) => [insertText (quote val)]
             | Some (Interior _) => recur_writes k
             | None => []
             end) depth).
Proof.
  intros Hrec. unfold format_body, level_writes.
  apply (has_script_and_then (λ W E Write, Fprint Write _) _ [_]);
    [apply has_script_Fprint|].
  apply (has_script_and_then
           (λ W E Write, for_range (λ k, and_then (Fprint Write _) _) _));
    [|apply (has_script_and_then (λ W E Write, Fprint Write _) _ [_]);
        [apply has_script_Fprint|];
      apply (has_script_and_then
               (λ W E Write, if decide (depth ≠ 0) then Fprint Write ";" else done_ok)
               (λ W E Write, Fprint Write _) _ [_]);
        [|apply has_script_Fprint];
      destruct (decide (depth ≠ 0)); [apply has_script_Fprint|apply has_script_done]].
  apply (has_script_for_range
           (λ W E Write k, and_then (Fprint Write _) _)
           (λ k, _ :: _)).
  intros k _.
  apply (has_script_and_then (λ W E Write, Fprint Write _) _ [_]);
    [apply has_script_Fprint|].
  destruct (dict !! k) as [[val|val]|] eqn:Hk.
  - apply has_script_Fprint.
  - by eapply Hrec.
  - apply has_script_done.
Qed.

(** The writes of [format] are the same on every sink. *)
Lemma format_node_has_script n : ∀ depth,
  has_script (λ W E Write, format_node Write order n depth)
             (format_node Log_Write order n depth []).1.
Proof.
  induction n as [s|dict IH] using node_ind'; intros depth.
  { apply has_script_done. }
  eapply (has_script_canonical (λ W E Write, format_node Write order (Interior dict) depth)).
  cbn [format_node].
  apply (has_script_format_body
           (λ W E Write k, default (λ _, done_ok) ((format_node Write order <$> dict) !! k))
           (λ k, (default (λ _, done_ok)
                    ((format_node Log_Write order <$> dict) !! k) (depth + 1) []).1)).
  intros k val Hk. rewrite lookup_fmap, Hk. cbn [fmap option_fmap option_map default].
  eapply has_script_ext; [|apply (IH k _ Hk)].
  intros W E Write w. by rewrite lookup_fmap, Hk.
Qed.

Lemma format_has_script dict depth :
  has_script (λ W E Write, format Write order dict depth) (format_writes order dict depth).
Proof. apply (format_node_has_script (Interior dict)). Qed.

(** On whatever sink, [format] is the sequence of its writes, run up
    to the first that fails. *)
Lemma format_write_all {W E : Type} (Write : W → string → W * option E) dict depth w :
  format Write order dict depth w = write_all Write (format_writes order dict depth) w.
Proof. apply format_has_script. Qed.

(** The writes of [format], level by level. *)
Lemma format_writes_unfold dict depth :
  format_writes order dict depth =
    level_writes (sort_Strings (range_keys order dict))
      (λ k, match dict !! k with
            | Some (Leaf val) => [insertText (quote val)]
            | Some (Interior val) => format_writes order val (depth + 1)
            | None => []
            end) depth.
Proof.
  pose (recur_writes := λ k, match dict !! k with
                             | Some (Interior val) => format_writes order val (depth + 1)
                             | _ => []
                             end).
  trans (level_writes (sort_Strings (range_keys order dict))
           (λ k, match dict !! k with
                 | Some (Leaf val) => [insertText (quote val)]
                 | Some (Interior _) => recur_writes k
                 | None => []
                 end) depth).
  - eapply has_script_unique; [apply format_has_script|].
    eapply has_script_ext; [intros W E Write w; apply format_unfold|].
    apply (has_script_format_body
             (λ W E Write k, match dict !! k with
                             | Some (Interior val) => format Write order val
                             | _ => λ _, done_ok
                             end) recur_writes).
    intros k val Hk. unfold recur_writes. rewrite Hk. apply format_has_script.
  - apply level_writes_ext. intros k. unfold recur_writes.
    by destruct (dict !! k) as [[val|val]|].
Qed.

End format_script.

(** *** The order of the keys *)

(** [≤] on strings is the order of Go: the first byte that differs
    decides, and a proper prefix comes first. *)
Lemma string_le_nil_l (s : string) : String.le EmptyString s.
Proof. by destruct s. Qed.

Lemma string_le_nil_r c (s : string) : ¬ String.le (String c s) EmptyString.
Proof. by intros H. Qed.

Lemma string_le_cons a b (s t : string) :
  String.le (String a s) (String b t) ↔
    (byte_val a < byte_val b)%Z ∨ (a = b ∧ String.le s t).
Proof.
  unfold String.le, String.leb, byte_val. cbn [String.compare].
  unfold Ascii.compare.
  destruct (N.compare_spec (N_of_ascii a) (N_of_ascii b)) as [Heq|Hlt|Hgt].
  - assert (a = b) as -> by (rewrite <- (ascii_N_embedding a), <- (ascii_N_embedding b);
                              by rewrite Heq).
    split; [by right|]. intros [?|[_ ?]]; [lia|done].
  - split; [intros _; left; lia|done].
  - split; [done|]. intros [?|[-> _]]; lia.
Qed.

Lemma sorted_keys_range (order : range_order) dict :
  sort_Strings (range_keys order dict) = sorted_keys dict.
Proof. apply (sorted_range_keys order map_order). Qed.

Lemma sorted_keys_empty : sorted_keys ∅ = [].
Proof. unfold sorted_keys. by rewrite map_to_list_empty. Qed.

(** *** The text that format produces *)




Section format_text.
Context `{!UnicodeTables}.
Variable order : range_order.

Lemma format_output_writes dict depth :
  format_output order dict depth = concat_str (format_writes order dict depth).
Proof.
  unfold format_output. by rewrite format_write_all, write_all_Builder.
Qed.



End format_text.


Lemma format_writes_empty `{!UnicodeTables} (order : range_order) :
  format_writes order ∅ 0 = ["{" +:+ str LF; "}"; str LF].
Proof. by rewrite format_writes_unfold, sorted_keys_range, sorted_keys_empty. Qed.

(** *** The claims on format *)

(** C1: [format] is deterministic.  The order in which the run-time
    system ranges over a map has no part in the result: with any two
    orders, on any sink, the calls of [Write] and what is returned are
    the same.  At every level the keys are written in the increasing
    order of their bytes, each key once: the writes of a dictionary are
    those of [level_writes] on its sorted keys, and those of a nested
    dictionary are again the writes of [format].  Dictionaries built by
    inserting pairs in two different orders, when they are the same
    dictionary, are printed the same; they are the same dictionary
    whenever the pairs are the same and no path comes twice. *)
Theorem format_deterministic `{!UnicodeTables} :
  (∀ (order1 order2 : range_order) (W E : Type) (Write : W → string → W * option E)
     (dict : gmap string node) (depth : nat) (w : W),
     format Write order1 dict depth w = format Write order2 dict depth w) ∧
  (∀ (order : range_order) (dict : gmap string node) (depth : nat),
     format_writes order dict depth =
       level_writes (sorted_keys dict)
         (λ k, match dict !! k with
               | Some (Leaf val) => [insertText (quote val)]
               | Some (Interior val) => format_writes order val (depth + 1)
               | None => []
               end) depth) ∧
  (∀ dict : gmap string node,
     StronglySorted (strict String.le) (sorted_keys dict) ∧
     ∀ k, k ∈ sorted_keys dict ↔ is_Some (dict !! k)) ∧
  (∀ (order1 order2 : range_order) (seq1 seq2 : list (list string * string)) (depth : nat),
     insert_all ∅ seq1 = insert_all ∅ seq2 →
     format_output order1 (insert_all ∅ seq1) depth =
       format_output order2 (insert_all ∅ seq2) depth) ∧
  (∀ (order1 order2 : range_order) (seq1 seq2 : list (list string * string)) (depth : nat),
     seq1 ≡ₚ seq2 → NoDup seq1.*1 →
     format_output order1 (insert_all ∅ seq1) depth =
       format_output order2 (insert_all ∅ seq2) depth).
Proof.
  assert (∀ (order1 order2 : range_order) dict depth,
            format_writes order1 dict depth = format_writes order2 dict depth) as Hw.
  { intros order1 order2 dict.
    change (∀ depth, format_writes order1 dict depth = format_writes order2 dict depth)
      with ((λ n, ∀ depth, match n with
                           | Interior dict =>
                               format_writes order1 dict depth = format_writes order2 dict depth
                           | Leaf _ => True
                           end) (Interior dict)).
    generalize (Interior dict). clear dict.
    induction n as [s|dict IH] using node_ind'; intros depth; [done|].
    rewrite !format_writes_unfold, !sorted_keys_range.
    apply level_writes_ext. intros k.
    destruct (dict !! k) as [[val|val]|] eqn:Hk; try done.
    apply (IH k _ Hk). }
  split; [|split; [|split; [|split]]].
  - intros order1 order2 W E Write dict depth w.
    by rewrite !format_write_all, (Hw order1 order2).
  - intros order dict depth. by rewrite format_writes_unfold, sorted_keys_range.
  - intros dict. rewrite <- (sorted_keys_range map_order). split.
    + apply Sorted_le_NoDup_strict;
        [apply sort_Strings_Sorted|apply NoDup_sorted_range_keys].
    + intros k. apply elem_of_sorted_range_keys.
  - intros order1 order2 seq1 seq2 depth <-.
    by rewrite !format_output_writes, (Hw order1 order2).
  - intros order1 order2 seq1 seq2 depth Hp Hnd.
    rewrite (insert_all_Permutation seq1 seq2 Hp Hnd).
    by rewrite !format_output_writes, (Hw order1 order2).
Qed.


(** C6: on any sink [format] is the sequence of its writes carried out
    up to the first that fails.  When it returns an error, that error
    is the one a call of [Write] returned, the calls before it had
    succeeded, and the sink is as that call left it: no call follows.
    It returns no error exactly when every write succeeds. *)
Theorem format_write_failure `{!UnicodeTables} (order : range_order) {W E : Type}
    (Write : W → string → W * option E) (dict : gmap string node) (depth : nat) (w : W) :
  format Write order dict depth w = write_all Write (format_writes order dict depth) w ∧
  (∀ w' err, format Write order dict depth w = (w', Some err) →
     ∃ before text after w1,
       format_writes order dict depth = before ++ text :: after ∧
       write_all Write before w = (w1, None) ∧
       Write w1 text = (w', Some err)) ∧
  (writes_succeed Write (format_writes order dict depth) w ↔
     (format Write order dict depth w).2 = None).
Proof.
  split; [apply format_write_all|]. split.
  - intros w' err. rewrite format_write_all. apply write_all_error.
  - rewrite format_write_all. apply write_all_succeed.
Qed.

(** C7: the empty dictionary at depth 0 is printed as an opening brace,
    a line feed, a closing brace and a line feed, and nothing else. *)
Theorem format_empty `{!UnicodeTables} (order : range_order) :
  format Builder_Write order ∅ 0 EmptyString =
    (String "{" (String LF (String "}" (String LF EmptyString))), None) ∧
  format_writes order ∅ 0 = ["{" +:+ str LF; "}"; str LF].
Proof.
  split; [|apply format_writes_empty]. by rewrite format_write_all, format_writes_empty.
Qed.

(** ** quote *)

Section quote_facts.
Context `{!UnicodeTables}.

(** On a byte of ASCII, [strconv.Quote] escapes as the specification
    asks. *)
Lemma appendEscapedRune_ascii (c : ascii) :
  is_ascii c = true →
  strconv_appendEscapedRune (byte_val c) DQUOTE = c_escape c.
Proof.
  destruct c as [[] [] [] [] [] [] [] []]; intros Hc; try discriminate Hc;
    vm_compute; reflexivity.
Qed.

Lemma runes_ascii (s : string) :
  all_bytes is_ascii s = true →
  strconv_quoteRune DQUOTE <$> runes s = c_escape <$> list_ascii_of_string s.
Proof.
  unfold runes. induction s as [|c s IH]; [done|].
  cbn [all_bytes]. intros [Hc Hs]%andb_prop.
  cbn [runes_from list_ascii_of_string fmap list_fmap].
  unfold is_ascii in Hc. unfold RuneSelf. rewrite Hc.
  cbn [Nat.sub fmap list_fmap]. rewrite <- IH by done. f_equal.
  cbn [strconv_quoteRune].
  assert ((byte_val c =? RuneError)%Z = false) as ->.
  { apply Z.eqb_neq. apply Z.ltb_lt in Hc. unfold RuneError. lia. }
  rewrite andb_false_r. by apply appendEscapedRune_ascii.
Qed.

Lemma Quote_ascii (s : string) :
  all_bytes is_ascii s = true →
  strconv_Quote s =
    String DQUOTE (concat_str (c_escape <$> list_ascii_of_string s) +:+ str DQUOTE).
Proof. intros Hs. unfold strconv_Quote. by rewrite runes_ascii. Qed.

(** The escape of a byte of ASCII never opens with [\u]. *)
Lemma c_escape_no_u (c : ascii) (rest : string) :
  is_ascii c = true →
  strings_HasPrefix (String DQUOTE (c_escape c +:+ rest)) (String DQUOTE "\u") = false.
Proof.
  destruct c as [[] [] [] [] [] [] [] []]; intros Hc; try discriminate Hc;
    vm_compute; reflexivity.
Qed.

Lemma Quote_ascii_no_u (s : string) :
  all_bytes is_ascii s = true →
  strings_HasPrefix (strconv_Quote s) (String DQUOTE "\u") = false.
Proof.
  intros Hs. rewrite Quote_ascii by done. destruct s as [|c s]; [done|].
  cbn [all_bytes] in Hs. apply andb_prop in Hs as [Hc _].
  cbn [list_ascii_of_string fmap list_fmap concat_str].
  rewrite append_assoc. by apply c_escape_no_u.
Qed.

Lemma map_bytes_id (f : ascii → ascii) (s : string) :
  all_bytes (λ c, bool_decide (f c = c)) s = true → map_bytes f s = s.
Proof.
  induction s as [|c s IH]; [done|]. cbn [all_bytes map_bytes].
  intros [Hc Hs]%andb_prop. apply bool_decide_eq_true in Hc. by rewrite Hc, IH.
Qed.

(** On text that is all ASCII, [strings.ToUpper] replaces the letters
    [a] to [z] by [A] to [Z] and keeps every other byte. *)
Lemma ToUpper_ascii (s : string) :
  all_bytes is_ascii s = true → strings_ToUpper s = map_bytes upper_byte s.
Proof.
  intros Hs. unfold strings_ToUpper. fold is_ascii.
  change (λ c, byte_val c <? RuneSelf)%Z with is_ascii. rewrite Hs.
  destruct (negb _) eqn:Hlow; [done|]. apply negb_false_iff in Hlow.
  symmetry. apply map_bytes_id. clear Hs.
  induction s as [|c s IH]; [done|]. cbn [all_bytes] in *.
  apply andb_prop in Hlow as [Hc Hlow]. rewrite IH, andb_true_r by done.
  apply bool_decide_eq_true. unfold upper_byte.
  apply negb_true_iff in Hc. by rewrite Hc.
Qed.

End quote_facts.

(** A string that opens with the soft hyphen U+00AD, which is not
    printable: the escaped text opens with [\u] and is upper-cased, the
    letters after the escape included. *)
Example quote_soft_hyphen `{!UnicodeTables} :
  quote (String (to_byte 0xC2) (String (to_byte 0xAD) "abc")) =
    String DQUOTE ("\U00ADABC" +:+ str DQUOTE).
Proof. vm_compute. reflexivity. Qed.

Example quote_text `{!UnicodeTables} : quote "text" = String DQUOTE ("text" +:+ str DQUOTE).
Proof. vm_compute. reflexivity. Qed.

(** A double quote, a backslash, a line feed and the byte 1. *)
Example quote_escapes `{!UnicodeTables} :
  quote (String "a" (String DQUOTE (String BACKSLASH (String LF (String (to_byte 1) "Z"))))) =
    String DQUOTE ("a\" +:+ str DQUOTE +:+ "\\\n\x01Z" +:+ str DQUOTE).
Proof. vm_compute. reflexivity. Qed.

(** A byte that is not the start of an encoding is escaped by [\x]. *)
Example quote_invalid_byte `{!UnicodeTables} :
  quote (String (to_byte 0xFF) "u") = String DQUOTE ("\xffu" +:+ str DQUOTE).
Proof. vm_compute. reflexivity. Qed.

(** The test of [quote] is for the escape of four digits, [\u].  A rune
    above U+FFFF that is not printable is escaped with [\U] and eight
    digits, and the text is then returned as [strconv.Quote] made it,
    its hexadecimal digits in lower case. *)
Lemma quote_long_escape `{!UnicodeTables} :
  isPrintTable 0x10FFFF = false →
  quote (String (to_byte 0xF4) (String (to_byte 0x8F)
           (String (to_byte 0xBF) (String (to_byte 0xBF) EmptyString)))) =
    String DQUOTE ("\U0010ffff" +:+ str DQUOTE).
Proof.
  intros Hp. unfold quote.
  assert (strconv_Quote (String (to_byte 0xF4) (String (to_byte 0x8F)
            (String (to_byte 0xBF) (String (to_byte 0xBF) EmptyString)))) =
          String DQUOTE ("\U0010ffff" +:+ str DQUOTE)) as ->; [|done].
  unfold strconv_Quote.
  change (runes _) with [(0x10FFFF%Z, 4, String (to_byte 0xF4) (String (to_byte 0x8F)
            (String (to_byte 0xBF) (String (to_byte 0xBF) EmptyString))))].
  cbn [fmap list_fmap strconv_quoteRune].
  change (strconv_appendEscapedRune 1114111 DQUOTE) with
    (if isPrintTable 0x10FFFF then utf8_AppendRune 0x10FFFF else "\U0010ffff").
  by rewrite Hp.
Qed.

(** ** More on insert *)

(** After an insertion at a path that is not empty the dictionary is
    not empty. *)
Lemma insert_cons_ne_empty dst val k rest : insert dst val (k :: rest) ≠ ∅.
Proof.
  intros Hempty. destruct rest as [|k' rest].
  - rewrite insert_singleton in Hempty. by apply insert_non_empty in Hempty.
  - rewrite insert_cons_cases in Hempty. destruct (dst !! k) as [[s|m]|] eqn:Hdk.
    + subst dst. by rewrite lookup_empty in Hdk.
    + by apply insert_non_empty in Hempty.
    + by apply insert_non_empty in Hempty.
Qed.

(** [insert] puts a value under every key that it makes: where no
    dictionary was empty, none is afterwards. *)
Lemma insert_populated val path : ∀ dst : gmap string node,
  (∀ k c, dst !! k = Some c → populated c) →
  ∀ k c, insert dst val path !! k = Some c → populated c.
Proof.
  induction path as [|k0 rest IH]; intros dst Hdst k c; [apply Hdst|].
  destruct (decide (k = k0)) as [->|Hne]; [|rewrite insert_lookup_ne by done; apply Hdst].
  destruct rest as [|k1 rest].
  { rewrite insert_singleton, lookup_insert_eq. intros [= <-]. constructor. }
  rewrite insert_cons_cases. destruct (dst !! k0) as [[s|m]|] eqn:Hk.
  - rewrite Hk. intros [= <-]. constructor.
  - rewrite lookup_insert_eq. intros [= <-]. constructor.
    + apply insert_cons_ne_empty.
    + apply IH. intros k' c' Hk'. specialize (Hdst _ _ Hk). inversion Hdst; subst. eauto.
  - rewrite lookup_insert_eq. intros [= <-]. constructor.
    + apply insert_cons_ne_empty.
    + apply IH. intros k' c'. by rewrite lookup_empty.
Qed.

(** X3: of two insertions of which one is at a path that continues the
    path of the other, the one at the shorter path decides, in whatever
    order the two are made: made last, it puts its value in the place
    of all that was below its path; made first, it leaves a value at
    its path, below which nothing is put. *)
Theorem insert_shorter_path_wins v1 v2 p q : ∀ dst : gmap string node,
  p ≠ [] → q ≠ [] →
  insert (insert dst v2 (p ++ q)) v1 p = insert dst v1 p ∧
  insert (insert dst v1 p) v2 (p ++ q) = insert dst v1 p.
Proof.
  intros dst Hp Hq.
  assert (∀ dst, insert (insert dst v2 (p ++ q)) v1 p = insert dst v1 p) as Hfirst.
  { clear dst. induction p as [|k p IH]; [done|]. intros dst.
    destruct p as [|k' p].
    - destruct q as [|k' q]; [done|]. cbn [app].
      rewrite !insert_singleton, insert_cons_cases.
      destruct (dst !! k) as [[s|m]|]; [done|..]; by rewrite insert_insert_eq.
    - change ((k :: k' :: p) ++ q) with (k :: k' :: (p ++ q)).
      rewrite (insert_cons_cases dst v2), (insert_cons_cases dst v1).
      destruct (dst !! k) as [[s|m]|] eqn:Hk.
      + by erewrite insert_cons_leaf.
      + erewrite insert_cons_interior by apply lookup_insert_eq.
        rewrite insert_insert_eq. do 2 f_equal. by apply IH.
      + erewrite insert_cons_interior by apply lookup_insert_eq.
        rewrite insert_insert_eq. do 2 f_equal. by apply IH. }
  split; [apply Hfirst|].
  rewrite (insert_comm v1 v2 p (p ++ q)); [apply Hfirst|].
  intros Heq. apply Hq. apply (f_equal length) in Heq. rewrite length_app in Heq.
  apply length_zero_iff_nil. lia.
Qed.

(** X1: when the value inserted is found at the path.  It is there
    after the insertion exactly when the path is not empty and no
    shorter path that it continues led to a value before; a value or a
    dictionary at the path itself is replaced. *)
Theorem insert_resolve_iff val path : ∀ dst : gmap string node,
  resolve (insert dst val path) path = Some (Leaf val) ↔
  path ≠ [] ∧ ∀ p q s, path = p ++ q → q ≠ [] → resolve dst p ≠ Some (Leaf s).
Proof.
  induction path as [|k rest IH]; intros dst.
  { split; [done|]. by intros [? _]. }
  destruct rest as [|k' rest].
  { rewrite insert_singleton, resolve_cons, lookup_insert_eq. split; [|done].
    intros _. split; [done|]. intros p q s Hpq Hq.
    destruct p as [|k1 p]; [done|]. destruct p; [|done]. destruct q; [done|done]. }
  rewrite insert_cons_cases. destruct (dst !! k) as [[s|m]|] eqn:Hk.
  - rewrite resolve_cons, Hk. split; [done|]. intros [_ H].
    exfalso. apply (H [k] (k' :: rest) s); [done..|]. by rewrite resolve_cons, Hk.
  - rewrite resolve_cons, lookup_insert_eq. cbn [mbind option_bind].
    change (resolve_node (Interior ?d) ?p) with (resolve d p).
    rewrite IH. split; intros [_ H]; (split; [done|]).
    + intros p q s Hpq Hq. destruct p as [|k1 p]; [done|].
      injection Hpq as <- Hpq. rewrite resolve_cons, Hk. by apply (H p q s).
    + intros p q s Hpq Hq. specialize (H (k :: p) q s). rewrite resolve_cons, Hk in H.
      apply H; [by rewrite Hpq|done].
  - rewrite resolve_cons, lookup_insert_eq. cbn [mbind option_bind].
    change (resolve_node (Interior ?d) ?p) with (resolve d p).
    rewrite IH. split; intros [_ H]; (split; [done|]).
    + intros p q s Hpq Hq. destruct p as [|k1 p]; [done|].
      injection Hpq as <- Hpq. by rewrite resolve_cons, Hk.
    + intros p q s Hpq Hq. destruct p as [|k1 p]; [done|].
      by rewrite resolve_cons, lookup_empty.
Qed.

(** X2: an insertion leaves what is found at a path as it was, unless
    one of the two paths continues the other. *)
Theorem insert_resolve_frame val p : ∀ q (dst : gmap string node),
  ¬ p `prefix_of` q → ¬ q `prefix_of` p →
  resolve (insert dst val p) q = resolve dst q.
Proof.
  induction p as [|k p IH]; intros q dst Hpq Hqp; [done|].
  destruct q as [|k1 q]; [exfalso; apply Hqp, prefix_nil|].
  rewrite !resolve_cons.
  destruct (decide (k1 = k)) as [->|Hne]; [|by rewrite insert_lookup_ne].
  assert (¬ p `prefix_of` q) as Hpq' by (intros H; apply Hpq; by apply prefix_cons).
  assert (¬ q `prefix_of` p) as Hqp' by (intros H; apply Hqp; by apply prefix_cons).
  destruct p as [|k' p]; [exfalso; apply Hpq', prefix_nil|].
  destruct q as [|k1' q]; [exfalso; apply Hqp', prefix_nil|].
  rewrite insert_cons_cases. destruct (dst !! k) as [[s|m]|] eqn:Hk.
  - by rewrite Hk.
  - rewrite lookup_insert_eq. cbn [mbind option_bind].
    change (resolve_node (Interior ?d) ?p) with (resolve d p). by apply IH.
  - rewrite lookup_insert_eq. cbn [mbind option_bind].
    change (resolve_node (Interior ?d) ?p) with (resolve d p). rewrite IH by done.
    by rewrite resolve_cons, lookup_empty.
Qed.

(** ** The text of a dictionary of one path *)




(** ** keyFor *)

Section key_names_facts.
Local Open Scope Z_scope.

Lemma length_append (a b : string) :
  String.length (a +:+ b) = (String.length a + String.length b)%nat.
Proof. induction a as [|c a IH]; [done|]. rewrite append_cons. cbn. by rewrite IH. Qed.

Lemma substring_all (a : string) : String.substring 0 (String.length a) a = a.
Proof. induction a as [|c a IH]; [done|]. cbn. by rewrite IH. Qed.

Lemma substring_append_l (a b : string) :
  String.substring 0 (String.length a) (a +:+ b) = a.
Proof.
  induction a as [|c a IH]; [by destruct b|]. rewrite append_cons. cbn. by rewrite IH.
Qed.

Lemma substring_append_r (a b : string) :
  String.substring (String.length a) (String.length b) (a +:+ b) = b.
Proof.
  induction a as [|c a IH]; [apply substring_all|]. by rewrite append_cons.
Qed.

Lemma HasPrefix_append (p s : string) : strings_HasPrefix (p +:+ s) p = true.
Proof.
  induction p as [|c p IH]; [by destruct s|]. rewrite append_cons. cbn. by rewrite decide_True.
Qed.

Lemma HasSuffix_append (s p : string) : strings_HasSuffix (s +:+ p) p = true.
Proof.
  unfold strings_HasSuffix. rewrite length_append.
  replace (String.length s + String.length p - String.length p)%nat
    with (String.length s) by lia.
  rewrite substring_append_r, String.eqb_refl, andb_true_r.
  apply Nat.leb_le. lia.
Qed.

Lemma TrimPrefix_append (p s : string) : strings_TrimPrefix (p +:+ s) p = s.
Proof.
  unfold strings_TrimPrefix. rewrite HasPrefix_append, length_append.
  replace (String.length p + String.length s - String.length p)%nat
    with (String.length s) by lia.
  apply substring_append_r.
Qed.

Lemma TrimSuffix_append (s p : string) : strings_TrimSuffix (s +:+ p) p = s.
Proof.
  unfold strings_TrimSuffix. rewrite HasSuffix_append, length_append.
  replace (String.length s + String.length p - String.length p)%nat
    with (String.length s) by lia.
  apply substring_append_l.
Qed.

(** *** The digits of strconv.ParseInt *)

Lemma digit_range c d : digit c = Some d → 0 ≤ d.
Proof.
  unfold digit.
  destruct (_ && _) eqn:H1.
  { apply andb_prop in H1 as [H1 _]. apply Z.leb_le in H1. intros [= <-]. lia. }
  destruct ((97 <=? _) && _) eqn:H2; [|done].
  apply andb_prop in H2 as [H2 _]. apply Z.leb_le in H2. intros [= <-]. lia.
Qed.

Lemma hex_value_lower s : ∀ n,
  all_bytes is_hex s = true → 0 ≤ n → n ≤ hex_value s n.
Proof.
  induction s as [|c s IH]; intros n Hs Hn; [done|].
  cbn [all_bytes] in Hs. apply andb_prop in Hs as [Hc Hs]. cbn [hex_value].
  unfold is_hex in Hc. destruct (digit (byte_val c)) as [d|] eqn:Hd; [|done].
  pose proof (digit_range _ _ Hd). cbn [default from_option id].
  trans (16 * n + d); [lia|]. apply IH; [done|lia].
Qed.

(** On hexadecimal digits that write a number of 32 bits, the loop of
    [strconv.ParseUint] returns the number. *)
Lemma ParseUint_loop_value s : ∀ n,
  all_bytes is_hex s = true → 0 ≤ n → hex_value s n < 2 ^ 32 →
  ParseUint_loop 16 (2 ^ 32 - 1) ((2 ^ 64 - 1) / 16 + 1) s n = (hex_value s n, None).
Proof.
  induction s as [|c s IH]; intros n Hs Hn Hv; [done|].
  pose proof (hex_value_lower _ _ Hs Hn) as Hlow.
  cbn [all_bytes] in Hs. apply andb_prop in Hs as [Hc Hs].
  cbn [hex_value] in Hv, Hlow. cbn [ParseUint_loop hex_value].
  unfold is_hex in Hc. destruct (digit (byte_val c)) as [d|] eqn:Hd; [|done].
  cbn [default from_option id fmap option_fmap option_map] in *.
  pose proof (digit_range _ _ Hd). apply Z.ltb_lt in Hc.
  pose proof (hex_value_lower s (16 * n + d) Hs ltac:(lia)).
  assert ((16 <=? d) = false) as -> by (apply Z.leb_gt; lia).
  assert (((2 ^ 64 - 1) / 16 + 1 <=? n) = false) as ->.
  { apply Z.leb_gt. change ((2 ^ 64 - 1) / 16 + 1) with (2 ^ 60). lia. }
  rewrite (Z.mod_small (n * 16)) by lia. rewrite (Z.mod_small (n * 16 + d)) by lia.
  assert ((n * 16 + d <? n * 16) = false) as -> by (apply Z.ltb_ge; lia).
  assert ((2 ^ 32 - 1 <? n * 16 + d) = false) as -> by (apply Z.ltb_ge; lia).
  cbn [orb]. replace (n * 16 + d) with (16 * n + d) by lia. apply IH; [done|lia|done].
Qed.

Lemma ParseUint_loop_not_hex base maxVal cutoff s : ∀ n,
  base ≤ 16 → all_bytes is_hex s = false →
  ParseUint_loop base maxVal cutoff s n = (0, Some ErrSyntax) ∨
  ParseUint_loop base maxVal cutoff s n = (maxVal, Some ErrRange).
Proof.
  intros n Hbase. revert n. induction s as [|c s IH]; intros n Hs; [done|].
  cbn [all_bytes] in Hs. cbn [ParseUint_loop]. unfold is_hex in Hs.
  destruct (digit (byte_val c)) as [d|] eqn:Hd; [|by left].
  cbn [default from_option id fmap option_fmap option_map] in Hs.
  destruct (base <=? d) eqn:Hbd; [by left|].
  destruct (cutoff <=? n); [by right|].
  destruct (_ || _); [by right|].
  apply IH. apply Z.leb_gt in Hbd. apply andb_false_iff in Hs as [Hs|Hs]; [|done].
  apply Z.ltb_ge in Hs. lia.
Qed.

Lemma all_bytes_impl (P Q : ascii → bool) (s : string) :
  (∀ c, P c = true → Q c = true) → all_bytes P s = true → all_bytes Q s = true.
Proof.
  intros HPQ. induction s as [|c s IH]; [done|]. cbn [all_bytes].
  intros [Hc Hs]%andb_prop. by rewrite HPQ, IH.
Qed.

Lemma byte_val_to_byte (x : Z) : byte_val (to_byte x) = x mod 256.
Proof.
  unfold byte_val, to_byte. pose proof (Z.mod_pos_bound x 256 ltac:(lia)).
  rewrite N_ascii_embedding by lia. lia.
Qed.

(** A byte whose high bit is set by the encoder is not the character
    [<]. *)
Lemma to_byte_lor_high (hi x : Z) :
  Z.testbit hi 7 = true → to_byte (Z.lor hi x) ≠ "<"%char.
Proof.
  intros Hhi Heq. apply (f_equal byte_val) in Heq. rewrite byte_val_to_byte in Heq.
  apply (f_equal (λ y, Z.testbit y 7)) in Heq.
  change 256 with (2 ^ 8) in Heq.
  rewrite Z.mod_pow2_bits_low, Z.lor_spec, Hhi in Heq by lia. done.
Qed.

End key_names_facts.

(** ** The decoding of runes *)

Section decode.
Local Open Scope Z_scope.

Lemma lor_lower_l (a b : Z) : 0 ≤ b → a ≤ Z.lor a b.
Proof.
  intros Hb. pose proof (Z.sub_lor_l_same_l b a) as Heq.
  assert (0 ≤ Z.land b (Z.lnot a)) by (apply Z.land_nonneg; by left). lia.
Qed.

Lemma lor_lower_r (a b : Z) : 0 ≤ a → b ≤ Z.lor a b.
Proof. intros Ha. rewrite Z.lor_comm. by apply lor_lower_l. Qed.

Lemma lor_bounds (a b : Z) :
  0 ≤ a → 0 ≤ b → a ≤ Z.lor a b ∧ b ≤ Z.lor a b.
Proof. intros Ha Hb. split; [by apply lor_lower_l|by apply lor_lower_r]. Qed.

Ltac lor_facts t :=
  lazymatch t with
  | Z.lor ?a ?b =>
      lor_facts a; lor_facts b;
      let H := fresh in
      assert (a ≤ Z.lor a b ∧ b ≤ Z.lor a b) as H
        by (apply lor_bounds; Z.div_mod_to_equations; lia)
  | _ => idtac
  end.

Lemma first_non_ascii (s0 : Z) :
  0x80 ≤ s0 →
  utf8_first s0 = 0xF1 ∨
  utf8_first s0 = 0x02 ∧ 0xC2 ≤ s0 < 0xE0 ∨
  utf8_first s0 = 0x13 ∧ s0 = 0xE0 ∨
  utf8_first s0 = 0x03 ∧ 0xE1 ≤ s0 < 0xF0 ∨
  utf8_first s0 = 0x23 ∧ s0 = 0xED ∨
  utf8_first s0 = 0x34 ∧ s0 = 0xF0 ∨
  utf8_first s0 = 0x04 ∧ 0xF1 ≤ s0 < 0xF4 ∨
  utf8_first s0 = 0x44 ∧ s0 = 0xF4.
Proof.
  intros Hs0. unfold utf8_first.
  repeat match goal with
         | |- context [?a <? ?b] => destruct (Z.ltb_spec a b)
         | |- context [?a =? ?b] => destruct (Z.eqb_spec a b)
         end; try lia; auto 10 with lia.
Qed.

Lemma byte_val_range (c : ascii) : 0 ≤ byte_val c < 256.
Proof.
  unfold byte_val. pose proof (N_ascii_bounded c). lia.
Qed.

Lemma substring_0_0 (s : string) : String.substring 0 0 s = EmptyString.
Proof. by destruct s. Qed.

Lemma decode_non_ascii c s r w :
  0x80 ≤ byte_val c → utf8_DecodeRuneInString (String c s) = (r, w) →
  0x80 ≤ r ∧ (1 ≤ w ≤ S (String.length s))%nat ∧
  all_bytes (λ b, 0x80 <=? byte_val b) (String.substring 0 w (String c s)) = true.
Proof.
  intros Hc. unfold utf8_DecodeRuneInString, at_index.
  cbn [String.get fmap option_fmap option_map].
  assert (∀ r w, (RuneError, 1%nat) = (r, w) →
    0x80 ≤ r ∧ (1 ≤ w ≤ S (String.length s))%nat ∧
    all_bytes (λ b, 0x80 <=? byte_val b) (String.substring 0 w (String c s)) = true) as Herr.
  { intros ?? [= <- <-]. split; [done|]. split; [lia|].
    cbn [String.substring]. rewrite substring_0_0. cbn [all_bytes].
    rewrite andb_true_r. by apply Z.leb_le. }
  destruct (first_non_ascii _ Hc) as [H|[[H ?]|[[H ?]|[[H ?]|[[H ?]|[[H ?]|[[H ?]|[H ?]]]]]]]];
    rewrite H.
  all: repeat match goal with
       | |- context [240 <=? ?x] =>
           let v := eval vm_compute in (240 <=? x) in change (240 <=? x) with v
       | |- context [Z.odd ?x] =>
           let v := eval vm_compute in (Z.odd x) in change (Z.odd x) with v
       | |- context [Z.to_nat (Z.land ?x 7)] =>
           let v := eval vm_compute in (Z.to_nat (Z.land x 7)) in
           change (Z.to_nat (Z.land x 7)) with v
       | |- context [utf8_acceptRanges (Z.shiftr ?x 4)] =>
           let v := eval vm_compute in (utf8_acceptRanges (Z.shiftr x 4)) in
           change (utf8_acceptRanges (Z.shiftr x 4)) with v
       end; cbv iota; try (by apply Herr).
  all: destruct s as [|c1 [|c2 [|c3 s]]];
    cbn [String.length Nat.ltb Nat.leb String.get fmap option_fmap option_map fst snd];
    try (by apply Herr).
  all: repeat match goal with
       | |- context [if ?b then _ else _] => destruct b eqn:?
       end; try (by apply Herr).
  all: intros [= <- <-].
  all: repeat match goal with
       | H : _ || _ = false |- _ => apply orb_false_elim in H as [??]
       | H : negb _ = false |- _ => apply negb_false_iff in H
       | H : is_cont _ = true |- _ => apply andb_prop in H as [??]
       | H : (_ <? _) = false |- _ => apply Z.ltb_ge in H
       | H : (_ <=? _) = true |- _ => apply Z.leb_le in H
       end.
  all: (split; [|split; [cbn [String.length]; lia|]]).
  all: try (cbn [String.substring all_bytes]; rewrite ?substring_0_0; cbn [all_bytes];
            repeat (apply andb_true_intro; split); try done; apply Z.leb_le; lia).
  all: change 63 with (Z.ones 6); change 31 with (Z.ones 5); change 15 with (Z.ones 4);
    change 7 with (Z.ones 3); rewrite !Z.land_ones, !Z.shiftl_mul_pow2 by lia.
  all: match goal with |- 128 ≤ ?r => lor_facts r end.
  all: Z.div_mod_to_equations; lia.
Qed.

Lemma substring_prefix (n : nat) : ∀ s : string,
  (n ≤ String.length s)%nat →
  ∃ rest, s = String.substring 0 n s +:+ rest ∧ String.length (String.substring 0 n s) = n.
Proof.
  induction n as [|n IH]; intros s Hn.
  - exists s. by rewrite substring_0_0.
  - destruct s as [|c s]; [cbn in Hn; lia|]. cbn [String.length] in Hn.
    destruct (IH s ltac:(lia)) as (rest & Hs & Hlen). exists rest.
    cbn [String.substring String.length]. rewrite append_cons, <- Hs, Hlen. done.
Qed.

Lemma extend_cons field c pending :
  extend (Some (default EmptyString field +:+ str c)) pending =
  Some (default EmptyString field +:+ String c pending).
Proof.
  destruct pending as [|c' p]; cbn [extend default from_option id]; [done|].
  by rewrite append_assoc.
Qed.

Lemma FieldsFunc_loop_bytes (f : Z → bool) :
  (∀ r, 0x80 ≤ r → f r = false) →
  ∀ s pending rest field,
    s = pending +:+ rest →
    all_bytes (λ b, 0x80 <=? byte_val b) pending = true →
    FieldsFunc_loop f (runes_from (String.length pending) s) (extend field pending) =
    Fields_loop (λ c, f (byte_val c)) s field.
Proof.
  intros Hf. induction s as [|c s IH]; intros pending rest field Hs Hp.
  { destruct pending; [done|]. by rewrite append_cons in Hs. }
  destruct pending as [|c' p].
  - (* a rune starts here *)
    cbn [String.length runes_from extend Fields_loop]. unfold RuneSelf.
    destruct (byte_val c <? 128) eqn:Hc.
    + cbn [FieldsFunc_loop Nat.sub String.substring]. rewrite substring_0_0.
      destruct (f (byte_val c)).
      * destruct field; f_equal; apply (IH EmptyString s None); done.
      * apply (IH EmptyString s (Some _)); done.
    + apply Z.ltb_ge in Hc.
      destruct (utf8_DecodeRuneInString (String c s)) as [r w] eqn:Hdec.
      destruct (decode_non_ascii _ _ _ _ Hc Hdec) as (Hr & Hw & Hall).
      cbn [FieldsFunc_loop]. rewrite (Hf r Hr), (Hf (byte_val c) Hc).
      destruct w as [|w]; [lia|]. cbn [String.substring all_bytes] in Hall |- *.
      apply andb_prop in Hall as [_ Hall].
      destruct (substring_prefix w s ltac:(lia)) as (rest' & Hs' & Hlen).
      replace (S w - 1)%nat with w by lia.
      rewrite <- extend_cons. rewrite <- Hlen at 1.
      apply (IH _ rest'); done.
  - (* inside the encoding of a rune *)
    rewrite append_cons in Hs. injection Hs as <- Hs.
    cbn [all_bytes] in Hp. apply andb_prop in Hp as [Hc Hp]. apply Z.leb_le in Hc.
    cbn [String.length runes_from Fields_loop]. rewrite (Hf _ Hc).
    cbn [extend]. rewrite <- extend_cons. by apply (IH _ rest).
Qed.

(** [strings.FieldsFunc] with a test that holds of no rune from 0x80 on
    splits the text byte by byte. *)
Lemma FieldsFunc_bytes (f : Z → bool) (s : string) :
  (∀ r, 0x80 ≤ r → f r = false) →
  strings_FieldsFunc f s = Fields_loop (λ c, f (byte_val c)) s None.
Proof.
  intros Hf. apply (FieldsFunc_loop_bytes f Hf s EmptyString s None); done.
Qed.

Lemma Fields_loop_no_sep (space : ascii → bool) (a : string) :
  all_bytes (λ c, negb (space c)) a = true →
  ∀ s field, Fields_loop space (a +:+ s) field = Fields_loop space s (extend field a).
Proof.
  induction a as [|c a IH]; intros Ha s field; [done|].
  cbn [all_bytes] in Ha. apply andb_prop in Ha as [Hc Ha]. apply negb_true_iff in Hc.
  rewrite append_cons. cbn [Fields_loop]. rewrite Hc, IH by done.
  by rewrite extend_cons.
Qed.

Lemma Fields_loop_all_sep (space : ascii → bool) (b : string) :
  all_bytes space b = true → Fields_loop space b None = [].
Proof.
  induction b as [|c b IH]; [done|]. cbn [all_bytes Fields_loop].
  intros [-> Hb]%andb_prop. by apply IH.
Qed.

Lemma colon_high r : 0x80 ≤ r → colon r = false.
Proof. intros Hr. apply Z.eqb_neq. lia. Qed.

Lemma space_or_tab_high r : 0x80 ≤ r → space_or_tab r = false.
Proof.
  intros Hr. unfold space_or_tab.
  by rewrite (proj2 (Z.eqb_neq _ _)), (proj2 (Z.eqb_neq _ _)) by lia.
Qed.

End decode.

Section round_trip.
Local Open Scope Z_scope.

(** Bits that do not meet add up. *)
Lemma lor_disjoint (a b k : Z) :
  0 ≤ k → a mod 2 ^ k = 0 → 0 ≤ b < 2 ^ k → Z.lor a b = a + b.
Proof.
  intros Hk Ha Hb. rewrite <- Z.add_lor_land.
  assert (Z.land a b = 0) as ->; [|lia].
  apply Z.bits_inj'. intros n Hn. rewrite Z.land_spec, Z.bits_0.
  destruct (decide (n < k)).
  - rewrite <- (Z.mod_pow2_bits_low a k n) by lia. by rewrite Ha, Z.bits_0.
  - assert (Z.testbit b n = false) as ->; [|by rewrite andb_false_r].
    destruct (decide (b = 0)) as [->|]; [apply Z.bits_0|].
    apply Z.bits_above_log2; [lia|]. apply Z.log2_lt_pow2; [lia|].
    assert (2 ^ k ≤ 2 ^ n) by (apply Z.pow_le_mono_r; lia). lia.
Qed.

Lemma byte_lead (hi x k : Z) :
  0 ≤ k → hi mod 2 ^ k = 0 → 0 ≤ hi → 0 ≤ x < 2 ^ k → hi + x < 256 →
  byte_val (to_byte (Z.lor hi x)) = hi + x.
Proof.
  intros Hk Hhi H0 Hx Hlt. rewrite byte_val_to_byte.
  rewrite (lor_disjoint hi x k) by (done || lia). apply Z.mod_small. lia.
Qed.

Lemma byte_cont (x : Z) :
  byte_val (to_byte (Z.lor 0x80 (Z.land x 0x3F))) = 0x80 + x mod 64.
Proof.
  change 0x3F with (Z.ones 6). rewrite Z.land_ones by lia. change (2 ^ 6) with 64.
  pose proof (Z.mod_pos_bound x 64 ltac:(lia)).
  apply (byte_lead 0x80 _ 6); [lia|reflexivity|lia|change (2 ^ 6) with 64; lia|lia].
Qed.

Ltac arith := Z.div_mod_to_equations; lia.

(** Deciding the comparisons of the decoder on bytes known by their
    bounds. *)
Ltac decide_tests :=
  repeat match goal with
         | |- context [?a <? ?b] =>
             first [ replace (a <? b) with true by (symmetry; apply Z.ltb_lt; arith)
                   | replace (a <? b) with false by (symmetry; apply Z.ltb_ge; arith) ]
         | |- context [?a <=? ?b] =>
             first [ replace (a <=? b) with true by (symmetry; apply Z.leb_le; arith)
                   | replace (a <=? b) with false by (symmetry; apply Z.leb_gt; arith) ]
         | |- context [?a =? ?b] =>
             first [ replace (a =? b) with true by (symmetry; apply Z.eqb_eq; arith)
                   | replace (a =? b) with false by (symmetry; apply Z.eqb_neq; arith) ]
         end.

(** What the tables of the decoder hold at a first byte that is
    known. *)
Ltac eval_tables :=
  repeat match goal with
         | |- context [Z.to_nat (Z.land ?x 7)] =>
             let v := eval vm_compute in (Z.to_nat (Z.land x 7)) in
             change (Z.to_nat (Z.land x 7)) with v
         | |- context [utf8_acceptRanges (Z.shiftr ?x 4)] =>
             let v := eval vm_compute in (utf8_acceptRanges (Z.shiftr x 4)) in
             change (utf8_acceptRanges (Z.shiftr x 4)) with v
         | |- context [Z.odd ?x] =>
             let v := eval vm_compute in (Z.odd x) in change (Z.odd x) with v
         end;
  cbn [fst snd Nat.ltb Nat.leb negb orb andb].

(** The masks and shifts of the decoder as remainders and products. *)
Ltac masks :=
  change 63 with (Z.ones 6); change 31 with (Z.ones 5); change 15 with (Z.ones 4);
  change 7 with (Z.ones 3);
  rewrite ?Z.land_ones, ?Z.shiftl_mul_pow2 by lia;
  change (2 ^ 3) with 8; change (2 ^ 4) with 16; change (2 ^ 5) with 32;
  change (2 ^ 6) with 64; change (2 ^ 12) with 4096; change (2 ^ 18) with 262144.

Lemma decode_two (c0 c1 : ascii) (s : string) (q d : Z) :
  byte_val c0 = 0xC0 + q → 2 ≤ q < 32 →
  byte_val c1 = 0x80 + d → 0 ≤ d < 64 →
  utf8_DecodeRuneInString (String c0 (String c1 s)) = (q * 64 + d, 2%nat).
Proof.
  intros H0 Hq H1 Hd. unfold utf8_DecodeRuneInString, at_index.
  cbn [String.get fmap option_fmap option_map String.length]. rewrite H0, H1.
  unfold utf8_first. decide_tests. eval_tables. decide_tests. eval_tables.
  f_equal. masks.
  replace ((192 + q) mod 32) with q by arith. replace ((128 + d) mod 64) with d by arith.
  apply (lor_disjoint _ _ 6); [lia|arith|change (2 ^ 6) with 64; lia].
Qed.

Lemma decode_three (c0 c1 c2 : ascii) (s : string) (a b c : Z) :
  byte_val c0 = 0xE0 + a → 0 ≤ a < 16 →
  byte_val c1 = 0x80 + b → 0 ≤ b < 64 →
  byte_val c2 = 0x80 + c → 0 ≤ c < 64 →
  (a = 0 → 32 ≤ b) → (a = 13 → b < 32) →
  utf8_DecodeRuneInString (String c0 (String c1 (String c2 s))) =
    (a * 4096 + b * 64 + c, 3%nat).
Proof.
  intros H0 Ha H1 Hb H2 Hc Hlow Hsur. unfold utf8_DecodeRuneInString, at_index.
  cbn [String.get fmap option_fmap option_map String.length]. rewrite H0, H1, H2.
  assert (a = 0 ∨ 1 ≤ a < 13 ∨ a = 13 ∨ 14 ≤ a) as [ -> | [ ? | [ -> | ? ] ] ] by lia.
  all: unfold utf8_first, is_cont; decide_tests; eval_tables; decide_tests; eval_tables.
  all: f_equal; masks.
  all: replace ((128 + b) mod 64) with b by arith; replace ((128 + c) mod 64) with c by arith.
  all: match goal with
       | |- context [(224 + ?x) mod 16] => replace ((224 + x) mod 16) with x by arith
       end.
  all: rewrite (lor_disjoint (_ * 4096) (b * 64) 12)
         by (lia || arith || (change (2 ^ 12) with 4096; lia)).
  all: apply (lor_disjoint _ _ 6); [lia|arith|change (2 ^ 6) with 64; lia].
Qed.

Lemma decode_four (c0 c1 c2 c3 : ascii) (s : string) (a b c d : Z) :
  byte_val c0 = 0xF0 + a → 0 ≤ a ≤ 4 →
  byte_val c1 = 0x80 + b → 0 ≤ b < 64 →
  byte_val c2 = 0x80 + c → 0 ≤ c < 64 →
  byte_val c3 = 0x80 + d → 0 ≤ d < 64 →
  (a = 0 → 16 ≤ b) → (a = 4 → b < 16) →
  utf8_DecodeRuneInString (String c0 (String c1 (String c2 (String c3 s)))) =
    (a * 262144 + b * 4096 + c * 64 + d, 4%nat).
Proof.
  intros H0 Ha H1 Hb H2 Hc H3 Hd Hlow Hmax. unfold utf8_DecodeRuneInString, at_index.
  cbn [String.get fmap option_fmap option_map String.length]. rewrite H0, H1, H2, H3.
  assert (a = 0 ∨ 1 ≤ a < 4 ∨ a = 4) as [ -> | [ ? | -> ] ] by lia.
  all: unfold utf8_first, is_cont; decide_tests; eval_tables; decide_tests; eval_tables.
  all: f_equal; masks.
  all: replace ((128 + b) mod 64) with b by arith; replace ((128 + c) mod 64) with c by arith;
    replace ((128 + d) mod 64) with d by arith.
  all: match goal with
       | |- context [(240 + ?x) mod 8] => replace ((240 + x) mod 8) with x by arith
       end.
  all: rewrite (lor_disjoint (_ * 262144) (b * 4096) 18)
         by (lia || arith || (change (2 ^ 18) with 262144; lia)).
  all: rewrite (lor_disjoint _ (c * 64) 12)
         by (lia || arith || (change (2 ^ 12) with 4096; lia)).
  all: apply (lor_disjoint _ _ 6); [lia|arith|change (2 ^ 6) with 64; lia].
Qed.

Lemma runes_from_append (s t : string) :
  runes_from (String.length s) (s +:+ t) = runes t.
Proof. induction s as [|c s IH]; [done|]. rewrite append_cons. apply IH. Qed.

(** A text that opens with the encoding of a rune. *)
Lemma runes_first (c : ascii) (s t : string) (r : Z) :
  0x80 ≤ byte_val c →
  utf8_DecodeRuneInString (String c s +:+ t) = (r, S (String.length s)) →
  runes (String c s +:+ t) = (r, S (String.length s), String c s +:+ t) :: runes t.
Proof.
  intros Hc Hdec. rewrite append_cons in Hdec |- *. unfold runes at 1.
  cbn [runes_from]. unfold RuneSelf.
  replace (byte_val c <? 128) with false by (symmetry; apply Z.ltb_ge; lia).
  rewrite Hdec. f_equal. replace (S (String.length s) - 1)%nat with (String.length s) by lia.
  apply runes_from_append.
Qed.

(** The runes of a text that opens with the encoding of a rune: the
    rune itself, or U+FFFD when the number is a surrogate or is above
    U+10FFFF, and the runes of the rest. *)
Lemma runes_string_of_rune_append (r : Z) (t : string) :
  0 ≤ r < 2 ^ 31 →
  runes (string_of_rune r +:+ t) =
    (if utf8_ValidRune r then r else RuneError,
     String.length (string_of_rune r), string_of_rune r +:+ t) :: runes t.
Proof.
  intros Hr. unfold string_of_rune, utf8_AppendRune. cbv zeta.
  rewrite (Z.mod_small r (2 ^ 32)) by lia.
  unfold utf8_ValidRune, surrogateMin, surrogateMax, MaxRune, str.
  rewrite !Z.shiftr_div_pow2 by lia.
  change (2 ^ 6) with 64; change (2 ^ 12) with 4096; change (2 ^ 18) with 262144.
  destruct (Z.leb_spec r 0x7F) as [H1|H1].
  { decide_tests. cbn [orb andb]. rewrite append_cons, append_nil_l.
    unfold runes at 1. cbn [runes_from].
    rewrite byte_val_to_byte, (Z.mod_small r 256) by lia. unfold RuneSelf.
    decide_tests. done. }
  assert (byte_val (to_byte (Z.lor 128 (Z.land r 63))) = 0x80 + r mod 64) as Hc0
    by apply byte_cont.
  assert (byte_val (to_byte (Z.lor 128 (Z.land (r / 64) 63))) = 0x80 + (r / 64) mod 64) as Hc1
    by apply byte_cont.
  assert (byte_val (to_byte (Z.lor 128 (Z.land (r / 4096) 63))) = 0x80 + (r / 4096) mod 64)
    as Hc2 by apply byte_cont.
  destruct (Z.leb_spec r 0x7FF) as [H2|H2].
  { decide_tests. cbn [orb andb].
    assert (byte_val (to_byte (Z.lor 192 (r / 64))) = 0xC0 + r / 64) as Hb0
      by (apply (byte_lead 0xC0 _ 5); [lia|reflexivity|lia|change (2 ^ 5) with 32; arith|arith]).
    apply runes_first; [arith|]. rewrite !append_cons, append_nil_l.
    rewrite (decode_two _ _ _ (r / 64) (r mod 64)) by (done || arith).
    cbn [String.length]. f_equal. arith. }
  destruct ((r <? 0xD800) || ((0xDFFF <? r) && (r <=? 0xFFFF))) eqn:H3.
  { assert (r < 0xD800 ∨ 0xDFFF < r ≤ 0xFFFF) as Hrange.
    { apply orb_prop in H3 as [H3|[H3 H3']%andb_prop]; [left|right].
      - by apply Z.ltb_lt.
      - apply Z.ltb_lt in H3. apply Z.leb_le in H3'. lia. }
    assert (byte_val (to_byte (Z.lor 224 (r / 4096))) = 0xE0 + r / 4096) as Hb0
      by (apply (byte_lead 0xE0 _ 4); [lia|reflexivity|lia|change (2 ^ 4) with 16; arith|arith]).
    replace ((0 <=? r) && (r <? 55296) || (57343 <? r) && (r <=? 1114111)) with true.
    2:{ symmetry. apply orb_true_iff. destruct Hrange; [left|right];
          apply andb_true_intro; split; (apply Z.leb_le || apply Z.ltb_lt); lia. }
    apply runes_first; [arith|]. rewrite !append_cons, append_nil_l.
    rewrite (decode_three _ _ _ _ (r / 4096) ((r / 64) mod 64) (r mod 64))
      by (done || arith).
    cbn [String.length]. f_equal. arith. }
  apply orb_false_elim in H3 as [H3 H3']. apply Z.ltb_ge in H3.
  destruct ((0xFFFF <? r) && (r <=? 0x10FFFF)) eqn:H4.
  { apply andb_prop in H4 as [H4 H4']. apply Z.ltb_lt in H4. apply Z.leb_le in H4'.
    assert (byte_val (to_byte (Z.lor 240 (r / 262144))) = 0xF0 + r / 262144) as Hb0
      by (apply (byte_lead 0xF0 _ 4); [lia|reflexivity|lia|change (2 ^ 4) with 16; arith|arith]).
    replace ((0 <=? r) && (r <? 55296) || (57343 <? r) && (r <=? 1114111)) with true.
    2:{ symmetry. apply orb_true_iff. right.
        apply andb_true_intro; split; (apply Z.leb_le || apply Z.ltb_lt); lia. }
    apply runes_first; [arith|]. rewrite !append_cons, append_nil_l.
    rewrite (decode_four _ _ _ _ _ (r / 262144) ((r / 4096) mod 64) ((r / 64) mod 64)
               (r mod 64)) by (done || arith).
    cbn [String.length]. f_equal. arith. }
  replace ((0 <=? r) && (r <? 55296) || (57343 <? r) && (r <=? 1114111)) with false.
  2:{ symmetry. apply orb_false_intro.
      - apply andb_false_iff. right. apply Z.ltb_ge. lia.
      - apply andb_false_iff in H3' as [H3'|H3'], H4 as [H4|H4];
          try apply Z.ltb_ge in H3'; try apply Z.leb_gt in H3';
          try apply Z.ltb_ge in H4; try apply Z.leb_gt in H4;
          apply andb_false_iff; ((left; apply Z.ltb_ge; lia) || (right; apply Z.leb_gt; lia)). }
  apply runes_first; [done|]. rewrite !append_cons, append_nil_l.
  by rewrite (decode_three _ _ _ _ 15 63 61).
Qed.

Lemma runes_string_of_rune (r : Z) :
  0 ≤ r < 2 ^ 31 →
  runes (string_of_rune r) =
    [(if utf8_ValidRune r then r else RuneError,
      String.length (string_of_rune r), string_of_rune r)].
Proof.
  intros Hr. pose proof (runes_string_of_rune_append r EmptyString Hr) as Happ.
  by rewrite append_nil_r in Happ.
Qed.

(** *** The runes that the decoder returns *)

Lemma ValidRune_intro (r : Z) :
  0 ≤ r < 0xD800 ∨ 0xDFFF < r ≤ 0x10FFFF → utf8_ValidRune r = true.
Proof.
  intros Hr. unfold utf8_ValidRune, surrogateMin, surrogateMax, MaxRune.
  apply orb_true_iff. destruct Hr; [left|right];
    apply andb_true_intro; split; (apply Z.leb_le || apply Z.ltb_lt); lia.
Qed.

Lemma ValidRune_elim (r : Z) :
  utf8_ValidRune r = true → 0 ≤ r < 0xD800 ∨ 0xDFFF < r ≤ 0x10FFFF.
Proof.
  unfold utf8_ValidRune, surrogateMin, surrogateMax, MaxRune.
  intros [[H1 H2]%andb_prop|[H1 H2]%andb_prop]%orb_prop; [left|right].
  - apply Z.leb_le in H1. apply Z.ltb_lt in H2. lia.
  - apply Z.ltb_lt in H1. apply Z.leb_le in H2. lia.
Qed.

(** The first byte of an encoding of two bytes or more, by the entry
    of the table [first] that it has. *)
Lemma first_leading (s0 : Z) :
  0x80 ≤ s0 →
  utf8_first s0 = 0xF1 ∨
  utf8_first s0 = 0x02 ∧ 0xC2 ≤ s0 < 0xE0 ∨
  utf8_first s0 = 0x13 ∧ s0 = 0xE0 ∨
  utf8_first s0 = 0x03 ∧ (0xE1 ≤ s0 < 0xED ∨ 0xED < s0 < 0xF0) ∨
  utf8_first s0 = 0x23 ∧ s0 = 0xED ∨
  utf8_first s0 = 0x34 ∧ s0 = 0xF0 ∨
  utf8_first s0 = 0x04 ∧ 0xF1 ≤ s0 < 0xF4 ∨
  utf8_first s0 = 0x44 ∧ s0 = 0xF4.
Proof.
  intros Hs0. unfold utf8_first.
  repeat match goal with
         | |- context [?a <? ?b] => destruct (Z.ltb_spec a b)
         | |- context [?a =? ?b] => destruct (Z.eqb_spec a b)
         end; try lia; auto 10 with lia.
Qed.

(** The decoder returns a code point: never a surrogate, never a
    number above U+10FFFF. *)
Lemma decode_valid c s r w :
  0x80 ≤ byte_val c → utf8_DecodeRuneInString (String c s) = (r, w) →
  utf8_ValidRune r = true.
Proof.
  intros Hc. unfold utf8_DecodeRuneInString, at_index.
  cbn [String.get fmap option_fmap option_map].
  assert (∀ r w, (RuneError, 1%nat) = (r, w) → utf8_ValidRune r = true) as Herr
    by (by intros ?? [= <- <-]).
  pose proof (byte_val_range c) as Hb0.
  destruct (first_leading _ Hc) as [H|[[H ?]|[[H ?]|[[H ?]|[[H ?]|[[H ?]|[[H ?]|[H ?]]]]]]]];
    rewrite H.
  all: repeat match goal with
       | |- context [240 <=? ?x] =>
           let v := eval vm_compute in (240 <=? x) in change (240 <=? x) with v
       | |- context [Z.odd ?x] =>
           let v := eval vm_compute in (Z.odd x) in change (Z.odd x) with v
       | |- context [Z.to_nat (Z.land ?x 7)] =>
           let v := eval vm_compute in (Z.to_nat (Z.land x 7)) in
           change (Z.to_nat (Z.land x 7)) with v
       | |- context [utf8_acceptRanges (Z.shiftr ?x 4)] =>
           let v := eval vm_compute in (utf8_acceptRanges (Z.shiftr x 4)) in
           change (utf8_acceptRanges (Z.shiftr x 4)) with v
       end; cbv iota; try (by apply Herr).
  all: destruct s as [|c1 [|c2 [|c3 s]]];
    cbn [String.length Nat.ltb Nat.leb String.get fmap option_fmap option_map fst snd];
    try (by apply Herr).
  all: repeat match goal with
       | |- context [if ?b then _ else _] => destruct b eqn:?
       end; try (by apply Herr).
  all: intros [= <- <-].
  all: repeat match goal with
       | H : _ || _ = false |- _ => apply orb_false_elim in H as [??]
       | H : negb _ = false |- _ => apply negb_false_iff in H
       | H : is_cont _ = true |- _ => apply andb_prop in H as [??]
       | H : (_ <? _) = false |- _ => apply Z.ltb_ge in H
       | H : (_ <=? _) = true |- _ => apply Z.leb_le in H
       end.
  all: masks.
  all: try rewrite (lor_disjoint (_ * 262144) (_ * 4096) 18)
         by (lia || arith || (change (2 ^ 18) with 262144; arith)).
  all: try rewrite (lor_disjoint _ (_ * 64) 12)
         by (lia || arith || (change (2 ^ 12) with 4096; arith)).
  all: rewrite (lor_disjoint _ _ 6) by (lia || arith || (change (2 ^ 6) with 64; arith)).
  all: apply ValidRune_intro; arith.
Qed.

End round_trip.

(** ** keyFor *)

Section keyFor_facts.
Local Open Scope Z_scope.
Variable keysymdef : gmap string Z.

(** The key of a rune is never a name between angle brackets. *)
Lemma string_of_rune_no_key_name (r : Z) : is_key_name (string_of_rune r) = false.
Proof.
  unfold is_key_name, string_of_rune, utf8_AppendRune.
  repeat match goal with |- context [if ?b then _ else _] => destruct b end;
    cbn [strings_HasPrefix str];
    try (rewrite decide_False by (by apply to_byte_lor_high); done).
  - destruct (decide (to_byte r = "<"%char)) as [->|]; done.
  - done.
Qed.

Lemma is_hex_no_sign (c : ascii) :
  is_hex c = true → c ≠ "+"%char ∧ c ≠ "-"%char.
Proof. intros Hc. split; intros ->; vm_compute in Hc; discriminate Hc. Qed.

(** X6: a name [<U...>] whose digits are hexadecimal, in either case,
    and write a number below 2^31 has for key the encoding of the rune
    with this number, whatever the two tables hold, and the key reads
    back as this one rune; a number that is no code point gives
    U+FFFD. *)
Theorem keyFor_code_point (user : gmap string Z) (digits : string) :
  digits ≠ EmptyString → all_bytes is_hex digits = true → hex_value digits 0 < 2 ^ 31 →
  keyFor keysymdef ("<U" +:+ digits +:+ ">") user =
    inl (string_of_rune (hex_value digits 0)) ∧
  runes (string_of_rune (hex_value digits 0)) =
    [(if utf8_ValidRune (hex_value digits 0) then hex_value digits 0 else RuneError,
      String.length (string_of_rune (hex_value digits 0)),
      string_of_rune (hex_value digits 0))].
Proof.
  intros Hne Hhex Hv.
  pose proof (hex_value_lower digits 0 Hhex ltac:(lia)) as Hlow.
  split; [|by apply runes_string_of_rune].
  unfold keyFor.
  rewrite HasPrefix_append, TrimPrefix_append, TrimSuffix_append.
  pose proof (hex_value_lower digits 0 Hhex ltac:(lia)) as Hpos.
  pose proof (ParseUint_loop_value digits 0 Hhex ltac:(lia) ltac:(lia)) as Hloop.
  destruct digits as [|c rest]; [done|]. unfold strconv_ParseInt.
  cbn [all_bytes] in Hhex. apply andb_prop in Hhex as [Hc _].
  apply is_hex_no_sign in Hc as [Hplus Hminus].
  rewrite !bool_decide_eq_false_2 by done. cbn [orb negb andb].
  unfold strconv_ParseUint. rewrite Hloop.
  assert ((2 ^ (32 - 1) <=? hex_value (String c rest) 0) = false) as ->
    by (apply Z.leb_gt; lia).
  do 2 f_equal. unfold rune_of_int64. rewrite Z.mod_small by lia. lia.
Qed.

(** X7: every name that opens with [<U] is read as a number: when one of
    the characters up to the closing bracket is no hexadecimal digit
    and no sign, [keyFor] returns the error of [strconv.ParseInt],
    whatever the two tables hold at the name. *)
Theorem keyFor_U_prefix_not_looked_up (user : gmap string Z) (name : string) :
  strings_HasPrefix name "<U" = true →
  all_bytes (λ c, is_hex c || bool_decide (c = "+"%char) || bool_decide (c = "-"%char))
    (strings_TrimSuffix (strings_TrimPrefix name "<U") ">") = false →
  ∃ cause,
    keyFor keysymdef name user =
      inr (NumError "ParseInt" (strings_TrimSuffix (strings_TrimPrefix name "<U") ">") cause).
Proof.
  intros Hpre Hbad. unfold keyFor. rewrite Hpre.
  destruct (strings_TrimSuffix _ _) as [|c rest] eqn:Hbody; [done|].
  unfold strconv_ParseInt.
  set (digits := if bool_decide (c = "+"%char) || bool_decide (c = "-"%char)
                 then rest else String c rest).
  assert (all_bytes is_hex digits = false) as Hdigits.
  { apply not_true_is_false. intros Hall. apply not_true_iff_false in Hbad. apply Hbad.
    subst digits. destruct (_ || _) eqn:Hsign.
    - cbn [all_bytes]. rewrite <- orb_assoc, Hsign, orb_true_r. cbn [andb].
      revert Hall. apply all_bytes_impl. intros c' ->. done.
    - revert Hall. apply all_bytes_impl. intros c' ->. done. }
  assert (∃ c' rest', digits = String c' rest') as (c' & rest' & Hd).
  { destruct digits; [done|by eauto]. }
  unfold strconv_ParseUint. rewrite Hd, <- Hd.
  destruct (ParseUint_loop_not_hex 16 (2 ^ 32 - 1) ((2 ^ 64 - 1) / 16 + 1) digits 0
              ltac:(lia) Hdigits) as [-> | ->].
  - by eexists.
  - destruct (bool_decide (c = "-"%char)); by eexists.
Qed.

(** X8: [keyFor] reads the two tables as one, in which what
    [keysymdef] holds at a name hides what [user] holds there. *)
Theorem keyFor_keysymdef_first (user : gmap string Z) (name : string) :
  keyFor keysymdef name user = keyFor (keysymdef ∪ user) name ∅.
Proof.
  unfold keyFor. destruct (strings_HasPrefix name "<U"); [done|].
  rewrite lookup_union, lookup_empty.
  by destruct (keysymdef !! name), (user !! name).
Qed.

(** The second loop of [buildDict] over the path finds a name between
    angle brackets exactly when the first loop has left one there: a
    name for which [keyFor] failed. *)
Lemma resolve_keys_known (user : gmap string Z) (path : list string) :
  existsb is_key_name (resolve_keys keysymdef user path) =
  existsb (λ p, match keyFor keysymdef p user with
                | inl _ => false
                | inr _ => is_key_name p
                end) path.
Proof.
  unfold resolve_keys. induction path as [|p path IH]; [done|].
  cbn [fmap list_fmap existsb]. fold (@fmap list _ string string). rewrite <- IH.
  f_equal. unfold keyFor.
  repeat case_match; simplify_eq; try done; apply string_of_rune_no_key_name.
Qed.

End keyFor_facts.

(** ** buildDict *)

Section buildDict_lines.
Local Open Scope Z_scope.
Variable White_Space : Z → bool.
Variable strconv_Unquote : string → option string.
Variable keysymdef : gmap string Z.

Lemma HasPrefix_cons (s : string) c :
  strings_HasPrefix s (str c) = true → ∃ s', s = String c s'.
Proof.
  destruct s as [|c' s]; [done|]. cbn. destruct (decide (c' = c)) as [->|]; [|done].
  by eexists.
Qed.

(** The parts of a line that has one colon, or more in a row, and
    nothing after: there is one. *)
Lemma parts_one (a b : string) :
  strings_HasPrefix (a +:+ b) "<" = true →
  all_bytes (λ c, negb (colon (byte_val c))) a = true →
  all_bytes (λ c, colon (byte_val c)) b = true →
  strings_FieldsFunc colon (a +:+ b) = [a].
Proof.
  intros Hpre Ha Hb. rewrite FieldsFunc_bytes by apply colon_high.
  rewrite Fields_loop_no_sep by done.
  destruct a as [|c a].
  { rewrite append_nil_l in Hpre. apply HasPrefix_cons in Hpre as [b' ->].
    cbn [all_bytes] in Hb. by apply andb_prop in Hb as [? _]. }
  cbn [extend default from_option id]. rewrite append_nil_l.
  destruct b as [|c' b]; [done|]. cbn [all_bytes] in Hb.
  apply andb_prop in Hb as [Hc Hb]. cbn [Fields_loop]. rewrite Hc.
  by rewrite Fields_loop_all_sep.
Qed.

(** X10: a line that opens with [<] and has no second part, for want
    of a colon or of text after the colons, ends the process. *)
Theorem buildDict_line_one_part (user : gmap string Z) mapping (a b : string) :
  strings_HasPrefix (a +:+ b) "<" = true →
  all_bytes (λ c, negb (colon (byte_val c))) a = true →
  all_bytes (λ c, colon (byte_val c)) b = true →
  buildDict_line White_Space strconv_Unquote keysymdef user mapping (a +:+ b) =
    Fatal ("unexpected number of parts: " +:+ a +:+ b).
Proof.
  intros Hpre Ha Hb. unfold buildDict_line, line_entry. rewrite Hpre. cbn [negb].
  by rewrite parts_one.
Qed.

Lemma space_or_tab_no_colon (s : string) :
  all_bytes (λ c, space_or_tab (byte_val c)) s = true →
  all_bytes (λ c, negb (colon (byte_val c))) s = true.
Proof.
  apply all_bytes_impl. intros c Hc. apply negb_true_iff, Z.eqb_neq.
  unfold space_or_tab in Hc. apply orb_prop in Hc as [Hc|Hc]; apply Z.eqb_eq in Hc; lia.
Qed.

Lemma all_bytes_append (P : ascii → bool) (a b : string) :
  all_bytes P (a +:+ b) = all_bytes P a && all_bytes P b.
Proof.
  induction a as [|c a IH]; [done|]. rewrite append_cons. cbn [all_bytes].
  by rewrite IH, andb_assoc.
Qed.

Lemma HasPrefix_append_l (a b p : string) :
  strings_HasPrefix a p = true → strings_HasPrefix (a +:+ b) p = true.
Proof.
  revert a. induction p as [|c p IH]; intros a; [by destruct a, b|].
  destruct a as [|c' a]; [done|]. rewrite append_cons. cbn [strings_HasPrefix].
  destruct (decide (c' = c)); [apply IH|done].
Qed.

(** The two parts of a line with one colon after which no other
    follows. *)
Lemma parts_two (a v : string) :
  strings_HasPrefix a "<" = true →
  all_bytes (λ c, negb (colon (byte_val c))) a = true →
  all_bytes (λ c, negb (colon (byte_val c))) v = true →
  v ≠ EmptyString →
  strings_FieldsFunc colon (a +:+ ":" +:+ v) = [a; v].
Proof.
  intros Hpre Ha Hv Hne. rewrite FieldsFunc_bytes by apply colon_high.
  rewrite Fields_loop_no_sep by done.
  apply HasPrefix_cons in Hpre as [a' ->]. cbn [extend default from_option id].
  rewrite append_nil_l, append_cons, append_nil_l. cbn [Fields_loop].
  change (colon (byte_val ":")) with true. cbv iota. f_equal.
  rewrite <- (append_nil_r v) at 1. rewrite Fields_loop_no_sep by done.
  destruct v; [done|]. cbn [extend default from_option id Fields_loop].
  by rewrite append_nil_l.
Qed.

(** X11: a line whose second part is made of spaces and tabs panics:
    the first of its fields is asked for and it has none. *)
Theorem buildDict_line_blank_value (user : gmap string Z) mapping (a blanks : string) :
  strings_HasPrefix a "<" = true →
  all_bytes (λ c, negb (colon (byte_val c))) a = true →
  all_bytes (λ c, space_or_tab (byte_val c)) blanks = true →
  blanks ≠ EmptyString →
  buildDict_line White_Space strconv_Unquote keysymdef user mapping
    (a +:+ ":" +:+ blanks) =
    Panics "index out of range [0] with length 0".
Proof.
  intros Hpre Ha Hb Hne. unfold buildDict_line, line_entry.
  rewrite HasPrefix_append_l by done. cbn [negb].
  rewrite parts_two by auto using space_or_tab_no_colon.
  rewrite FieldsFunc_bytes by apply space_or_tab_high.
  by rewrite Fields_loop_all_sep.
Qed.

Lemma Fields_loop_skip_sep (space : ascii → bool) (b s : string) :
  all_bytes space b = true → Fields_loop space (b +:+ s) None = Fields_loop space s None.
Proof.
  induction b as [|c b IH]; [done|]. cbn [all_bytes]. intros [Hc Hb]%andb_prop.
  rewrite append_cons. cbn [Fields_loop]. rewrite Hc. by apply IH.
Qed.

(** The first field of the second part: the text up to the first space
    or tab, after the spaces and tabs that open the part. *)
Lemma value_field (blanks quoted comment : string) :
  all_bytes (λ c, space_or_tab (byte_val c)) blanks = true →
  quoted ≠ EmptyString →
  all_bytes (λ c, negb (space_or_tab (byte_val c))) quoted = true →
  match comment with
  | EmptyString => true
  | String c _ => space_or_tab (byte_val c)
  end = true →
  ∃ fields,
    strings_FieldsFunc space_or_tab (blanks +:+ quoted +:+ comment) = quoted :: fields.
Proof.
  intros Hb Hne Hq Hc. rewrite FieldsFunc_bytes by apply space_or_tab_high.
  rewrite Fields_loop_skip_sep, Fields_loop_no_sep by done.
  destruct quoted as [|c q]; [done|]. cbn [extend default from_option id].
  rewrite append_nil_l. destruct comment as [|c' rest]; [by eexists|].
  cbn [Fields_loop]. rewrite Hc. by eexists.
Qed.

(** X9: a line of the usual form: key names, a colon, the value between
    quotes and perhaps a comment, with no colon but the one.  The value
    is put at the path of the keys of the names, a name that [keyFor]
    does not know staying as it is; the line is passed over exactly
    when such a name is between angle brackets. *)
Theorem buildDict_line_entry (user : gmap string Z) mapping
    (names blanks quoted comment val : string) :
  strings_HasPrefix names "<" = true →
  all_bytes (λ c, negb (colon (byte_val c))) (names +:+ quoted +:+ comment) = true →
  all_bytes (λ c, space_or_tab (byte_val c)) blanks = true →
  quoted ≠ EmptyString →
  all_bytes (λ c, negb (space_or_tab (byte_val c))) quoted = true →
  match comment with
  | EmptyString => true
  | String c _ => space_or_tab (byte_val c)
  end = true →
  strconv_Unquote quoted = Some val →
  buildDict_line White_Space strconv_Unquote keysymdef user mapping
    (names +:+ ":" +:+ blanks +:+ quoted +:+ comment) =
    Returns
      (if existsb (λ p, match keyFor keysymdef p user with
                        | inl _ => false
                        | inr _ => is_key_name p
                        end) (strings_Fields White_Space names)
       then mapping
       else insert mapping val
              (resolve_keys keysymdef user (strings_Fields White_Space names))).
Proof.
  intros Hpre Hcolon Hb Hne Hq Hc Hval. unfold buildDict_line, line_entry.
  rewrite HasPrefix_append_l by done. cbn [negb].
  rewrite !all_bytes_append in Hcolon.
  apply andb_prop in Hcolon as [Hn [Hqc Hcc]%andb_prop].
  rewrite parts_two; [|done..| |].
  - destruct (value_field blanks quoted comment) as [fields ->]; [done..|].
    rewrite Hval, resolve_keys_known. by destruct (existsb _ _).
  - rewrite !all_bytes_append, Hqc, Hcc, space_or_tab_no_colon by done. done.
  - destruct blanks; [by destruct quoted|done].
Qed.

Lemma buildDict_line_Returns (user : gmap string Z) mapping text mapping' :
  buildDict_line White_Space strconv_Unquote keysymdef user mapping text = Returns mapping' →
  mapping' = mapping ∨ ∃ val path, mapping' = insert mapping val path.
Proof.
  unfold buildDict_line. destruct (line_entry _ _) as [[[path val]|]| |]; intros [= <-]; eauto.
Qed.

(** X13: the dictionary that [buildDict] returns holds no empty
    dictionary below its top: there is a value under every key. *)
Theorem buildDict_populated (user : gmap string Z) (lines : list string) dict :
  buildDict White_Space strconv_Unquote keysymdef user lines = Returns dict →
  ∀ k c, dict !! k = Some c → populated c.
Proof.
  unfold buildDict.
  assert (∀ k c, (∅ : gmap string node) !! k = Some c → populated c) as Hempty
    by (intros k c; by rewrite lookup_empty).
  revert Hempty. generalize (∅ : gmap string node).
  induction lines as [|text lines IH]; intros mapping Hm; cbn [buildDict_loop].
  { by intros [= <-]. }
  destruct (buildDict_line _ _ _ _ _ _) as [mapping'| |] eqn:Hline; [|done..].
  apply IH. apply buildDict_line_Returns in Hline as [->|(val & path & ->)]; [done|].
  by apply insert_populated.
Qed.

Lemma buildDict_line_other (user : gmap string Z) mapping text :
  strings_HasPrefix text "<" = false →
  buildDict_line White_Space strconv_Unquote keysymdef user mapping text = Returns mapping.
Proof. intros Hp. unfold buildDict_line, line_entry. by rewrite Hp. Qed.

(** X12: the lines that do not open with [<], comments and empty
    lines among them, can be taken out of the source: what [buildDict]
    returns, and whether it returns, is the same. *)
Theorem buildDict_other_lines (user : gmap string Z) (lines : list string) :
  buildDict White_Space strconv_Unquote keysymdef user
    (List.filter (λ text, strings_HasPrefix text "<") lines) =
  buildDict White_Space strconv_Unquote keysymdef user lines.
Proof.
  unfold buildDict. generalize (∅ : gmap string node).
  induction lines as [|text lines IH]; intros mapping; [done|].
  cbn [List.filter buildDict_loop].
  destruct (strings_HasPrefix text "<") eqn:Hp.
  - cbn [buildDict_loop]. destruct (buildDict_line _ _ _ _ _ _); [apply IH|done..].
  - rewrite buildDict_line_other by done. apply IH.
Qed.

(** When every line returns, the loop is the sequence of the
    insertions that the lines ask for. *)
Lemma buildDict_loop_entries (user : gmap string Z) (lines : list string) : ∀ mapping,
  Forall (λ text, ∃ entry,
            line_entry White_Space strconv_Unquote keysymdef user text = Returns entry)
    lines →
  buildDict_loop White_Space strconv_Unquote keysymdef user mapping lines =
    Returns (insert_all mapping (entries White_Space strconv_Unquote keysymdef user lines)).
Proof.
  induction lines as [|text lines IH]; intros mapping Hall; [done|].
  apply Forall_cons in Hall as [[entry Hentry] Hall].
  cbn [buildDict_loop]. unfold entries, buildDict_line. cbn [omap list_omap].
  rewrite Hentry. destruct entry as [[path val]|].
  - rewrite IH by done. done.
  - by rewrite IH.
Qed.

(** X14: the order of the lines of the source has no part in the
    dictionary, when every line returns and no two lines have the same
    path of keys: with the lines in another order [buildDict] returns
    the same dictionary, the one that the insertions of the lines
    build. *)
Theorem buildDict_line_order (user : gmap string Z) (lines1 lines2 : list string) :
  Forall (λ text, ∃ entry,
            line_entry White_Space strconv_Unquote keysymdef user text = Returns entry)
    lines1 →
  NoDup (entries White_Space strconv_Unquote keysymdef user lines1).*1 →
  lines1 ≡ₚ lines2 →
  buildDict White_Space strconv_Unquote keysymdef user lines1 =
    Returns (insert_all ∅ (entries White_Space strconv_Unquote keysymdef user lines1)) ∧
  buildDict White_Space strconv_Unquote keysymdef user lines2 =
    buildDict White_Space strconv_Unquote keysymdef user lines1.
Proof.
  intros Hall Hnd Hperm. unfold buildDict.
  rewrite (buildDict_loop_entries user lines1) by done. split; [done|].
  rewrite (buildDict_loop_entries user lines2) by (by rewrite <- Hperm).
  f_equal. symmetry. apply insert_all_Permutation; [|done].
  unfold entries. by rewrite Hperm.
Qed.

Lemma buildDict_loop_Returns (user : gmap string Z) (lines : list string) :
  ∀ mapping dict,
    buildDict_loop White_Space strconv_Unquote keysymdef user mapping lines = Returns dict →
    Forall (λ text, ∃ entry,
              line_entry White_Space strconv_Unquote keysymdef user text = Returns entry)
      lines.
Proof.
  induction lines as [|text lines IH]; intros mapping dict; [by constructor|].
  cbn [buildDict_loop]. unfold buildDict_line.
  destruct (line_entry _ _ _ _ text) as [[[path val]|]| |] eqn:Hentry; [..|done|done];
    intros Hloop; (constructor; [by eexists|by eapply IH]).
Qed.

(** X4: the map that [buildDict] makes and fills in place.  When
    [buildDict] returns a dictionary, the calls of [insert] that it
    has made on the map, with the paths and values of its lines, have
    all returned, and the heap holds the dictionary at the reference
    of the map: the loop on dictionaries and the loop on the heap
    agree. *)
Theorem buildDict_in_place (user : gmap string Z) (lines : list string) dict :
  buildDict White_Space strconv_Unquote keysymdef user lines = Returns dict →
  dict = insert_all ∅ (entries White_Space strconv_Unquote keysymdef user lines) ∧
  ∃ h' fp',
    Ref.insert_all (Ref.make ∅).2 (Some (Ref.make ∅).1)
      (entries White_Space strconv_Unquote keysymdef user lines) = Some h' ∧
    Ref.repr h' (Ref.VMap (Some (Ref.make ∅).1)) (Interior dict) fp'.
Proof.
  intros Hb.
  assert (dict = insert_all ∅ (entries White_Space strconv_Unquote keysymdef user lines))
    as ->.
  { pose proof (buildDict_loop_Returns user lines ∅ dict Hb) as Hall.
    unfold buildDict in Hb. rewrite buildDict_loop_entries in Hb by done.
    by injection Hb as <-. }
  split; [done|].
  apply (Ref_insert_all_refines _ _ _ ∅ {[(Ref.make ∅).1]}).
  apply repr_empty. apply lookup_insert_eq.
Qed.

End buildDict_lines.

(** ** quote on every text *)

Section quote_escape_facts.
Context `{!UnicodeTables}.
Local Open Scope Z_scope.

Lemma length_string_of_rune (r : Z) :
  0x80 ≤ r < 2 ^ 31 → (2 ≤ String.length (string_of_rune r))%nat.
Proof.
  intros Hr. unfold string_of_rune, utf8_AppendRune. cbv zeta.
  rewrite (Z.mod_small r (2 ^ 32)) by lia.
  replace (r <=? 127) with false by (symmetry; apply Z.leb_gt; lia).
  repeat match goal with |- context [if ?b then _ else _] => destruct b end;
    cbn [String.length str]; lia.
Qed.

Lemma lowerhex_ascii (i : Z) : is_ascii (lowerhex i) = true.
Proof.
  unfold lowerhex. generalize (Z.to_nat i). intros n.
  do 17 (destruct n as [|n]; [reflexivity|]). reflexivity.
Qed.

Lemma c_escape_ascii (c : ascii) :
  is_ascii c = true → all_bytes is_ascii (c_escape c) = true.
Proof.
  destruct c as [[] [] [] [] [] [] [] []]; intros Hc; try discriminate Hc;
    vm_compute; reflexivity.
Qed.

Lemma escapes_ascii (t : string) :
  all_bytes is_ascii t = true →
  all_bytes is_ascii (concat_str (c_escape <$> list_ascii_of_string t)) = true.
Proof.
  induction t as [|c t IH]; [done|]. cbn [all_bytes]. intros [Hc Ht]%andb_prop.
  cbn [list_ascii_of_string fmap list_fmap concat_str].
  by rewrite all_bytes_append, c_escape_ascii, IH.
Qed.

(** The escaped text of a rune from U+0080 to U+FFFF that is not
    printable. *)
Lemma appendEscapedRune_short (r : Z) :
  0x80 ≤ r < 0x10000 → utf8_ValidRune r = true → strconv_IsPrint r = false →
  strconv_appendEscapedRune r DQUOTE =
    "\u" +:+ concat_str ((λ s, str (lowerhex (Z.land (Z.shiftr r s) 0xF))) <$> [12; 8; 4; 0]).
Proof.
  intros Hr Hvalid Hprint. unfold strconv_appendEscapedRune.
  rewrite Hprint, Hvalid.
  change (byte_val DQUOTE) with 34. change (byte_val BACKSLASH) with 92.
  repeat match goal with
         | |- context [r =? ?b] =>
             replace (r =? b) with false by (symmetry; apply Z.eqb_neq; lia)
         end.
  replace (r <? 32) with false by (symmetry; apply Z.ltb_ge; lia).
  replace (r <? 65536) with true by (symmetry; apply Z.ltb_lt; lia).
  done.
Qed.

Ltac arith := Z.div_mod_to_equations; lia.

(** *** The runes of a text *)

Lemma runes_from_valid (s : string) : ∀ skip,
  Forall (λ x : Z * nat * string, utf8_ValidRune x.1.1 = true) (runes_from skip s).
Proof.
  induction s as [|c s IH]; intros skip; [by constructor|].
  cbn [runes_from]. destruct skip as [|n]; [|apply IH].
  unfold RuneSelf. destruct (byte_val c <? 128) eqn:Hc.
  - constructor; [|apply IH]. cbn [fst]. apply ValidRune_intro.
    apply Z.ltb_lt in Hc. pose proof (byte_val_range c). lia.
  - apply Z.ltb_ge in Hc.
    destruct (utf8_DecodeRuneInString (String c s)) as [r w] eqn:Hdec.
    constructor; [|apply IH]. cbn [fst]. by eapply decode_valid.
Qed.

Lemma runes_valid (s : string) :
  Forall (λ x : Z * nat * string, utf8_ValidRune x.1.1 = true) (runes s).
Proof. apply runes_from_valid. Qed.

(** *** The escapes *)

Lemma hex_digit_shift (r k : Z) :
  0 ≤ k → str (lowerhex (Z.land (Z.shiftr r (4 * k)) 0xF)) = hex_digit r k.
Proof.
  intros Hk. unfold hex_digit. change 0xF with (Z.ones 4).
  rewrite Z.land_ones, Z.shiftr_div_pow2 by lia.
  replace (2 ^ (4 * k)) with (16 ^ k); [done|].
  rewrite Z.pow_mul_r by lia. reflexivity.
Qed.

Lemma hex_digit_at (r s k : Z) :
  s = 4 * k → 0 ≤ k → str (lowerhex (Z.land (Z.shiftr r s) 0xF)) = hex_digit r k.
Proof. intros -> Hk. by apply hex_digit_shift. Qed.

Lemma quoteRune_spec (x : Z * nat * string) :
  utf8_ValidRune x.1.1 = true → strconv_quoteRune DQUOTE x = rune_escape x.
Proof.
  destruct x as [[r w] tail]. cbn [fst]. intros Hvalid.
  apply ValidRune_elim in Hvalid as Hr.
  unfold strconv_quoteRune, rune_escape.
  destruct ((w =? 1)%nat && (r =? RuneError)).
  { unfold at_index, hex_digit. set (b := default 0 (byte_val <$> String.get 0 tail)).
    assert (0 ≤ b < 256) as Hb.
    { subst b. destruct (String.get 0 tail) as [c|]; cbn; [apply byte_val_range|lia]. }
    replace ((b / 16 ^ 1) mod 16) with (Z.shiftr b 4)
      by (rewrite Z.shiftr_div_pow2 by lia; change (2 ^ 4) with 16; change (16 ^ 1) with 16;
          arith).
    replace ((b / 16 ^ 0) mod 16) with (Z.land b 0xF)
      by (change 0xF with (Z.ones 4); rewrite Z.land_ones by lia; change (2 ^ 4) with 16;
          change (16 ^ 0) with 1; arith).
    unfold str. by rewrite !append_cons, !append_nil_l. }
  destruct (r <? 128) eqn:Hlow.
  - apply Z.ltb_lt in Hlow.
    rewrite <- (appendEscapedRune_ascii (to_byte r)).
    + by rewrite byte_val_to_byte, Z.mod_small by lia.
    + unfold is_ascii. rewrite byte_val_to_byte, Z.mod_small by lia. apply Z.ltb_lt. lia.
  - apply Z.ltb_ge in Hlow. unfold strconv_appendEscapedRune. rewrite Hvalid.
    change (byte_val DQUOTE) with 34. change (byte_val BACKSLASH) with 92.
    repeat match goal with
           | |- context [r =? ?b] =>
               replace (r =? b) with false by (symmetry; apply Z.eqb_neq; lia)
           end.
    replace (r <? 32) with false by (symmetry; apply Z.ltb_ge; lia).
    cbn [orb]. destruct (strconv_IsPrint r); [done|].
    cbn [fmap list_fmap concat_str].
    rewrite ?(hex_digit_at r 28 7), ?(hex_digit_at r 24 6), ?(hex_digit_at r 20 5),
      ?(hex_digit_at r 16 4), ?(hex_digit_at r 12 3), ?(hex_digit_at r 8 2),
      ?(hex_digit_at r 4 1), ?(hex_digit_at r 0 0) by lia.
    rewrite !append_nil_r.
    destruct (r <? 65536); by rewrite ?append_assoc.
Qed.

(** The text that [strconv.Quote] makes of any text: between two
    double quotes, the escapes of its runes. *)
Lemma Quote_spec (s : string) :
  strconv_Quote s = String DQUOTE (concat_str (rune_escape <$> runes s) +:+ str DQUOTE).
Proof.
  unfold strconv_Quote. do 3 f_equal. apply Forall_fmap_ext.
  eapply Forall_impl; [apply runes_valid|]. intros x Hx. by apply quoteRune_spec.
Qed.

(** *** No control character in the escaped text *)

Lemma to_byte_lor_high_value (hi x : Z) :
  Z.testbit hi 7 = true → 0x80 ≤ byte_val (to_byte (Z.lor hi x)).
Proof.
  intros Hhi. rewrite byte_val_to_byte.
  assert (Z.testbit (Z.lor hi x mod 256) 7 = true) as Hbit.
  { change 256 with (2 ^ 8). by rewrite Z.mod_pow2_bits_low, Z.lor_spec, Hhi by lia. }
  apply Z.testbit_true in Hbit; [|lia]. change (2 ^ 7) with 128 in Hbit.
  pose proof (Z.mod_pos_bound (Z.lor hi x) 256 ltac:(lia)). arith.
Qed.

(** The encoding of a rune that is not in ASCII is made of bytes from
    0x80 on. *)
Lemma AppendRune_high (r : Z) :
  0x80 ≤ r < 2 ^ 32 → all_bytes (λ c, 0x80 <=? byte_val c) (utf8_AppendRune r) = true.
Proof.
  intros Hr. unfold utf8_AppendRune. cbv zeta. rewrite (Z.mod_small r (2 ^ 32)) by lia.
  replace (r <=? 127) with false by (symmetry; apply Z.leb_gt; lia).
  repeat match goal with |- context [if ?b then _ else _] => destruct b end;
    cbn [all_bytes str];
    repeat (apply andb_true_intro; split); try done;
    apply Z.leb_le; by apply to_byte_lor_high_value.
Qed.

Lemma AppendRune_first (r : Z) :
  0x80 ≤ r < 2 ^ 32 → ∃ c rest, utf8_AppendRune r = String c rest ∧ 0x80 ≤ byte_val c.
Proof.
  intros Hr. pose proof (AppendRune_high r Hr) as Hhigh. revert Hhigh.
  unfold utf8_AppendRune. cbv zeta. rewrite (Z.mod_small r (2 ^ 32)) by lia.
  replace (r <=? 127) with false by (symmetry; apply Z.leb_gt; lia).
  repeat match goal with |- context [if ?b then _ else _] => destruct b end;
    cbn [all_bytes]; intros [Hc%Z.leb_le _]%andb_prop; by eauto.
Qed.

Lemma lowerhex_no_control (i : Z) : no_control (lowerhex i) = true.
Proof.
  unfold lowerhex. generalize (Z.to_nat i). intros n.
  do 17 (destruct n as [|n]; [reflexivity|]). reflexivity.
Qed.

Lemma c_escape_no_control (c : ascii) : all_bytes no_control (c_escape c) = true.
Proof. destruct c as [[] [] [] [] [] [] [] []]; vm_compute; reflexivity. Qed.

Lemma rune_escape_no_control (x : Z * nat * string) :
  utf8_ValidRune x.1.1 = true → all_bytes no_control (rune_escape x) = true.
Proof.
  destruct x as [[r w] tail]. cbn [fst]. intros Hvalid%ValidRune_elim.
  unfold rune_escape, hex_digit.
  destruct (_ && _).
  { rewrite !all_bytes_append. cbn [all_bytes str]. by rewrite !lowerhex_no_control. }
  destruct (r <? 128) eqn:Hlow; [apply c_escape_no_control|]. apply Z.ltb_ge in Hlow.
  destruct (strconv_IsPrint r).
  { eapply all_bytes_impl; [|apply AppendRune_high; lia].
    intros c Hc%Z.leb_le. unfold no_control. apply andb_true_intro. split.
    - apply Z.leb_le. lia.
    - apply negb_true_iff, Z.eqb_neq. lia. }
  destruct (r <? 65536); rewrite !all_bytes_append; cbn [all_bytes str];
    by rewrite !lowerhex_no_control.
Qed.

Lemma Quote_no_control (s : string) : all_bytes no_control (strconv_Quote s) = true.
Proof.
  rewrite Quote_spec. cbn [all_bytes]. rewrite all_bytes_append. cbn [all_bytes str].
  rewrite andb_true_r. change (no_control DQUOTE) with true. cbn [andb].
  pose proof (runes_valid s) as Hvalid.
  induction Hvalid as [|x l Hx Hl IH]; [done|].
  cbn [fmap list_fmap concat_str]. by rewrite all_bytes_append, rune_escape_no_control, IH.
Qed.

(** *** The texts that quote puts in upper case *)

(** The escaped text opens with [\u] exactly for the texts of
    [opens_with_short_escape]. *)
Lemma Quote_short_escape (s : string) :
  strings_HasPrefix (strconv_Quote s) (String DQUOTE "\u") = opens_with_short_escape s.
Proof.
  rewrite Quote_spec. unfold opens_with_short_escape.
  pose proof (runes_valid s) as Hvalid.
  destruct (runes s) as [|[[r w] tail] l];
    [cbn [fmap list_fmap concat_str]; by rewrite append_nil_l|].
  apply Forall_cons in Hvalid as [Hvalid%ValidRune_elim _]. cbn [fst] in Hvalid.
  cbn [fmap list_fmap concat_str]. unfold rune_escape.
  destruct ((w =? 1)%nat && (r =? RuneError)); [by rewrite !append_assoc|].
  cbn [negb andb]. destruct (r <? 128) eqn:Hlow.
  { apply Z.ltb_lt in Hlow. rewrite append_assoc, c_escape_no_u.
    - symmetry. replace (128 <=? r) with false by (symmetry; apply Z.leb_gt; lia). done.
    - unfold is_ascii. rewrite byte_val_to_byte, Z.mod_small by lia. apply Z.ltb_lt. lia. }
  apply Z.ltb_ge in Hlow.
  replace (128 <=? r) with true by (symmetry; apply Z.leb_le; lia). cbn [andb].
  destruct (strconv_IsPrint r).
  { destruct (AppendRune_first r ltac:(lia)) as (c0 & s0 & -> & Hc0).
    rewrite !append_cons. cbn [strings_HasPrefix]. rewrite decide_True by done.
    rewrite decide_False; [done|]. intros ->. by vm_compute in Hc0. }
  cbn [negb andb]. destruct (r <? 65536); by rewrite !append_assoc.
Qed.

(** *** Upper case *)

Lemma byte_values_map_bytes (f : ascii → ascii) (s : string) :
  byte_values (map_bytes f s) = (λ c, byte_val (f c)) <$> list_ascii_of_string s.
Proof.
  unfold byte_values. induction s as [|c s IH]; [done|].
  cbn [map_bytes list_ascii_of_string fmap list_fmap]. by rewrite IH.
Qed.

Lemma byte_val_upper_byte (c : ascii) :
  byte_val (upper_byte c) = ascii_upper_value (byte_val c).
Proof.
  unfold upper_byte, ascii_upper_value. destruct (_ && _) eqn:Hletter; [|done].
  apply andb_prop in Hletter as [H1%Z.leb_le H2%Z.leb_le].
  rewrite byte_val_to_byte. apply Z.mod_small. lia.
Qed.

(** On a text that is all ASCII [strings.ToUpper] takes 0x20 off the
    bytes from 0x61 to 0x7A, the letters [a] to [z], and keeps the
    others. *)
Lemma ToUpper_byte_values (s : string) :
  all_bytes is_ascii s = true →
  byte_values (strings_ToUpper s) = ascii_upper_value <$> byte_values s.
Proof.
  intros Hs. rewrite ToUpper_ascii by done. rewrite byte_values_map_bytes.
  unfold byte_values. rewrite <- list_fmap_compose. apply list_fmap_ext.
  intros i c _. apply byte_val_upper_byte.
Qed.

Lemma rune_values_concat (us : list Z) :
  Forall (λ u, utf8_ValidRune u = true) us →
  rune_values (concat_str (utf8_AppendRune <$> us)) = us.
Proof.
  unfold rune_values. induction 1 as [|u us Hu Hus IH]; [done|].
  cbn [fmap list_fmap concat_str].
  apply ValidRune_elim in Hu as Hrange.
  pose proof (runes_string_of_rune_append u (concat_str (utf8_AppendRune <$> us))
                ltac:(lia)) as Hrunes.
  unfold string_of_rune in Hrunes. rewrite Hrunes, Hu.
  cbn [fmap list_fmap fst]. by rewrite IH.
Qed.

(** The runes of what [strings.Map] returns are the images of the
    runes of the text, when the images are code points. *)
Lemma Map_rune_values (mapping : Z → Z) (s : string) :
  Forall (λ x : Z * nat * string, utf8_ValidRune (mapping x.1.1) = true) (runes s) →
  rune_values (strings_Map mapping s) = mapping <$> rune_values s.
Proof.
  intros Hvalid. unfold strings_Map.
  trans (rune_values (concat_str (utf8_AppendRune <$> (mapping <$> rune_values s)))).
  { f_equal. f_equal.
    unfold rune_values. rewrite <- !list_fmap_compose. apply Forall_fmap_ext.
    eapply Forall_impl; [exact Hvalid|]. intros x Hx. cbn.
    apply ValidRune_elim in Hx.
    by replace (0 <=? mapping x.1.1) with true by (symmetry; apply Z.leb_le; lia). }
  apply rune_values_concat. unfold rune_values. rewrite <- list_fmap_compose.
  apply Forall_fmap. eapply Forall_impl; [exact Hvalid|]. by intros x Hx.
Qed.

Lemma rune_values_ascii (s : string) :
  all_bytes is_ascii s = true → rune_values s = byte_values s.
Proof.
  unfold rune_values, byte_values, runes. induction s as [|c s IH]; [done|].
  cbn [all_bytes]. intros [Hc Hs]%andb_prop.
  cbn [runes_from list_ascii_of_string fmap list_fmap].
  unfold is_ascii in Hc. unfold RuneSelf. rewrite Hc.
  cbn [Nat.sub fmap list_fmap fst]. by rewrite <- IH.
Qed.

Lemma rune_upper_ToUpper (r : Z) : unicode_ToUpper r = rune_upper r.
Proof.
  unfold unicode_ToUpper, rune_upper, ascii_upper_value.
  destruct (Z.leb_spec r 127), (Z.ltb_spec r 128); (done || lia).
Qed.

Lemma rune_upper_valid (r : Z) :
  (∀ r, utf8_ValidRune r = true → utf8_ValidRune (upperCaseTable r) = true) →
  utf8_ValidRune r = true → utf8_ValidRune (rune_upper r) = true.
Proof.
  intros Htable Hr. unfold rune_upper, ascii_upper_value.
  destruct (Z.ltb_spec r 128); [|by apply Htable].
  apply ValidRune_elim in Hr. apply ValidRune_intro.
  destruct (_ && _) eqn:Hletter; [|lia].
  apply andb_prop in Hletter as [H1%Z.leb_le H2%Z.leb_le]. lia.
Qed.

(** The runes of what [strings.ToUpper] returns are the upper case of
    the runes of the text, when the table of Unicode takes code points
    to code points. *)
Lemma ToUpper_rune_values (s : string) :
  (∀ r, utf8_ValidRune r = true → utf8_ValidRune (upperCaseTable r) = true) →
  rune_values (strings_ToUpper s) = rune_upper <$> rune_values s.
Proof.
  intros Htable.
  destruct (all_bytes is_ascii s) eqn:Hascii.
  - assert (all_bytes is_ascii (strings_ToUpper s) = true) as Hup.
    { rewrite ToUpper_ascii by done. clear Htable.
      induction s as [|c s IH]; [done|]. cbn [all_bytes map_bytes] in Hascii |- *.
      apply andb_prop in Hascii as [Hc Hs]. rewrite IH, andb_true_r by done.
      unfold is_ascii in Hc |- *. rewrite byte_val_upper_byte. unfold ascii_upper_value.
      apply Z.ltb_lt in Hc. apply Z.ltb_lt. destruct (_ && _); lia. }
    rewrite !rune_values_ascii, ToUpper_byte_values by done.
    apply Forall_fmap_ext. unfold byte_values. apply Forall_fmap.
    clear Hup. induction s as [|c s IH]; [by constructor|].
    cbn [all_bytes] in Hascii. apply andb_prop in Hascii as [Hc Hs].
    constructor; [|by apply IH]. cbn. unfold rune_upper.
    unfold is_ascii in Hc. by rewrite Hc.
  - unfold strings_ToUpper. change (λ c, byte_val c <? RuneSelf) with is_ascii.
    rewrite Hascii. rewrite Map_rune_values.
    + apply list_fmap_ext. intros i r _. apply rune_upper_ToUpper.
    + eapply Forall_impl; [apply runes_valid|]. intros x Hx. cbn beta.
      rewrite rune_upper_ToUpper. by apply rune_upper_valid.
Qed.

Lemma HasPrefix_three (s : string) (a b c : ascii) :
  strings_HasPrefix s (String a (String b (str c))) = true →
  ∃ s', s = String a (String b (String c s')).
Proof.
  destruct s as [|a' [|b' [|c' s']]]; cbn [strings_HasPrefix str]; try done.
  - by destruct (decide (a' = a)).
  - destruct (decide (a' = a)); [|done]. by destruct (decide (b' = b)).
  - destruct (decide (a' = a)) as [->|]; [|done].
    destruct (decide (b' = b)) as [->|]; [|done].
    destruct (decide (c' = c)) as [->|]; [|done]. by exists s'.
Qed.

(** The upper case of a text that opens with a quote, a backslash and
    [u] opens with a quote, a backslash and [U]. *)
Lemma ToUpper_short_escape (s : string) :
  strings_HasPrefix (strings_ToUpper (String DQUOTE ("\u" +:+ s))) (String DQUOTE "\U") = true.
Proof.
  unfold strings_ToUpper.
  destruct (all_bytes (λ c, byte_val c <? RuneSelf) _) eqn:Hascii.
  - change ("\u" +:+ s) with (String BACKSLASH (String "u" s)).
    cbn [all_bytes]. 
    replace ((97 <=? byte_val "u") && (byte_val "u" <=? 122)) with true by done.
    cbn [negb andb]. rewrite andb_false_r. cbn [negb map_bytes].
    change (upper_byte DQUOTE) with DQUOTE.
    change (upper_byte BACKSLASH) with BACKSLASH.
    change (upper_byte "u") with "U"%char.
    cbn [strings_HasPrefix]. rewrite !decide_True by done.
    by destruct (map_bytes _ _).
  - unfold strings_Map, runes.
    change ("\u" +:+ s) with (String BACKSLASH (String "u" s)).
    cbn [runes_from].
    change (byte_val DQUOTE <? RuneSelf) with true.
    change (byte_val BACKSLASH <? RuneSelf) with true.
    change (byte_val "u" <? RuneSelf) with true.
    cbn [Nat.sub fmap list_fmap concat_str fst].
    change (unicode_ToUpper (byte_val DQUOTE)) with 34.
    change (unicode_ToUpper (byte_val BACKSLASH)) with 92.
    change (unicode_ToUpper (byte_val "u")) with 85.
    change (utf8_AppendRune 34) with (str DQUOTE).
    change (utf8_AppendRune 92) with (str BACKSLASH).
    change (utf8_AppendRune 85) with (str "U").
    change (str DQUOTE +:+ str BACKSLASH +:+ str "U" +:+ ?t) with
      (String DQUOTE (String BACKSLASH (String "U" t))).
    cbn [strings_HasPrefix]. repeat case_decide; try done.
    by destruct (concat_str _).
Qed.

Lemma map_bytes_append (f : ascii → ascii) (s t : string) :
  map_bytes f (s +:+ t) = map_bytes f s +:+ map_bytes f t.
Proof.
  induction s as [|c s IH]; [by rewrite !append_nil_l|].
  rewrite append_cons. cbn [map_bytes]. by rewrite append_cons, IH.
Qed.

Lemma map_bytes_ext (f g : ascii → ascii) (s : string) :
  (∀ c, f c = g c) → map_bytes f s = map_bytes g s.
Proof. intros Hfg. induction s as [|c s IH]; [done|]. cbn. by rewrite Hfg, IH. Qed.

Lemma upper_byte_ascii_upper (c : ascii) : upper_byte c = ascii_upper c.
Proof.
  unfold upper_byte, ascii_upper, ascii_upper_value.
  destruct (_ && _); [done|]. by destruct c as [[] [] [] [] [] [] [] []].
Qed.

Lemma upper_byte_lowerhex (i : Z) : upper_byte (lowerhex i) = upperhex i.
Proof.
  unfold lowerhex, upperhex. generalize (Z.to_nat i). intros n.
  do 17 (destruct n as [|n]; [reflexivity|]). reflexivity.
Qed.

Lemma c_escape_letter (c : ascii) : is_letter c = true → c_escape c = str c.
Proof.
  destruct c as [[] [] [] [] [] [] [] []]; intros Hc; try discriminate Hc;
    vm_compute; reflexivity.
Qed.

Lemma to_byte_byte_val (c : ascii) : to_byte (byte_val c) = c.
Proof. by destruct c as [[] [] [] [] [] [] [] []]. Qed.

(** Two bytes with the same upper case have escapes with the same
    upper case. *)
Lemma c_escape_same_upper (c c' : ascii) :
  ascii_upper_value (byte_val c) = ascii_upper_value (byte_val c') →
  map_bytes upper_byte (c_escape c) = map_bytes upper_byte (c_escape c').
Proof.
  intros Hsame.
  destruct (decide (c = c')) as [->|Hne]; [done|].
  assert (byte_val c ≠ byte_val c') as Hval.
  { intros Heq. apply Hne. by rewrite <- (to_byte_byte_val c), Heq, to_byte_byte_val. }
  assert (is_letter c = true ∧ is_letter c' = true) as [Hc Hc'].
  { unfold ascii_upper_value in Hsame. unfold is_letter.
    destruct (Z.leb_spec 97 (byte_val c)), (Z.leb_spec (byte_val c) 122),
      (Z.leb_spec 97 (byte_val c')), (Z.leb_spec (byte_val c') 122);
      cbn [andb] in Hsame; try lia;
      (split; apply orb_true_iff; [|]; rewrite !andb_true_iff, !Z.leb_le; lia). }
  rewrite !c_escape_letter by done. cbn [map_bytes str].
  rewrite !upper_byte_ascii_upper. unfold ascii_upper. by rewrite Hsame.
Qed.

Lemma escapes_same_upper (t t' : string) :
  ascii_upper_value <$> byte_values t = ascii_upper_value <$> byte_values t' →
  map_bytes upper_byte (concat_str (c_escape <$> list_ascii_of_string t)) =
    map_bytes upper_byte (concat_str (c_escape <$> list_ascii_of_string t')).
Proof.
  unfold byte_values. revert t'. induction t as [|c t IH]; intros [|c' t']; try done.
  cbn [list_ascii_of_string fmap list_fmap concat_str]. intros [= Hc Ht].
  rewrite !map_bytes_append. by rewrite (c_escape_same_upper c c'), (IH t').
Qed.

(** C5, as amended: [quote s] is the text that [strconv.Quote] makes
    of [s], with its case changed or not.  That text is, between two
    double quotes, the escape of every rune of [s] by [rune_escape]: for
    a rune of ASCII the escape of [c_escape], which puts a backslash
    before a double quote and before a backslash and escapes the control
    characters; it holds no control character.  It opens with the escape
    of four digits, [\u], exactly when [s] opens with a well-encoded
    rune from U+0080 to U+FFFF that is not printable.  Then [quote]
    returns it in upper case as a whole: the result opens with [\U], its
    bytes are the upper case of the bytes of the escaped text when that
    text is all ASCII, and its runes are the upper case of the runes of
    the escaped text whenever the table of Unicode takes code points to
    code points.  Any other text, the ones whose escape opens with the
    escape of eight digits [\U] included, is returned as
    [strconv.Quote] made it, and text that is all ASCII is always among
    these. *)
Theorem quote_escapes_and_uppercases (s : string) :
  (strconv_Quote s = String DQUOTE (concat_str (rune_escape <$> runes s) +:+ str DQUOTE) ∧
   all_bytes no_control (strconv_Quote s) = true) ∧
  strings_HasPrefix (strconv_Quote s) (String DQUOTE "\u") = opens_with_short_escape s ∧
  (opens_with_short_escape s = true →
     strings_HasPrefix (quote s) (String DQUOTE "\U") = true ∧
     (all_bytes is_ascii (strconv_Quote s) = true →
        byte_values (quote s) = ascii_upper_value <$> byte_values (strconv_Quote s)) ∧
     ((∀ r, utf8_ValidRune r = true → utf8_ValidRune (upperCaseTable r) = true) →
        rune_values (quote s) = rune_upper <$> rune_values (strconv_Quote s))) ∧
  (opens_with_short_escape s = false → quote s = strconv_Quote s) ∧
  (all_bytes is_ascii s = true →
     quote s =
       String DQUOTE (concat_str (c_escape <$> list_ascii_of_string s) +:+ str DQUOTE)).
Proof.
  split; [split; [apply Quote_spec|apply Quote_no_control]|].
  split; [apply Quote_short_escape|].
  split; [|split].
  - intros Hshort. rewrite <- Quote_short_escape in Hshort.
    unfold quote. rewrite Hshort. split; [|split].
    + apply HasPrefix_three in Hshort as [rest ->]. apply (ToUpper_short_escape rest).
    + apply ToUpper_byte_values.
    + apply ToUpper_rune_values.
  - intros Hshort. rewrite <- Quote_short_escape in Hshort.
    unfold quote. by rewrite Hshort.
  - intros Hs. unfold quote. rewrite Quote_ascii_no_u by done. by apply Quote_ascii.
Qed.

(** X15: a text that opens with a rune from U+0080 to U+FFFF that is
    not printable and goes on in ASCII.  The escaped text is the escape
    [\u] of the rune with its four digits and the escapes of the rest.
    [quote] returns it with every letter in upper case: [\U], the four
    digits with [A] to [F] for [a] to [f], and the upper case of the
    escapes of the rest; byte for byte, 0x20 is taken off the bytes from
    0x61 to 0x7A of the escaped text and the others are kept.  So the
    case of the letters of the text is lost: two such texts that differ
    in the case of letters only are quoted the same. *)
Theorem quote_leading_escape (r : Z) (t : string) :
  0x80 ≤ r < 0x10000 → utf8_ValidRune r = true → strconv_IsPrint r = false →
  all_bytes is_ascii t = true →
  strconv_Quote (string_of_rune r +:+ t) =
    String DQUOTE
      ("\u" +:+ concat_str ((λ s, str (lowerhex (Z.land (Z.shiftr r s) 0xF))) <$> [12; 8; 4; 0])
       +:+ concat_str (c_escape <$> list_ascii_of_string t) +:+ str DQUOTE) ∧
  quote (string_of_rune r +:+ t) =
    String DQUOTE
      ("\U" +:+ concat_str ((λ s, str (upperhex (Z.land (Z.shiftr r s) 0xF))) <$> [12; 8; 4; 0])
       +:+ map_bytes ascii_upper (concat_str (c_escape <$> list_ascii_of_string t))
       +:+ str DQUOTE) ∧
  byte_values (quote (string_of_rune r +:+ t)) =
    ascii_upper_value <$> byte_values (strconv_Quote (string_of_rune r +:+ t)) ∧
  (∀ t', all_bytes is_ascii t' = true →
         ascii_upper_value <$> byte_values t = ascii_upper_value <$> byte_values t' →
         quote (string_of_rune r +:+ t') = quote (string_of_rune r +:+ t)).
Proof.
  intros Hr Hvalid Hprint Ht.
  assert (∀ t, all_bytes is_ascii t = true →
    strconv_Quote (string_of_rune r +:+ t) =
    String DQUOTE
      ("\u" +:+ concat_str ((λ s, str (lowerhex (Z.land (Z.shiftr r s) 0xF))) <$> [12; 8; 4; 0])
       +:+ concat_str (c_escape <$> list_ascii_of_string t) +:+ str DQUOTE)) as HQ.
  { clear t Ht. intros t Ht.
    unfold strconv_Quote. rewrite runes_string_of_rune_append by lia. rewrite Hvalid.
    cbn [fmap list_fmap concat_str]. rewrite runes_ascii by done.
    cbn [strconv_quoteRune].
    pose proof (length_string_of_rune r ltac:(lia)) as Hlen.
    replace (String.length (string_of_rune r) =? 1)%nat with false
      by (symmetry; apply Nat.eqb_neq; lia).
    cbn [andb]. rewrite appendEscapedRune_short by done.
    by rewrite !append_assoc. }
  assert (∀ t, all_bytes is_ascii t = true →
    quote (string_of_rune r +:+ t) =
      map_bytes upper_byte (strconv_Quote (string_of_rune r +:+ t))) as Hquote.
  { clear t Ht. intros t Ht. unfold quote. rewrite (HQ t Ht).
    cbn [strings_HasPrefix append]. rewrite !decide_True by done.
    apply ToUpper_ascii. cbn [all_bytes fmap list_fmap concat_str].
    rewrite !all_bytes_append. cbn [all_bytes str]. rewrite !lowerhex_ascii.
    by rewrite escapes_ascii. }
  assert (∀ t, all_bytes is_ascii t = true →
    quote (string_of_rune r +:+ t) =
    String DQUOTE
      ("\U" +:+ concat_str ((λ s, str (upperhex (Z.land (Z.shiftr r s) 0xF))) <$> [12; 8; 4; 0])
       +:+ map_bytes upper_byte (concat_str (c_escape <$> list_ascii_of_string t))
       +:+ str DQUOTE)) as Hform.
  { clear t Ht. intros t Ht. rewrite (Hquote t Ht), (HQ t Ht).
    cbn [map_bytes]. change (upper_byte DQUOTE) with DQUOTE. f_equal.
    rewrite !map_bytes_append. cbn [fmap list_fmap concat_str].
    rewrite !map_bytes_append. cbn [map_bytes str]. by rewrite !upper_byte_lowerhex. }
  split; [by apply HQ|]. split; [|split].
  - rewrite (Hform t Ht).
    by rewrite (map_bytes_ext upper_byte ascii_upper _ upper_byte_ascii_upper).
  - rewrite (Hquote t Ht), byte_values_map_bytes. unfold byte_values.
    rewrite <- list_fmap_compose. apply list_fmap_ext. intros i c _.
    apply byte_val_upper_byte.
  - intros t' Ht' Hsame. rewrite (Hform t Ht), (Hform t' Ht').
    by rewrite (escapes_same_upper t t').
Qed.

End quote_escape_facts.

(** ** Examples *)

(** The example of the claim on collisions: ["x"] is first put at
    ["a"], and a later insertion below ["a"] changes nothing. *)
Lemma insert_below_leaf_noop_witness :
  ["b"] ≠ ([] : list string) ∧
  resolve (insert ∅ "x" ["a"]) ["a"] = Some (Leaf "x") ∧
  insert (insert ∅ "x" ["a"]) "y" (["a"] ++ ["b"]) = insert ∅ "x" ["a"] ∧
  resolve (insert (insert ∅ "x" ["a"]) "y" (["a"] ++ ["b"])) ["a"] = Some (Leaf "x").
Proof.
  split; [discriminate|]. split; [reflexivity|].
  apply (insert_below_leaf_noop (insert ∅ "x" ["a"]) "y" ["a"] ["b"] "x");
    [discriminate|reflexivity].
Defined.

(** The cases of the test of the repository: the dictionary that the
    insertions build and the text that [format] writes into a
    [strings.Builder]. *)
Example test_empty `{!UnicodeTables} (order : range_order) :
  insert_all ∅ [] = ∅ ∧
  format_output order (insert_all ∅ []) 0 = "{" +:+ str LF +:+ "}" +:+ str LF.
Proof. split; [done|]. by rewrite format_output_writes, format_writes_empty. Qed.

Example test_one_by_one :
  insert_all ∅ [(["1"], "text")] = {[ "1" := Leaf "text" ]} ∧
  @format_output no_tables map_order (insert_all ∅ [(["1"], "text")]) 0 =
    "{" +:+ str LF +:+
    str TAB +:+ str DQUOTE +:+ "1" +:+ str DQUOTE +:+ " = (" +:+ str DQUOTE +:+
      "insertText:" +:+ str DQUOTE +:+ ", " +:+ str DQUOTE +:+ "text" +:+ str DQUOTE +:+
      ");" +:+ str LF +:+
    "}" +:+ str LF.
Proof. split; vm_compute; reflexivity. Qed.

Example test_one_by_two :
  insert_all ∅ [(["1"; "2"], "text")] = {[ "1" := Interior {[ "2" := Leaf "text" ]} ]} ∧
  @format_output no_tables map_order (insert_all ∅ [(["1"; "2"], "text")]) 0 =
    "{" +:+ str LF +:+
    str TAB +:+ str DQUOTE +:+ "1" +:+ str DQUOTE +:+ " = {" +:+ str LF +:+
    str TAB +:+ str TAB +:+ str DQUOTE +:+ "2" +:+ str DQUOTE +:+ " = (" +:+ str DQUOTE +:+
      "insertText:" +:+ str DQUOTE +:+ ", " +:+ str DQUOTE +:+ "text" +:+ str DQUOTE +:+
      ");" +:+ str LF +:+
    str TAB +:+ "};" +:+ str LF +:+
    "}" +:+ str LF.
Proof. split; vm_compute; reflexivity. Qed.

Example test_two_by_one :
  insert_all ∅ [(["1"], "text1"); (["2"], "text2")] =
    <[ "1" := Leaf "text1" ]> {[ "2" := Leaf "text2" ]} ∧
  @format_output no_tables map_order (insert_all ∅ [(["1"], "text1"); (["2"], "text2")]) 0 =
    "{" +:+ str LF +:+
    str TAB +:+ str DQUOTE +:+ "1" +:+ str DQUOTE +:+ " = (" +:+ str DQUOTE +:+
      "insertText:" +:+ str DQUOTE +:+ ", " +:+ str DQUOTE +:+ "text1" +:+ str DQUOTE +:+
      ");" +:+ str LF +:+
    str TAB +:+ str DQUOTE +:+ "2" +:+ str DQUOTE +:+ " = (" +:+ str DQUOTE +:+
      "insertText:" +:+ str DQUOTE +:+ ", " +:+ str DQUOTE +:+ "text2" +:+ str DQUOTE +:+
      ");" +:+ str LF +:+
    "}" +:+ str LF.
Proof. split; vm_compute; reflexivity. Qed.

Example test_two_by_two :
  insert_all ∅ [(["1"; "2"], "text1"); (["1"; "3"], "text2")] =
    {[ "1" := Interior (<[ "2" := Leaf "text1" ]> {[ "3" := Leaf "text2" ]}) ]} ∧
  @format_output no_tables map_order
      (insert_all ∅ [(["1"; "2"], "text1"); (["1"; "3"], "text2")]) 0 =
    "{" +:+ str LF +:+
    str TAB +:+ str DQUOTE +:+ "1" +:+ str DQUOTE +:+ " = {" +:+ str LF +:+
    str TAB +:+ str TAB +:+ str DQUOTE +:+ "2" +:+ str DQUOTE +:+ " = (" +:+ str DQUOTE +:+
      "insertText:" +:+ str DQUOTE +:+ ", " +:+ str DQUOTE +:+ "text1" +:+ str DQUOTE +:+
      ");" +:+ str LF +:+
    str TAB +:+ str TAB +:+ str DQUOTE +:+ "3" +:+ str DQUOTE +:+ " = (" +:+ str DQUOTE +:+
      "insertText:" +:+ str DQUOTE +:+ ", " +:+ str DQUOTE +:+ "text2" +:+ str DQUOTE +:+
      ");" +:+ str LF +:+
    str TAB +:+ "};" +:+ str LF +:+
    "}" +:+ str LF.
Proof. split; vm_compute; reflexivity. Qed.

(** Keys are written in the order of their bytes whatever the order in
    which they were inserted: ["B"] before ["a"] before ["b"]. *)
Example sorted_keys_example :
  sorted_keys (insert_all ∅ [(["b"], "1"); (["a"], "2"); (["B"], "3")]) = ["B"; "a"; "b"] ∧
  insert_all ∅ [(["b"], "1"); (["a"], "2"); (["B"], "3")] =
    insert_all ∅ [(["B"], "3"); (["b"], "1"); (["a"], "2")].
Proof. split; vm_compute; reflexivity. Qed.

(** A sink that fails at its third call: [format] makes the three
    calls and returns the error of the third. *)
Example format_failing_sink :
  @format no_tables _ _ Failing_Write map_order (insert_all ∅ [(["1"], "text")]) 0 0 =
    (3, Some "short write").
Proof. vm_compute. reflexivity. Qed.

(** A nil map and a path of one segment: the call returns and the heap,
    empty before, holds afterwards the one map made by the call. *)
Example insert_nil_example :
  Ref.insert ∅ None "v" ["k"] = Some {[ 1%positive := {[ "k" := Ref.VString "v" ]} ]}.
Proof. vm_compute. reflexivity. Qed.

(** Two orders of insertion of the same pairs, and the text that
    [format] writes for them. *)
Lemma format_deterministic_witness :
  [(["b"], "1"); (["a"], "2")] ≡ₚ [(["a"], "2"); (["b"], "1")] ∧
  NoDup [(["b"], "1"); (["a"], "2")].*1 ∧
  @format_output no_tables map_order (insert_all ∅ [(["b"], "1"); (["a"], "2")]) 0 =
    @format_output no_tables map_order (insert_all ∅ [(["a"], "2"); (["b"], "1")]) 0.
Proof.
  assert ([(["b"], "1"); (["a"], "2")] ≡ₚ [(["a"], "2"); (["b"], "1")]) as Hp
    by apply perm_swap.
  assert (NoDup [(["b"], "1"); (["a"], "2")].*1) as Hnd
    by (apply (bool_decide_unpack _); vm_compute; exact I).
  split; [exact Hp|]. split; [exact Hnd|].
  exact (proj2 (proj2 (proj2 (proj2 (@format_deterministic no_tables))))
           map_order map_order _ _ 0 Hp Hnd).
Defined.

(** The sink that fails at its third call: the two writes before have
    succeeded and the third is the last. *)
Lemma format_write_failure_witness :
  @format no_tables _ _ Failing_Write map_order (insert_all ∅ [(["1"], "text")]) 0 0 =
    (3, Some "short write") ∧
  ∃ before text after w1,
    @format_writes no_tables map_order (insert_all ∅ [(["1"], "text")]) 0 =
      before ++ text :: after ∧
    write_all Failing_Write before 0 = (w1, None) ∧
    Failing_Write w1 text = (3, Some "short write").
Proof.
  assert (@format no_tables _ _ Failing_Write map_order (insert_all ∅ [(["1"], "text")]) 0 0 =
            (3, Some "short write")) as Hf by (vm_compute; reflexivity).
  split; [exact Hf|].
  exact (proj1 (proj2 (@format_write_failure no_tables map_order _ _ Failing_Write
                         (insert_all ∅ [(["1"], "text")]) 0 0)) _ _ Hf).
Defined.

(** The table of the examples takes code points to code points. *)
Lemma example_tables_valid (r : Z) :
  utf8_ValidRune r = true → utf8_ValidRune (@upperCaseTable example_tables r) = true.
Proof.
  intros Hr%ValidRune_elim. apply ValidRune_intro. cbn.
  destruct (_ && _) eqn:Htest; [|done].
  apply andb_prop in Htest as [[H1%Z.leb_le H2%Z.leb_le]%andb_prop _]. lia.
Qed.

(** The soft hyphen U+00AD, which is not printable.  Before [abc] the
    escaped text is all ASCII and what [quote] returns is, byte for
    byte, [\U00ADABC] between two double quotes.  Before [é], U+00E9,
    which is printable and is kept as it is in the escaped text, what
    [quote] returns is, rune for rune, [\U00ADÉA] between two double
    quotes, with U+00C9 for U+00E9. *)
Lemma quote_escapes_and_uppercases_witness :
  (@opens_with_short_escape no_tables
     (String (to_byte 0xC2) (String (to_byte 0xAD) "abc")) = true ∧
   all_bytes is_ascii
     (@strconv_Quote no_tables (String (to_byte 0xC2) (String (to_byte 0xAD) "abc"))) = true ∧
   byte_values (@quote no_tables (String (to_byte 0xC2) (String (to_byte 0xAD) "abc"))) =
     [0x22; 0x5C; 0x55; 0x30; 0x30; 0x41; 0x44; 0x41; 0x42; 0x43; 0x22]%Z) ∧
  (@opens_with_short_escape example_tables
     (String (to_byte 0xC2) (String (to_byte 0xAD)
        (String (to_byte 0xC3) (String (to_byte 0xA9) "a")))) = true ∧
   rune_values
     (@quote example_tables
        (String (to_byte 0xC2) (String (to_byte 0xAD)
           (String (to_byte 0xC3) (String (to_byte 0xA9) "a"))))) =
     [0x22; 0x5C; 0x55; 0x30; 0x30; 0x41; 0x44; 0xC9; 0x41; 0x22]%Z).
Proof.
  split.
  - split; [vm_compute; reflexivity|]. split; [vm_compute; reflexivity|].
    etrans.
    + apply (proj1 (proj2 (proj1 (proj2 (proj2 (@quote_escapes_and_uppercases no_tables
               (String (to_byte 0xC2) (String (to_byte 0xAD) "abc"))))) eq_refl))).
      vm_compute. reflexivity.
    + vm_compute. reflexivity.
  - split; [vm_compute; reflexivity|].
    etrans.
    + apply (proj2 (proj2 (proj1 (proj2 (proj2 (@quote_escapes_and_uppercases example_tables
               (String (to_byte 0xC2) (String (to_byte 0xAD)
                  (String (to_byte 0xC3) (String (to_byte 0xA9) "a"))))))) eq_refl))).
      apply example_tables_valid.
    + vm_compute. reflexivity.
Defined.

(** U+10FFFF, which the tables of the examples do not hold printable:
    the escaped text opens with the escape of eight digits, [\U], and
    [quote] returns it as it is, with the digits [ffff] in lower case;
    it is not the upper case of the escaped text. *)
Lemma quote_escapes_and_uppercases_counterexample :
  strings_HasPrefix
    (@strconv_Quote no_tables
       (String (to_byte 0xF4) (String (to_byte 0x8F)
          (String (to_byte 0xBF) (String (to_byte 0xBF) EmptyString)))))
    (String DQUOTE "\U") = true ∧
  @quote no_tables
    (String (to_byte 0xF4) (String (to_byte 0x8F)
       (String (to_byte 0xBF) (String (to_byte 0xBF) EmptyString)))) =
    String DQUOTE ("\U0010ffff" +:+ str DQUOTE) ∧
  byte_values (@quote no_tables
    (String (to_byte 0xF4) (String (to_byte 0x8F)
       (String (to_byte 0xBF) (String (to_byte 0xBF) EmptyString))))) ≠
    ascii_upper_value <$> byte_values (@strconv_Quote no_tables
      (String (to_byte 0xF4) (String (to_byte 0x8F)
         (String (to_byte 0xBF) (String (to_byte 0xBF) EmptyString))))).
Proof.
  split; [vm_compute; reflexivity|]. split; [vm_compute; reflexivity|].
  intros Heq. vm_compute in Heq. discriminate Heq.
Qed.

(** ** Examples of key names, lines and paths *)

(** The keys of some names.  A name of the table of key names that
    opens with [<U] is not found; the sign of a number is read, and a
    number below zero is no code point. *)
Example keyFor_examples :
  keyFor example_keysymdef "<a>" example_user = inl "a" ∧
  keyFor example_keysymdef "<Multi_key>" example_user = inl "@" ∧
  keyFor example_keysymdef "<U41>" example_user = inl "A" ∧
  keyFor example_keysymdef "<U+41>" example_user = inl "A" ∧
  keyFor example_keysymdef "<U00e9>" example_user =
    inl (String (to_byte 0xC3) (str (to_byte 0xA9))) ∧
  keyFor example_keysymdef "<U-41>" example_user = inl (string_of_rune RuneError) ∧
  keyFor example_keysymdef "<UD800>" example_user = inl (string_of_rune RuneError) ∧
  keyFor example_keysymdef "<Up>" example_user = inr (NumError "ParseInt" "p" ErrSyntax) ∧
  keyFor example_keysymdef "<U>" example_user =
    inr (NumError "ParseInt" EmptyString ErrSyntax) ∧
  keyFor example_keysymdef "<U80000000>" example_user =
    inr (NumError "ParseInt" "80000000" ErrRange) ∧
  keyFor example_keysymdef "<zz>" example_user = inr (Errorf "no value for <zz>").
Proof. repeat split; vm_compute; reflexivity. Qed.

(** The lines of the example: the comment and the empty line are
    passed over, the second line puts its value at the keys of its
    three names, and the last line, which has a name that is not known,
    is passed over. *)
Example buildDict_example :
  buildDict (λ _, false) example_Unquote example_keysymdef example_user example_lines =
    Returns (insert ∅ "x" ["@"; "a"; "e"]).
Proof. vm_compute. reflexivity. Qed.

(** A name that is not between angle brackets and is not known stays
    in the path as it is written. *)
Example buildDict_literal_name :
  buildDict (λ _, false) example_Unquote example_keysymdef example_user
    ["<Multi_key> zz <U3b1> : " +:+ str DQUOTE +:+ "y" +:+ str DQUOTE] =
    Returns (insert ∅ "y" ["@"; "zz"; String (to_byte 0xCE) (str (to_byte 0xB1))]).
Proof. vm_compute. reflexivity. Qed.

(** An insertion at [b.c] and what is found at [a]. *)
Lemma insert_resolve_frame_witness :
  ¬ ["b"; "c"] `prefix_of` ["a"] ∧ ¬ ["a"] `prefix_of` ["b"; "c"] ∧
  resolve (insert {[ "a" := Leaf "x" ]} "v" ["b"; "c"]) ["a"] =
    resolve {[ "a" := Leaf "x" ]} ["a"].
Proof.
  assert (¬ ["b"; "c"] `prefix_of` ["a"]) as H1 by (intros [k Hk]; discriminate Hk).
  assert (¬ ["a"] `prefix_of` ["b"; "c"]) as H2 by (intros [k Hk]; discriminate Hk).
  split; [exact H1|]. split; [exact H2|].
  exact (insert_resolve_frame "v" ["b"; "c"] ["a"] {[ "a" := Leaf "x" ]} H1 H2).
Defined.

(** Insertions at [a] and at [a.b], in the two orders. *)
Lemma insert_shorter_path_wins_witness :
  insert (insert ∅ "long" (["a"] ++ ["b"])) "short" ["a"] = insert ∅ "short" ["a"] ∧
  insert (insert ∅ "short" ["a"]) "long" (["a"] ++ ["b"]) = insert ∅ "short" ["a"].
Proof.
  apply (insert_shorter_path_wins "short" "long" ["a"] ["b"] ∅); discriminate.
Defined.


(** The name of U+00E9, with digits in lower case. *)
Lemma keyFor_code_point_witness :
  keyFor example_keysymdef ("<U" +:+ "00e9" +:+ ">") example_user =
    inl (string_of_rune (hex_value "00e9" 0)) ∧
  runes (string_of_rune (hex_value "00e9" 0)) =
    [(if utf8_ValidRune (hex_value "00e9" 0) then hex_value "00e9" 0 else RuneError,
      String.length (string_of_rune (hex_value "00e9" 0)),
      string_of_rune (hex_value "00e9" 0))].
Proof.
  apply (keyFor_code_point example_keysymdef example_user "00e9");
    [discriminate|reflexivity|reflexivity].
Defined.

(** The name [<Up>] is in the table of key names and is not found. *)
Lemma keyFor_U_prefix_not_looked_up_witness :
  example_keysymdef !! "<Up>" = Some 0xFF52%Z ∧
  ∃ cause,
    keyFor example_keysymdef "<Up>" example_user =
      inr (NumError "ParseInt" (strings_TrimSuffix (strings_TrimPrefix "<Up>" "<U") ">")
             cause).
Proof.
  split; [vm_compute; reflexivity|].
  apply (keyFor_U_prefix_not_looked_up example_keysymdef example_user "<Up>");
    reflexivity.
Defined.

(** The second line of the example. *)
Lemma buildDict_line_entry_witness :
  buildDict_line (λ _, false) example_Unquote example_keysymdef example_user ∅
    ("<Multi_key> <a> <e> " +:+ ":" +:+ " " +:+
     (str DQUOTE +:+ "x" +:+ str DQUOTE) +:+ " ae") =
    Returns (insert ∅ "x" ["@"; "a"; "e"]).
Proof.
  apply (buildDict_line_entry (λ _, false) example_Unquote example_keysymdef example_user ∅
           "<Multi_key> <a> <e> " " " (str DQUOTE +:+ "x" +:+ str DQUOTE) " ae" "x");
    (reflexivity || discriminate).
Defined.

(** A line with nothing after its colon. *)
Lemma buildDict_line_one_part_witness :
  buildDict_line (λ _, false) example_Unquote example_keysymdef example_user ∅
    ("<a>" +:+ ":") =
    Fatal ("unexpected number of parts: " +:+ "<a>" +:+ ":").
Proof.
  apply (buildDict_line_one_part (λ _, false) example_Unquote example_keysymdef
           example_user ∅ "<a>" ":"); reflexivity.
Defined.

(** A line with a space after its colon and nothing else. *)
Lemma buildDict_line_blank_value_witness :
  buildDict_line (λ _, false) example_Unquote example_keysymdef example_user ∅
    ("<a> " +:+ ":" +:+ " ") =
    Panics "index out of range [0] with length 0".
Proof.
  apply (buildDict_line_blank_value (λ _, false) example_Unquote example_keysymdef
           example_user ∅ "<a> " " "); (reflexivity || discriminate).
Defined.

(** The dictionary of the lines of the example, and what it holds at
    the key of the user. *)
Lemma buildDict_populated_witness :
  buildDict (λ _, false) example_Unquote example_keysymdef example_user example_lines =
    Returns (insert ∅ "x" ["@"; "a"; "e"]) ∧
  populated (Interior {[ "a" := Interior {[ "e" := Leaf "x" ]} ]}).
Proof.
  assert (buildDict (λ _, false) example_Unquote example_keysymdef example_user
            example_lines = Returns (insert ∅ "x" ["@"; "a"; "e"])) as Hb
    by (vm_compute; reflexivity).
  split; [exact Hb|].
  apply (buildDict_populated (λ _, false) example_Unquote example_keysymdef example_user
           example_lines _ Hb "@").
  vm_compute. reflexivity.
Defined.

(** The two lines of the example in their two orders. *)
Lemma buildDict_line_order_witness :
  buildDict (λ _, false) example_Unquote example_keysymdef example_user
    ["<a> : " +:+ str DQUOTE +:+ "x" +:+ str DQUOTE;
     "<a> <e> : " +:+ str DQUOTE +:+ "y" +:+ str DQUOTE] =
    Returns (insert_all ∅ [(["a"], "x"); (["a"; "e"], "y")]) ∧
  buildDict (λ _, false) example_Unquote example_keysymdef example_user
    ["<a> <e> : " +:+ str DQUOTE +:+ "y" +:+ str DQUOTE;
     "<a> : " +:+ str DQUOTE +:+ "x" +:+ str DQUOTE] =
  buildDict (λ _, false) example_Unquote example_keysymdef example_user
    ["<a> : " +:+ str DQUOTE +:+ "x" +:+ str DQUOTE;
     "<a> <e> : " +:+ str DQUOTE +:+ "y" +:+ str DQUOTE].
Proof.
  apply (buildDict_line_order (λ _, false) example_Unquote example_keysymdef example_user
           ["<a> : " +:+ str DQUOTE +:+ "x" +:+ str DQUOTE;
            "<a> <e> : " +:+ str DQUOTE +:+ "y" +:+ str DQUOTE]
           ["<a> <e> : " +:+ str DQUOTE +:+ "y" +:+ str DQUOTE;
            "<a> : " +:+ str DQUOTE +:+ "x" +:+ str DQUOTE]).
  - repeat constructor; eexists; vm_compute; reflexivity.
  - apply (bool_decide_unpack _). vm_compute. exact I.
  - apply perm_swap.
Defined.

(** The no-break space U+00A0, in Latin-1 and not printable, before a
    letter and a backslash: what [quote] returns, its bytes, and the
    same text for the letter in the other case. *)
Lemma quote_leading_escape_witness :
  @quote no_tables (string_of_rune 0xA0 +:+ "a\") =
    String DQUOTE ("\U00A0A\\" +:+ str DQUOTE) ∧
  byte_values (@quote no_tables (string_of_rune 0xA0 +:+ "a\")) =
    [0x22; 0x5C; 0x55; 0x30; 0x30; 0x41; 0x30; 0x41; 0x5C; 0x5C; 0x22]%Z ∧
  @quote no_tables (string_of_rune 0xA0 +:+ "A\") =
    @quote no_tables (string_of_rune 0xA0 +:+ "a\").
Proof.
  pose proof (@quote_leading_escape no_tables 0xA0 "a\" ltac:(lia) eq_refl eq_refl eq_refl)
    as (_ & Hform & Hbytes & Hcase).
  split; [exact Hform|]. split.
  - etrans; [exact Hbytes|]. vm_compute. reflexivity.
  - apply Hcase; reflexivity.
Defined.

Example quote_case_lost :
  @quote no_tables (string_of_rune 0xA0 +:+ "a") = String DQUOTE ("\U00A0A" +:+ str DQUOTE) ∧
  @quote no_tables (string_of_rune 0xA0 +:+ "A") = String DQUOTE ("\U00A0A" +:+ str DQUOTE).
Proof. split; vm_compute; reflexivity. Qed.

(** The lines of the example: the one insertion that they ask for, and
    the heap after it. *)
Lemma buildDict_in_place_witness :
  buildDict (λ _, false) example_Unquote example_keysymdef example_user example_lines =
    Returns (insert ∅ "x" ["@"; "a"; "e"]) ∧
  insert ∅ "x" ["@"; "a"; "e"] =
    insert_all ∅
      (entries (λ _, false) example_Unquote example_keysymdef example_user example_lines) ∧
  ∃ h' fp',
    Ref.insert_all (Ref.make ∅).2 (Some (Ref.make ∅).1)
      (entries (λ _, false) example_Unquote example_keysymdef example_user example_lines) =
      Some h' ∧
    Ref.repr h' (Ref.VMap (Some (Ref.make ∅).1)) (Interior (insert ∅ "x" ["@"; "a"; "e"])) fp'.
Proof.
  assert (buildDict (λ _, false) example_Unquote example_keysymdef example_user
            example_lines = Returns (insert ∅ "x" ["@"; "a"; "e"])) as Hb
    by (vm_compute; reflexivity).
  split; [exact Hb|].
  exact (buildDict_in_place (λ _, false) example_Unquote example_keysymdef example_user
           example_lines _ Hb).
Defined.
